(** * opus-atom: the physics and sampling core, embedded in Rocq

    A shallow embedding of
      - src/physics/radialWaveFunction.js
      - src/physics/sphericalHarmonics.js
      - src/physics/probabilityDensity.js
      - src/physics/orbitalSampler.js
      - src/data/elements.js (the electron configurations)

    Conventions of the embedding.
      - JavaScript numbers that the code uses as integers (quantum numbers,
        counters, indices, point counts) are [Z]; all other numbers are
        real numbers [R].  IEEE-754 rounding, NaN, the two infinities and
        the Float32 rounding of typed-array stores are not modelled: the
        development speaks about the program in exact arithmetic.
      - [Math.random] reads the next element of a sequence of draws kept in
        the [world]; [console.warn] appends to a log kept in the [world];
        the module-level [Map] of probabilityDensity.js is a field of the
        [world] too.
      - [for] loops with a counter are [for_range]; the [while] loop of
        [sampleOrbital] is defined by well-founded recursion on the number
        of attempts that remain.
      - Not embedded: [getOrbitalName] (string formatting); the unused local
        [maxElectronsInSubshell] of [sampleSubshell] and the unused
        parameter [threshold] of [maxRadialExtent] are left out. *)

From Stdlib Require Import Reals ZArith List Bool Lia Lra Psatz.
From Stdlib Require Import Zfloor.
From Equations Require Import Equations.
Import ListNotations.

Open Scope R_scope.

(** ** The JavaScript built-ins the code calls *)

Definition Rltb (x y : R) : bool := if Rlt_dec x y then true else false.
Definition Rgtb (x y : R) : bool := Rltb y x.
Definition Reqb (x y : R) : bool := if Req_dec_T x y then true else false.

(** [Math.pow(x, k)] for an integer exponent is [powerRZ x k]. *)
Definition Math_pow_int (x : R) (k : Z) : R := powerRZ x k.

(** [Math.pow(x, y)] for a real exponent and [0 <= x]: [Math.pow(0, y)] is
    0 for positive [y] and 1 for [y = 0]. *)
Definition Math_pow (x y : R) : R :=
  if Req_dec_T x 0 then (if Req_dec_T y 0 then 1 else 0) else Rpower x y.

(** [Math.atan2(y, x)], with its range (-PI, PI]. *)
Definition Math_atan2 (y x : R) : R :=
  if Rlt_dec 0 x then atan (y / x)
  else if Rlt_dec x 0 then
         (if Rle_dec 0 y then atan (y / x) + PI else atan (y / x) - PI)
  else if Rlt_dec 0 y then PI / 2
  else if Rlt_dec y 0 then - (PI / 2)
  else 0.

Definition Math_ceil (x : R) : Z := Zceil x.
Definition Math_floor (x : R) : Z := Zfloor x.

(** [a || b] on numbers: [b] when [a] is 0, else [a]. *)
Definition js_or (a b : Z) : Z := if (a =? 0)%Z then b else a.

(** [for (let k = from; ...; k++)] run [count] times. *)
Fixpoint for_range {St : Type} (k : Z) (count : nat) (body : Z -> St -> St) (s : St) : St :=
  match count with
  | O => s
  | S c => for_range (k + 1)%Z c body (body k s)
  end.

(** [for (let k = a; k <= b; k++)]. *)
Definition for_upto {St : Type} (a b : Z) (body : Z -> St -> St) (s : St) : St :=
  for_range a (Z.to_nat (b - a + 1)) body s.

(** A store into a JavaScript array: in range it replaces, at or past the
    end it extends (the holes a store past the end leaves are written 0;
    the code never makes one). *)
Fixpoint replace_nth (a : list R) (i : nat) (v : R) : list R :=
  match a, i with
  | [], _ => []
  | _ :: t, O => v :: t
  | h :: t, S j => h :: replace_nth t j v
  end.

Definition array_set (a : list R) (i : nat) (v : R) : list R :=
  if (i <? length a)%nat then replace_nth a i v
  else a ++ repeat 0 (i - length a) ++ [v].

(** A store into a typed array: out of range it does nothing. *)
Definition typed_array_set (a : list R) (i : Z) (v : R) : list R :=
  if ((0 <=? i)%Z && (i <? Z.of_nat (length a))%Z)%bool
  then replace_nth a (Z.to_nat i) v else a.

(** ** The world: random draws, the console, the module-level cache *)

Inductive warning : Type :=
| InvalidRadial (n l : Z)                         (* radialWaveFunction *)
| InvalidAngular (l m : Z)                        (* sphericalHarmonic *)
| OnlyGenerated (generated : R) (numPoints n l m : Z). (* sampleOrbital *)

(** The key [`${n},${l},${m},${Z}`] of the cache: the four numbers. *)
Definition cache_key : Type := (Z * Z * Z * R)%type.

Record world : Type := mkWorld {
  draws : nat -> R;                         (* what Math.random() returns *)
  drawn : nat;                              (* how many were consumed *)
  console : list warning;                   (* console.warn, oldest first *)
  maxProbabilityCache : list (cache_key * R) (* the Map, in insertion order *)
}.

Definition M (A : Type) : Type := world -> A * world.

Definition ret {A : Type} (a : A) : M A := fun w => (a, w).

Definition bind {A B : Type} (c : M A) (k : A -> M B) : M B :=
  fun w => let (a, w') := c w in k a w'.

Declare Scope js_scope.
Delimit Scope js_scope with js.
Notation "x <- c ;; k" := (bind c (fun x => k))
  (at level 61, c at next level, right associativity) : js_scope.
Notation "c ;;; k" := (bind c (fun _ => k))
  (at level 61, right associativity) : js_scope.
Open Scope js_scope.

Definition Math_random : M R :=
  fun w => (draws w (drawn w),
            mkWorld (draws w) (S (drawn w)) (console w) (maxProbabilityCache w)).

Definition console_warn (msg : warning) : M unit :=
  fun w => (tt, mkWorld (draws w) (drawn w) (console w ++ [msg]) (maxProbabilityCache w)).

(** A counted loop whose body has effects. *)
Fixpoint repeatM {St : Type} (count : nat) (body : St -> M St) (s : St) : M St :=
  match count with
  | O => ret s
  | S c => s' <- body s ;; repeatM c body s'
  end.

(** ** radialWaveFunction.js *)

Definition BOHR_RADIUS : R := 1.

(** The memoised factorial: [factorialCache] is the table, threaded
    explicitly.  [factorial_memo n table] is the value returned and the
    table afterwards. *)
Definition factorialCache_initial : list R := [1; 1].

Definition factorial_memo (n : Z) (table : list R) : R * list R :=
  if (n <? 0)%Z then (1, table)
  else if (n <? Z.of_nat (length table))%Z then (nth (Z.to_nat n) table 0, table)
  else
    for_upto (Z.of_nat (length table)) n
      (fun i '(result, tbl) =>
         let result := result * IZR i in
         (result, array_set tbl (Z.to_nat i) result))
      (nth (length table - 1) table 0, table).

(** What [factorial(n)] returns from any table holding factorials
    ([factorial_memo_value] below): 1 for negative [n], else [n!]. *)
Definition factorial (n : Z) : R :=
  if (n <? 0)%Z then 1 else INR (fact (Z.to_nat n)).

Definition laguerrePolynomial (n : Z) (alpha x : R) : R :=
  if (n =? 0)%Z then 1
  else if (n =? 1)%Z then 1 + alpha - x
  else
    let '(_, _, L_curr) :=
      for_upto 2 n
        (fun k '(L_prev2, L_prev1, _) =>
           let L_curr :=
             ((2 * IZR k - 1 + alpha - x) * L_prev1 - (IZR k - 1 + alpha) * L_prev2) / IZR k in
           (L_prev1, L_curr, L_curr))
        (1, 1 + alpha - x, 0)
    in L_curr.

Definition radialNormalization (n l : Z) (Zeff : R) : R :=
  let prefactor := Math_pow_int (2 * Zeff / (IZR n * BOHR_RADIUS)) 3 in
  let numerator := factorial (n - l - 1) in
  let denominator := 2 * IZR n * Math_pow_int (factorial (n + l)) 3 in
  sqrt (prefactor * numerator / denominator).

Definition radialWaveFunction (n l : Z) (r Zeff : R) : M R :=
  if ((n <? 1)%Z || (l <? 0)%Z || (l >=? n)%Z)%bool then
    console_warn (InvalidRadial n l) ;;; ret 0
  else
    let rho := (2 * Zeff * r) / (IZR n * BOHR_RADIUS) in
    let N := radialNormalization n l Zeff in
    let rhoL := Math_pow_int rho l in
    let expTerm := exp (- rho / 2) in
    let laguerre := laguerrePolynomial (n - l - 1) (IZR (2 * l + 1)) rho in
    ret (N * rhoL * expTerm * laguerre).

Definition radialProbabilityDensity (n l : Z) (r Zeff : R) : M R :=
  R_ <- radialWaveFunction n l r Zeff ;;
  ret (R_ * R_ * r * r).

Definition maxRadialExtent (n l : Z) (Zeff : R) : R :=
  (4 * IZR n * IZR n / Zeff) * BOHR_RADIUS.

Definition mostProbableRadius (n l : Z) (Zeff : R) : R :=
  ((IZR n * IZR n - IZR l * (IZR l + 1) / 2) / Zeff) * BOHR_RADIUS.

(** ** sphericalHarmonics.js *)

Definition legendrePolynomial (l m : Z) (x : R) : R :=
  let absM := Z.abs m in
  if (absM >? l)%Z then 0
  else
    let Pmm :=
      if (absM >? 0)%Z then
        let sqrtTerm := sqrt (1 - x * x) in
        let doubleFactorial :=
          for_upto 1 absM (fun i df => df * (2 * IZR i - 1)) 1 in
        Math_pow_int (-1) absM * doubleFactorial * Math_pow_int sqrtTerm absM
      else 1 in
    if (l =? absM)%Z then Pmm
    else
      let Pmm1 := x * (2 * IZR absM + 1) * Pmm in
      if (l =? absM + 1)%Z then Pmm1
      else
        let '(_, _, Plm) :=
          for_upto (absM + 2) l
            (fun ll '(Pmm, Pmm1, _) =>
               let Plm :=
                 (x * (2 * IZR ll - 1) * Pmm1 - (IZR ll + IZR absM - 1) * Pmm)
                 / (IZR ll - IZR absM) in
               (Pmm1, Plm, Plm))
            (Pmm, Pmm1, 0)
        in Plm.

Definition sphericalHarmonicNormalization (l m : Z) : R :=
  let absM := Z.abs m in
  let numerator := (2 * IZR l + 1) * factorial (l - absM) in
  let denominator := 4 * PI * factorial (l + absM) in
  sqrt (numerator / denominator).

Definition sphericalHarmonic (l m : Z) (theta phi : R) : M R :=
  if ((l <? 0)%Z || (Z.abs m >? l)%Z)%bool then
    console_warn (InvalidAngular l m) ;;; ret 0
  else
    let N := sphericalHarmonicNormalization l m in
    let P := legendrePolynomial l (Z.abs m) (cos theta) in
    if (m >? 0)%Z then ret (N * sqrt 2 * P * cos (IZR m * phi))
    else if (m <? 0)%Z then ret (N * sqrt 2 * P * sin (IZR (Z.abs m) * phi))
    else ret (N * P).

Definition angularProbabilityDensity (l m : Z) (theta phi : R) : M R :=
  Y <- sphericalHarmonic l m theta phi ;;
  ret (Y * Y).

Definition getMagneticQuantumNumbers (l : Z) : list Z :=
  for_upto (- l) l (fun m mValues => mValues ++ [m]) [].

(** ** probabilityDensity.js *)

Definition probabilityDensity (n l m : Z) (r theta phi Zeff : R) : M R :=
  R_ <- radialWaveFunction n l r Zeff ;;
  Y <- sphericalHarmonic l m theta phi ;;
  ret (R_ * R_ * Y * Y).

Module Cartesian.
Record t : Type := mk { x : R; y : R; z : R }.
End Cartesian.

Module Spherical.
Record t : Type := mk { r : R; theta : R; phi : R }.
End Spherical.

Definition sphericalToCartesian (r theta phi : R) : Cartesian.t :=
  let sinTheta := sin theta in
  Cartesian.mk (r * sinTheta * cos phi) (r * sinTheta * sin phi) (r * cos theta).

Definition cartesianToSpherical (x y z : R) : Spherical.t :=
  let r := sqrt (x * x + y * y + z * z) in
  if Req_dec_T r 0 then Spherical.mk 0 0 0
  else Spherical.mk r (acos (z / r)) (Math_atan2 y x).

Definition probabilityDensityCartesian (n l m : Z) (x y z Zeff : R) : M R :=
  let s := cartesianToSpherical x y z in
  probabilityDensity n l m (Spherical.r s) (Spherical.theta s) (Spherical.phi s) Zeff.

Definition findMaxProbability (n l m : Z) (Zeff : R) (samples : Z) : M R :=
  let maxR := maxRadialExtent n l Zeff in
  maxP <- repeatM (Z.to_nat samples)
            (fun maxP =>
               u <- Math_random ;;
               let r := u * maxR in
               v <- Math_random ;;
               let theta := acos (2 * v - 1) in
               p <- Math_random ;;
               let phi := p * 2 * PI in
               P <- probabilityDensity n l m r theta phi Zeff ;;
               ret (if Rgtb P maxP then P else maxP))
            0 ;;
  ret (maxP * 1.2).

(** The [Map]: an association list in insertion order. *)
Definition key_eqb (a b : cache_key) : bool :=
  let '(n1, l1, m1, z1) := a in
  let '(n2, l2, m2, z2) := b in
  ((n1 =? n2)%Z && (l1 =? l2)%Z && (m1 =? m2)%Z && Reqb z1 z2)%bool.

Fixpoint Map_get (c : list (cache_key * R)) (k : cache_key) : option R :=
  match c with
  | [] => None
  | (k', v) :: t => if key_eqb k' k then Some v else Map_get t k
  end.

Definition Map_has (c : list (cache_key * R)) (k : cache_key) : bool :=
  match Map_get c k with Some _ => true | None => false end.

Fixpoint Map_set (c : list (cache_key * R)) (k : cache_key) (v : R) : list (cache_key * R) :=
  match c with
  | [] => [(k, v)]
  | (k', v') :: t => if key_eqb k' k then (k', v) :: t else (k', v') :: Map_set t k v
  end.

Definition cache_has (k : cache_key) : M bool :=
  fun w => (Map_has (maxProbabilityCache w) k, w).

Definition cache_get (k : cache_key) : M (option R) :=
  fun w => (Map_get (maxProbabilityCache w) k, w).

Definition cache_set (k : cache_key) (v : R) : M unit :=
  fun w => (tt, mkWorld (draws w) (drawn w) (console w) (Map_set (maxProbabilityCache w) k v)).

(** [maxProbabilityCache.get(key)] is [undefined] for an absent key:
    [None]. *)
Definition getMaxProbability (n l m : Z) (Zeff : R) : M (option R) :=
  let key := (n, l, m, Zeff) in
  has <- cache_has key ;;
  (if negb has
   then v <- findMaxProbability n l m Zeff 2000 ;; cache_set key v
   else ret tt) ;;;
  cache_get key.

Definition clearProbabilityCache : M unit :=
  fun w => (tt, mkWorld (draws w) (drawn w) (console w) []).

(** ** orbitalSampler.js *)

(** What a call gives back: a value, or the [RangeError] that
    [new Float32Array(length)] throws for a negative length. *)
Inductive outcome (A : Type) : Type :=
| Returned (a : A)
| RangeError.
Arguments Returned {A} a.
Arguments RangeError {A}.

Definition estimateMaxProbability (n l m : Z) (Zeff maxR : R) : M R :=
  let samples := 5000%Z in
  let rPeak := mostProbableRadius n l Zeff in
  maxP <- repeatM (Z.to_nat samples)
            (fun maxP =>
               b <- Math_random ;;
               r <- (if Rltb b 0.7
                     then u <- Math_random ;; ret (rPeak * (0.3 + u * 1.4))
                     else u <- Math_random ;; ret (maxR * u)) ;;
               let r := Rmax 0.01 (Rmin r maxR) in
               v <- Math_random ;;
               let theta := acos (2 * v - 1) in
               p <- Math_random ;;
               let phi := p * 2 * PI in
               P <- probabilityDensity n l m r theta phi Zeff ;;
               let volumeWeight := r * r * sin theta in
               let weightedP := P * volumeWeight in
               ret (if Rgtb weightedP maxP then weightedP else maxP))
            0 ;;
  ret (maxP * 1.5).

(** The variables of the [while] loop of [sampleOrbital]. *)
Record sampler_state : Type := mkState {
  points : list R;
  maxP : R;
  pointIndex : Z;
  attempts : Z
}.

(** The loop condition. *)
Definition sampling_continues (numPoints : Z) (s : sampler_state) : bool :=
  ((pointIndex s <? numPoints * 3)%Z && (attempts s <? numPoints * 100)%Z)%bool.

(** One pass through the body of the loop. *)
Definition attempt (n l m : Z) (Zeff maxR : R) (s : sampler_state) : M sampler_state :=
  let attempts := (attempts s + 1)%Z in
  u <- Math_random ;;
  let r := maxR * Math_pow u (1 / 3) in
  v <- Math_random ;;
  let theta := acos (2 * v - 1) in
  p <- Math_random ;;
  let phi := p * 2 * PI in
  P <- probabilityDensity n l m r theta phi Zeff ;;
  let volumeWeight := r * r * sin theta in
  let weightedP := P * volumeWeight in
  a <- Math_random ;;
  let '(points, pointIndex) :=
    if Rltb (a * maxP s) weightedP then
      let c := sphericalToCartesian r theta phi in
      let i := pointIndex s in
      (typed_array_set
         (typed_array_set
            (typed_array_set (points s) i (Cartesian.x c))
            (i + 1)%Z (Cartesian.y c))
         (i + 2)%Z (Cartesian.z c),
       (i + 3)%Z)
    else (points s, pointIndex s) in
  let maxP :=
    if ((attempts >? 1000)%Z && Rltb (IZR pointIndex) (IZR attempts * 0.01))%bool
    then maxP s * 2 else maxP s in
  ret (mkState points maxP pointIndex attempts).

(** Every pass counts one attempt: what makes the loop terminate. *)
Lemma attempt_counts (n l m : Z) (Zeff maxR : R) (s : sampler_state) (w : world) :
  attempts (fst (attempt n l m Zeff maxR s w)) = (attempts s + 1)%Z.
Proof.
  unfold attempt, bind, Math_random, ret; cbn.
  destruct (probabilityDensity _ _ _ _ _ _ _ _) as [P w1]; cbn.
  destruct (Rltb _ _); reflexivity.
Qed.

(** A value together with the fact that it is the value: lets a [with]
    clause remember which way the loop condition went. *)
Definition remember_eq {A : Type} (a : A) : { b : A | a = b } := exist _ a eq_refl.

(** [while (pointIndex < numPoints * 3 && attempts < maxAttempts) { ... }] *)
Equations sampling_loop (n l m : Z) (Zeff maxR : R) (numPoints : Z)
          (s : sampler_state) (w : world) : sampler_state * world
  by wf (Z.to_nat (numPoints * 100 - attempts s)) lt :=
  sampling_loop n l m Zeff maxR numPoints s w
    with remember_eq (sampling_continues numPoints s) := {
    | exist _ true more =>
        sampling_loop n l m Zeff maxR numPoints
          (fst (attempt n l m Zeff maxR s w)) (snd (attempt n l m Zeff maxR s w));
    | exist _ false _ => (s, w) }.
Next Obligation.
  rewrite attempt_counts.
  unfold sampling_continues in more.
  apply andb_prop in more as [_ more].
  apply Z.ltb_lt in more. lia.
Qed.

Definition sampleOrbital (n l m numPoints : Z) (Zeff : R) : M (outcome (list R)) :=
  if (numPoints * 3 <? 0)%Z then ret RangeError
  else
    let buffer := repeat 0 (Z.to_nat (numPoints * 3)) in
    let maxR := maxRadialExtent n l Zeff in
    maxP0 <- estimateMaxProbability n l m Zeff maxR ;;
    s <- sampling_loop n l m Zeff maxR numPoints (mkState buffer maxP0 0 0) ;;
    if (pointIndex s <? numPoints * 3)%Z then
      console_warn (OnlyGenerated (IZR (pointIndex s) / 3) numPoints n l m) ;;;
      ret (Returned (firstn (Z.to_nat (pointIndex s)) (points s)))
    else ret (Returned (points s)).

Module SubshellEntry.
Record t : Type := mk { m : Z; electrons : Z; points : list R }.
End SubshellEntry.

(** A counted loop whose body has effects and may throw. *)
Fixpoint for_rangeM {St : Type} (k : Z) (count : nat)
         (body : Z -> St -> M (outcome St)) (s : St) : M (outcome St) :=
  match count with
  | O => ret (Returned s)
  | S c =>
      o <- body k s ;;
      match o with
      | Returned s' => for_rangeM (k + 1)%Z c body s'
      | RangeError => ret RangeError
      end
  end.

(** The expression that gives an orbital its electrons in
    [sampleSubshell]. *)
Definition electronsInThisOrbital (l totalElectrons m : Z) : Z :=
  let electronsPerOrbital := IZR totalElectrons / (2 * IZR l + 1) in
  Z.min 2
    (js_or
       (Math_ceil (electronsPerOrbital * IZR (m + l + 1) / electronsPerOrbital)
        - Math_floor (electronsPerOrbital * IZR (m + l) / electronsPerOrbital))%Z
       (Math_floor (IZR totalElectrons / (2 * IZR l + 1)))).

Definition sampleSubshell (n l totalElectrons : Z) (pointsPerElectron Zeff : R)
  : M (outcome (list SubshellEntry.t)) :=
  for_rangeM (- l)%Z (Z.to_nat (l - (- l) + 1))
    (fun m results =>
       let electrons := electronsInThisOrbital l totalElectrons m in
       if (electrons >? 0)%Z then
         let numPoints := Math_ceil (pointsPerElectron * IZR electrons) in
         o <- sampleOrbital n l m numPoints Zeff ;;
         match o with
         | Returned pts => ret (Returned (results ++ [SubshellEntry.mk m electrons pts]))
         | RangeError => ret RangeError
         end
       else ret (Returned results))
    [].

(** ** data/elements.js: the electron configurations *)

Module Orbital.
Record t : Type := mk { n : Z; l : Z; m : Z; electrons : Z }.
End Orbital.

Module Subshell.
Record t : Type := mk { n : Z; l : Z; electrons : Z }.
End Subshell.

(** [for (const x of xs) { if (stop) break; ... }]: the [break] is the
    first statement of the body. *)
Fixpoint for_of_break {A St : Type} (xs : list A) (stop : St -> bool)
         (body : A -> St -> St) (s : St) : St :=
  match xs with
  | [] => s
  | x :: rest => if stop s then s else for_of_break rest stop body (body x s)
  end.

(** [for (let k = from; k <= to && cond; k++)], with [count] the number
    of values [from .. to]. *)
Fixpoint for_range_while {St : Type} (k : Z) (count : nat) (cond : St -> bool)
         (body : Z -> St -> St) (s : St) : St :=
  match count with
  | O => s
  | S c => if cond s then for_range_while (k + 1)%Z c cond body (body k s) else s
  end.

Definition AUFBAU_ORDER : list (Z * Z) :=
  [ (1, 0); (2, 0); (2, 1); (3, 0); (3, 1); (4, 0); (3, 2); (4, 1); (5, 0); (4, 2);
    (5, 1); (6, 0); (4, 3); (5, 2); (6, 1); (7, 0); (5, 3); (6, 2); (7, 1) ]%Z.

(** The state of both loops is [(config, remaining)]; the local
    [electrons] of [generateElectronConfiguration], which nothing reads, is
    left out. *)
Definition generateElectronConfiguration (electronCount : Z) : list Orbital.t :=
  fst (for_of_break AUFBAU_ORDER
         (fun '(config, remaining) => (remaining <=? 0)%Z)
         (fun '(n, l) st =>
            for_range_while (- l)%Z (Z.to_nat (l - (- l) + 1))
              (fun '(config, remaining) => (remaining >? 0)%Z)
              (fun m '(config, remaining) =>
                 let electronsInOrbital := Z.min 2 remaining in
                 (config ++ [Orbital.mk n l m electronsInOrbital],
                  (remaining - electronsInOrbital)%Z))
              st)
         ([], electronCount)).

Definition generateSubshellConfiguration (electronCount : Z) : list Subshell.t :=
  fst (for_of_break AUFBAU_ORDER
         (fun '(config, remaining) => (remaining <=? 0)%Z)
         (fun '(n, l) '(config, remaining) =>
            let maxElectrons := (2 * (2 * l + 1))%Z in
            let electrons := Z.min remaining maxElectrons in
            if (electrons >? 0)%Z
            then (config ++ [Subshell.mk n l electrons], (remaining - electrons)%Z)
            else (config, remaining))
         ([], electronCount)).

(** ** orbitalSampler.js: sampleMultipleOrbitals

    It takes the orbitals of a configuration; [pointsPerElectron] is a
    count. *)

(** The key [`${n},${l},${m}`] of the result [Map]: the three numbers. *)
Definition orbital_key : Type := (Z * Z * Z)%type.

Definition orbital_key_eqb (a b : orbital_key) : bool :=
  let '(n1, l1, m1) := a in
  let '(n2, l2, m2) := b in
  ((n1 =? n2)%Z && (l1 =? l2)%Z && (m1 =? m2)%Z)%bool.

(** [results.set(key, value)]: a key already present keeps its place and
    takes the new value, a new key goes last. *)
Fixpoint results_set (results : list (orbital_key * list R)) (k : orbital_key)
         (v : list R) : list (orbital_key * list R) :=
  match results with
  | [] => [(k, v)]
  | (k', v') :: t =>
      if orbital_key_eqb k' k then (k', v) :: t else (k', v') :: results_set t k v
  end.

(** [for (const x of xs)] with a body that has effects and may throw. *)
Fixpoint for_ofM {A St : Type} (xs : list A) (body : A -> St -> M (outcome St))
         (s : St) : M (outcome St) :=
  match xs with
  | [] => ret (Returned s)
  | x :: rest =>
      o <- body x s ;;
      match o with
      | Returned s' => for_ofM rest body s'
      | RangeError => ret RangeError
      end
  end.

Definition sampleMultipleOrbitals (orbitals : list Orbital.t) (pointsPerElectron : Z)
           (Zeff : R) : M (outcome (list (orbital_key * list R))) :=
  for_ofM orbitals
    (fun orbital results =>
       let n := Orbital.n orbital in
       let l := Orbital.l orbital in
       let m := Orbital.m orbital in
       let electrons := Orbital.electrons orbital in
       let key := (n, l, m) in
       let numPoints := (pointsPerElectron * electrons)%Z in
       o <- sampleOrbital n l m numPoints Zeff ;;
       match o with
       | Returned pts => ret (Returned (results_set results key pts))
       | RangeError => ret RangeError
       end)
    [].

(** * Vocabulary of the statements *)

(** The wave-function layer consumes no random draw and leaves the cache
    alone: a call returns a value that does not depend on the world
    ([radial_value], [angular_value], [density_value]) and appends its
    warnings to the console ([logged]); the sampling layer also consumes
    draws ([advanced]). *)
Definition logged (w : world) (msgs : list warning) : world :=
  mkWorld (draws w) (drawn w) (console w ++ msgs) (maxProbabilityCache w).

Definition advanced (w : world) (k : nat) (msgs : list warning) : world :=
  mkWorld (draws w) (k + drawn w) (console w ++ msgs) (maxProbabilityCache w).

Definition radial_invalid (n l : Z) : bool :=
  ((n <? 1)%Z || (l <? 0)%Z || (l >=? n)%Z)%bool.

Definition angular_invalid (l m : Z) : bool :=
  ((l <? 0)%Z || (Z.abs m >? l)%Z)%bool.

Definition radial_value (n l : Z) (r Zeff : R) : R :=
  fst (radialWaveFunction n l r Zeff (mkWorld (fun _ => 0) 0 [] [])).

Definition angular_value (l m : Z) (theta phi : R) : R :=
  fst (sphericalHarmonic l m theta phi (mkWorld (fun _ => 0) 0 [] [])).

Definition density_value (n l m : Z) (r theta phi Zeff : R) : R :=
  radial_value n l r Zeff * radial_value n l r Zeff
  * angular_value l m theta phi * angular_value l m theta phi.

Definition density_warnings (n l m : Z) : list warning :=
  (if radial_invalid n l then [InvalidRadial n l] else [])
  ++ (if angular_invalid l m then [InvalidAngular l m] else []).

(** A factorial table: not empty, and entry [i] is [i!]. *)
Definition table_ok (table : list R) : Prop :=
  (1 <= length table)%nat /\
  forall i, (i < length table)%nat -> nth i table 0 = INR (fact i).

(** The candidate of a pass that starts in world [w], read off the four
    draws the pass consumes. *)
Definition candidate_r (maxR : R) (w : world) : R :=
  maxR * Math_pow (draws w (drawn w)) (1 / 3).

Definition candidate_theta (w : world) : R :=
  acos (2 * draws w (S (drawn w)) - 1).

Definition candidate_phi (w : world) : R :=
  draws w (S (S (drawn w))) * 2 * PI.

Definition acceptance_draw (w : world) : R :=
  draws w (S (S (S (drawn w)))).

(** [P(r, theta, phi) * r^2 * sin(theta)] at the candidate. *)
Definition candidate_weight (n l m : Z) (Zeff maxR : R) (w : world) : R :=
  let r := candidate_r maxR w in
  let theta := candidate_theta w in
  density_value n l m r theta (candidate_phi w) Zeff * (r * r * sin theta).

(** The rejection test of the pass. *)
Definition candidate_accepted (n l m : Z) (Zeff maxR : R) (s : sampler_state) (w : world) : bool :=
  Rltb (acceptance_draw w * maxP s) (candidate_weight n l m Zeff maxR w).

(** The three stores of an accepted candidate. *)
Definition store_point (buffer : list R) (i : Z) (c : Cartesian.t) : list R :=
  typed_array_set
    (typed_array_set (typed_array_set buffer i (Cartesian.x c)) (i + 1)%Z (Cartesian.y c))
    (i + 2)%Z (Cartesian.z c).

(** The test that doubles [maxP], on the counters as they are after the
    rejection test. *)
Definition rejecting_too_much (pointIndex attempts : Z) : bool :=
  ((attempts >? 1000)%Z && Rltb (IZR pointIndex) (IZR attempts * 0.01))%bool.

(** The weighted density of one pre-sample that starts in world [w]. *)
Definition presample_r (n l : Z) (Zeff maxR : R) (w : world) : R :=
  let rPeak := mostProbableRadius n l Zeff in
  let u := draws w (S (drawn w)) in
  Rmax 0.01
    (Rmin (if Rltb (draws w (drawn w)) 0.7 then rPeak * (0.3 + u * 1.4) else maxR * u) maxR).

Definition presample_weight (n l m : Z) (Zeff maxR : R) (w : world) : R :=
  let r := presample_r n l Zeff maxR w in
  let theta := acos (2 * draws w (S (S (drawn w))) - 1) in
  let phi := draws w (S (S (S (drawn w)))) * 2 * PI in
  density_value n l m r theta phi Zeff * (r * r * sin theta).

(** The body of the loop of [estimateMaxProbability]. *)
Definition presample (n l m : Z) (Zeff maxR : R) (maxP : R) : M R :=
  let rPeak := mostProbableRadius n l Zeff in
  b <- Math_random ;;
  r <- (if Rltb b 0.7
        then u <- Math_random ;; ret (rPeak * (0.3 + u * 1.4))
        else u <- Math_random ;; ret (maxR * u)) ;;
  let r := Rmax 0.01 (Rmin r maxR) in
  v <- Math_random ;;
  let theta := acos (2 * v - 1) in
  p <- Math_random ;;
  let phi := p * 2 * PI in
  P <- probabilityDensity n l m r theta phi Zeff ;;
  let volumeWeight := r * r * sin theta in
  let weightedP := P * volumeWeight in
  ret (if Rgtb weightedP maxP then weightedP else maxP).

(** The warnings of [k] density evaluations in a row. *)
Fixpoint repeated_warnings (k : nat) (msgs : list warning) : list warning :=
  match k with
  | O => []
  | S j => msgs ++ repeated_warnings j msgs
  end.

(** The state and world after [k] passes through the body, whatever the
    loop condition says. *)
Fixpoint attempts_run (n l m : Z) (Zeff maxR : R) (k : nat)
         (s : sampler_state) (w : world) : sampler_state * world :=
  match k with
  | O => (s, w)
  | S j =>
      attempts_run n l m Zeff maxR j
        (fst (attempt n l m Zeff maxR s w)) (snd (attempt n l m Zeff maxR s w))
  end.

(** What the loop keeps true of its variables. *)
Definition buffer_ok (numPoints : Z) (s : sampler_state) : Prop :=
  (0 <= pointIndex s <= numPoints * 3)%Z
  /\ (pointIndex s mod 3 = 0)%Z
  /\ length (points s) = Z.to_nat (numPoints * 3)
  /\ (0 <= attempts s <= numPoints * 100)%Z
  /\ (pointIndex s <= 3 * attempts s)%Z.

(** The state the loop of [sampleOrbital] starts from, and the one it
    ends in. *)
Definition initial_state (numPoints : Z) (maxP0 : R) : sampler_state :=
  mkState (repeat 0 (Z.to_nat (numPoints * 3))) maxP0 0 0.

Definition final_state (n l m numPoints : Z) (Zeff : R) (w : world) : sampler_state :=
  let maxR := maxRadialExtent n l Zeff in
  let (maxP0, w1) := estimateMaxProbability n l m Zeff maxR w in
  fst (sampling_loop n l m Zeff maxR numPoints (initial_state numPoints maxP0) w1).

(** The draws of the ceiling estimate: four per pre-sample. *)
Definition presample_draws : nat := 4 * Z.to_nat 5000.

(** Draws: 1/2 throughout the ceiling estimate; then four candidates at
    (u, v) = (1/2, 1/2) tested against the draw 0; then 0 for ever. *)
Definition early_acceptances : list R :=
  [1/2; 1/2; 1/2; 0;  1/2; 1/2; 1/2; 0;  1/2; 1/2; 1/2; 0;  1/2; 1/2; 1/2; 0].

Definition low_acceptance_draws (i : nat) : R :=
  if (i <? presample_draws)%nat then 1 / 2
  else nth (i - presample_draws) early_acceptances 0.

Definition low_acceptance_world : world := mkWorld low_acceptance_draws 0 [] [].

(** Draws: 0 throughout the ceiling estimate, which puts every pre-sample
    on the axis theta = PI where the weighted density is 0; then 1/2. *)
Definition low_ceiling_draws (i : nat) : R :=
  if (i <? presample_draws)%nat then 0 else 1 / 2.

Definition low_ceiling_world : world := mkWorld low_ceiling_draws 0 [] [].

(** The calls a client can make that reach the module of the cache, and
    [sampleOrbital], which does not. *)
Inductive call : Type :=
| CallGetMaxProbability (n l m : Z) (Zeff : R)
| CallSampleOrbital (n l m numPoints : Z) (Zeff : R)
| CallClearProbabilityCache.

Definition run_call (c : call) (w : world) : world :=
  match c with
  | CallGetMaxProbability n l m Zeff => snd (getMaxProbability n l m Zeff w)
  | CallSampleOrbital n l m numPoints Zeff => snd (sampleOrbital n l m numPoints Zeff w)
  | CallClearProbabilityCache => snd (clearProbabilityCache w)
  end.

Definition run_calls (cs : list call) (w : world) : world :=
  fold_left (fun w c => run_call c w) cs w.

Definition is_clear (c : call) : bool :=
  match c with CallClearProbabilityCache => true | _ => false end.

(** The body of the loop of [findMaxProbability]. *)
Definition density_sample (n l m : Z) (Zeff maxR : R) (maxP : R) : M R :=
  u <- Math_random ;;
  let r := u * maxR in
  v <- Math_random ;;
  let theta := acos (2 * v - 1) in
  p <- Math_random ;;
  let phi := p * 2 * PI in
  P <- probabilityDensity n l m r theta phi Zeff ;;
  ret (if Rgtb P maxP then P else maxP).

(** Electron totals of a configuration, overall and per subshell. *)
Definition orbital_electrons (config : list Orbital.t) : Z :=
  fold_right (fun o acc => (Orbital.electrons o + acc)%Z) 0%Z config.

Definition subshell_electrons (config : list Subshell.t) : Z :=
  fold_right (fun s acc => (Subshell.electrons s + acc)%Z) 0%Z config.

Definition orbitals_of (n l : Z) (config : list Orbital.t) : list Orbital.t :=
  filter (fun o => ((Orbital.n o =? n)%Z && (Orbital.l o =? l)%Z)%bool) config.

Definition subshells_of (n l : Z) (config : list Subshell.t) : list Subshell.t :=
  filter (fun s => ((Subshell.n s =? n)%Z && (Subshell.l s =? l)%Z)%bool) config.

(** The electrons a list of subshells can hold. *)
Definition capacity (order : list (Z * Z)) : Z :=
  fold_right (fun '(n, l) acc => (2 * (2 * l + 1) + acc)%Z) 0%Z order.

(** Quantum numbers the wave functions accept. *)
Definition valid_orbital (o : Orbital.t) : Prop :=
  (1 <= Orbital.n o /\ 0 <= Orbital.l o < Orbital.n o
   /\ - Orbital.l o <= Orbital.m o <= Orbital.l o)%Z.

(** The electrons the filling order gives subshell [(n, l)] out of
    [remaining]: each subshell in turn takes what it can hold. *)
Fixpoint allotted (order : list (Z * Z)) (remaining : Z) (n l : Z) : Z :=
  match order with
  | [] => 0%Z
  | (n0, l0) :: rest =>
      let e := Z.min (Z.max remaining 0) (2 * (2 * l0 + 1)) in
      ((if ((n0 =? n)%Z && (l0 =? l)%Z)%bool then e else 0)
       + allotted rest (remaining - e) n l)%Z
  end.

(** The seed [Pmm] of [legendrePolynomial]:
    (-1)^|m| (2|m| - 1)!! (1 - x^2)^(|m|/2). *)
Definition legendre_seed (m : Z) (x : R) : R :=
  let absM := Z.abs m in
  if (absM >? 0)%Z then
    let sqrtTerm := sqrt (1 - x * x) in
    let doubleFactorial :=
      for_upto 1 absM (fun i df => df * (2 * IZR i - 1)) 1 in
    Math_pow_int (-1) absM * doubleFactorial * Math_pow_int sqrtTerm absM
  else 1.

(** The density at the sample of [findMaxProbability] that starts in
    world [w]. *)
Definition density_sample_value (n l m : Z) (Zeff maxR : R) (w : world) : R :=
  density_value n l m (draws w (drawn w) * maxR)
    (acos (2 * draws w (S (drawn w)) - 1))
    (draws w (S (S (drawn w))) * 2 * PI) Zeff.

(** The coordinates the first [k] passes from [(s, w)] append, pass by
    pass. *)
Fixpoint accepted_coordinates (n l m : Z) (Zeff maxR : R) (k : nat)
         (s : sampler_state) (w : world) : list R :=
  match k with
  | O => []
  | S j =>
      (if candidate_accepted n l m Zeff maxR s w
       then
         let c := sphericalToCartesian (candidate_r maxR w) (candidate_theta w)
                    (candidate_phi w) in
         [Cartesian.x c; Cartesian.y c; Cartesian.z c]
       else [])
      ++ accepted_coordinates n l m Zeff maxR j
           (fst (attempt n l m Zeff maxR s w)) (snd (attempt n l m Zeff maxR s w))
  end.

(** A flat buffer of points, all within [radius] of the nucleus. *)
Fixpoint points_within (radius : R) (buffer : list R) : Prop :=
  match buffer with
  | [] => True
  | x :: y :: z :: rest =>
      x * x + y * y + z * z <= radius * radius /\ points_within radius rest
  | _ => False
  end.

(** The key [sampleMultipleOrbitals] files an orbital under. *)
Definition key_of (o : Orbital.t) : orbital_key :=
  (Orbital.n o, Orbital.l o, Orbital.m o).

(** A buffer of whole points, at most [count] of them. *)
Definition holds_points (count : Z) (buffer : list R) : Prop :=
  exists a : Z, (0 <= a <= count)%Z /\ Z.of_nat (length buffer) = (3 * a)%Z.

(** * Theorems *)

(** ** Running the effectful functions *)

Lemma logged_nil (w : world) : logged w [] = w.
Proof. destruct w; unfold logged; cbn. now rewrite app_nil_r. Qed.

Lemma logged_logged (w : world) (a b : list warning) :
  logged (logged w a) b = logged w (a ++ b).
Proof. unfold logged; cbn. now rewrite app_assoc. Qed.

Lemma radialWaveFunction_run (n l : Z) (r Zeff : R) (w : world) :
  radialWaveFunction n l r Zeff w
  = (radial_value n l r Zeff,
     logged w (if radial_invalid n l then [InvalidRadial n l] else [])).
Proof.
  unfold radial_value, radialWaveFunction, radial_invalid.
  destruct ((n <? 1)%Z || (l <? 0)%Z || (l >=? n)%Z)%bool; cbn.
  - reflexivity.
  - unfold ret. now rewrite logged_nil.
Qed.

Lemma sphericalHarmonic_run (l m : Z) (theta phi : R) (w : world) :
  sphericalHarmonic l m theta phi w
  = (angular_value l m theta phi,
     logged w (if angular_invalid l m then [InvalidAngular l m] else [])).
Proof.
  unfold angular_value, sphericalHarmonic, angular_invalid.
  destruct ((l <? 0)%Z || (Z.abs m >? l)%Z)%bool; cbn.
  - reflexivity.
  - rewrite logged_nil.
    destruct (m >? 0)%Z; [reflexivity|]. destruct (m <? 0)%Z; reflexivity.
Qed.

Lemma probabilityDensity_run (n l m : Z) (r theta phi Zeff : R) (w : world) :
  probabilityDensity n l m r theta phi Zeff w
  = (density_value n l m r theta phi Zeff, logged w (density_warnings n l m)).
Proof.
  unfold probabilityDensity, bind.
  rewrite radialWaveFunction_run, sphericalHarmonic_run.
  unfold ret, density_value, density_warnings. now rewrite logged_logged.
Qed.

Lemma density_value_nonneg (n l m : Z) (r theta phi Zeff : R) :
  0 <= density_value n l m r theta phi Zeff.
Proof.
  unfold density_value.
  replace (radial_value n l r Zeff * radial_value n l r Zeff
           * angular_value l m theta phi * angular_value l m theta phi)
    with (Rsqr (radial_value n l r Zeff * angular_value l m theta phi))
    by (unfold Rsqr; ring).
  apply Rle_0_sqr.
Qed.

(** ** The factorial table *)

Lemma table_ok_initial : table_ok factorialCache_initial.
Proof.
  split; [cbn; lia|].
  intros [|[|i]] H; cbn in *; try lra; lia.
Qed.

Lemma table_ok_extend (table : list R) :
  table_ok table ->
  table_ok (array_set table (length table) (INR (fact (length table)))).
Proof.
  intros [Hlen Hnth]. unfold array_set.
  rewrite Nat.ltb_irrefl, Nat.sub_diag. cbn [repeat app].
  split.
  - rewrite length_app. cbn. lia.
  - intros i Hi. rewrite length_app in Hi. cbn in Hi.
    destruct (Nat.eq_dec i (length table)) as [->|Hne].
    + now rewrite nth_middle.
    + rewrite app_nth1 by lia. apply Hnth. lia.
Qed.

Lemma factorial_loop (count : nat) : forall (table : list R),
  table_ok table ->
  let out :=
    for_range (Z.of_nat (length table)) count
      (fun i '(result, tbl) =>
         let result := result * IZR i in
         (result, array_set tbl (Z.to_nat i) result))
      (INR (fact (length table - 1)), table) in
  fst out = INR (fact (length table + count - 1)) /\ table_ok (snd out).
Proof.
  induction count as [|c IH]; intros table Hok; cbn zeta.
  - cbn. rewrite Nat.add_0_r. now split.
  - cbn [for_range]. rewrite Nat2Z.id.
    assert (Hlen : (1 <= length table)%nat) by apply Hok.
    assert (Hstep : INR (fact (length table - 1)) * IZR (Z.of_nat (length table))
                    = INR (fact (length table))).
    { rewrite <- INR_IZR_INZ, <- mult_INR. f_equal.
      destruct (length table) as [|k]; [lia|].
      cbn [Nat.sub]. rewrite Nat.sub_0_r. cbn [fact]. lia. }
    rewrite Hstep.
    pose proof (table_ok_extend table Hok) as Hok'.
    set (table' := array_set table (length table) (INR (fact (length table)))) in *.
    assert (Hlen' : length table' = S (length table)).
    { unfold table', array_set. rewrite Nat.ltb_irrefl, Nat.sub_diag.
      cbn [repeat app]. rewrite length_app. cbn. lia. }
    specialize (IH table' Hok'). cbn zeta in IH.
    rewrite Hlen' in IH.
    replace (Z.of_nat (length table) + 1)%Z with (Z.of_nat (S (length table))) by lia.
    replace (S (length table) - 1)%nat with (length table) in IH by lia.
    replace (length table + S c - 1)%nat with (S (length table) + c - 1)%nat by lia.
    exact IH.
Qed.

(** From a table that holds factorials, the memoised [factorial] returns
    [factorial n] and leaves a table that holds factorials. *)
Lemma factorial_memo_value (n : Z) (table : list R) :
  table_ok table ->
  fst (factorial_memo n table) = factorial n /\ table_ok (snd (factorial_memo n table)).
Proof.
  intros Hok. unfold factorial_memo, factorial.
  destruct (n <? 0)%Z eqn:Hneg; [now split|].
  apply Z.ltb_ge in Hneg.
  destruct (n <? Z.of_nat (length table))%Z eqn:Hin.
  - apply Z.ltb_lt in Hin. cbn. split; [|exact Hok].
    apply Hok. lia.
  - apply Z.ltb_ge in Hin. unfold for_upto.
    destruct Hok as [Hlen Hnth].
    rewrite (Hnth (length table - 1)%nat) by lia.
    pose proof (factorial_loop (Z.to_nat (n - Z.of_nat (length table) + 1)) table
                  (conj Hlen Hnth)) as [Hv Ht].
    split; [|exact Ht].
    etransitivity; [exact Hv|]. do 2 f_equal. lia.
Qed.

(** ** The wave functions *)

(** C10. [legendrePolynomial] reads [m] only through [Math.abs(m)]: its
    value at [m] and at [-m] is the same, and the call
    [legendrePolynomial(l, Math.abs(m), x)] that [sphericalHarmonic] makes
    gives that same value for [m] and for [-m]. *)
Theorem legendrePolynomial_sign_of_m (l m : Z) (x : R) :
  legendrePolynomial l m x = legendrePolynomial l (- m) x
  /\ legendrePolynomial l (Z.abs m) x = legendrePolynomial l m x
  /\ legendrePolynomial l (Z.abs (- m)) x = legendrePolynomial l m x.
Proof.
  unfold legendrePolynomial.
  rewrite Z.abs_opp, (Z.abs_eq (Z.abs m)) by apply Z.abs_nonneg.
  split; [|split]; reflexivity.
Qed.

(** C5. With invalid quantum numbers [radialWaveFunction] (n < 1, l < 0 or
    l >= n) and [sphericalHarmonic] (l < 0 or |m| > l) return 0; all they
    do besides is one [console.warn] naming the numbers. *)
Theorem invalid_quantum_numbers_return_zero :
  (forall (n l : Z) (r Zeff : R) (w : world),
      (n < 1 \/ l < 0 \/ l >= n)%Z ->
      radialWaveFunction n l r Zeff w = (0, logged w [InvalidRadial n l]))
  /\
  (forall (l m : Z) (theta phi : R) (w : world),
      (l < 0 \/ Z.abs m > l)%Z ->
      sphericalHarmonic l m theta phi w = (0, logged w [InvalidAngular l m])).
Proof.
  split.
  - intros n l r Zeff w H. unfold radialWaveFunction.
    assert (E : ((n <? 1)%Z || (l <? 0)%Z || (l >=? n)%Z)%bool = true).
    { destruct H as [H|[H|H]].
      - apply Z.ltb_lt in H. now rewrite H.
      - apply Z.ltb_lt in H. rewrite H. now rewrite orb_true_r.
      - apply Z.geb_ge in H. rewrite H. now rewrite !orb_true_r. }
    rewrite E. reflexivity.
  - intros l m theta phi w H. unfold sphericalHarmonic.
    assert (E : ((l <? 0)%Z || (Z.abs m >? l)%Z)%bool = true).
    { destruct H as [H|H].
      - apply Z.ltb_lt in H. now rewrite H.
      - apply Z.gtb_gt in H. rewrite H. now rewrite orb_true_r. }
    rewrite E. reflexivity.
Qed.

Lemma invalid_quantum_numbers_return_zero_witness :
  let w := mkWorld (fun _ => 0) 0 [] [] in
  radialWaveFunction 0 0 1 1 w = (0, logged w [InvalidRadial 0 0])
  /\ radialWaveFunction 1 1 1 1 w = (0, logged w [InvalidRadial 1 1])
  /\ radialWaveFunction 2 (-1) 1 1 w = (0, logged w [InvalidRadial 2 (-1)])
  /\ sphericalHarmonic 1 (-2) 0 0 w = (0, logged w [InvalidAngular 1 (-2)]).
Proof.
  intro w.
  destruct invalid_quantum_numbers_return_zero as [HR HY].
  split; [|split; [|split]].
  - apply HR. lia.
  - apply HR. lia.
  - apply HR. lia.
  - apply HY. lia.
Defined.

Lemma factorial_0 : factorial 0 = 1.
Proof. reflexivity. Qed.

Lemma factorial_1 : factorial 1 = 1.
Proof. reflexivity. Qed.

Lemma factorial_2 : factorial 2 = 2.
Proof.
  unfold factorial. cbn [Z.ltb Z.compare].
  change (fact (Z.to_nat 2)) with 2%nat. simpl. lra.
Qed.

Lemma factorial_3 : factorial 3 = 6.
Proof.
  unfold factorial. cbn [Z.ltb Z.compare].
  change (fact (Z.to_nat 3)) with 6%nat. simpl. lra.
Qed.

(** The 1s normalisation constant is 2. *)
Lemma radialNormalization_1s : radialNormalization 1 0 1 = 2.
Proof.
  unfold radialNormalization, Math_pow_int, BOHR_RADIUS.
  replace (1 - 0 - 1)%Z with 0%Z by lia. replace (1 + 0)%Z with 1%Z by lia.
  rewrite factorial_0, factorial_1. unfold powerRZ.
  change (Pos.to_nat 3) with 3%nat. cbn [pow].
  match goal with |- sqrt ?a = _ => replace a with (2 * 2) by field end.
  apply sqrt_square. lra.
Qed.

(** The 1s radial wave function is 2 e^{-r}. *)
Lemma radialWaveFunction_1s (r : R) (w : world) :
  radialWaveFunction 1 0 r 1 w = (2 * exp (- r), w).
Proof.
  unfold radialWaveFunction.
  change ((1 <? 1)%Z || (0 <? 0)%Z || (0 >=? 1)%Z)%bool with false.
  cbv iota zeta. unfold ret. f_equal.
  rewrite radialNormalization_1s.
  unfold Math_pow_int, laguerrePolynomial, BOHR_RADIUS.
  change (1 - 0 - 1 =? 0)%Z with true. cbv iota. cbn [powerRZ].
  replace (- (2 * 1 * r / (1 * 1)) / 2) with (- r) by field.
  ring.
Qed.

(** C7 (the values of the n = 2 constants).  [radialNormalization(2,0,1)]
    is 1/(4 sqrt 2), more than 1/2 below 1/sqrt 2, and
    [radialNormalization(2,1,1)] is 1/(12 sqrt 6), more than 1/10 below
    1/(2 sqrt 6): the cube on [(n+l)!] weighs in as soon as [(n+l)!] is
    not 1. *)
Theorem radialNormalization_n2_values :
  radialNormalization 2 0 1 = 1 / (4 * sqrt 2)
  /\ radialNormalization 2 0 1 <> 1 / sqrt 2
  /\ 1 / 2 < 1 / sqrt 2 - radialNormalization 2 0 1
  /\ radialNormalization 2 1 1 = 1 / (12 * sqrt 6)
  /\ radialNormalization 2 1 1 <> 1 / (2 * sqrt 6)
  /\ 1 / 10 < 1 / (2 * sqrt 6) - radialNormalization 2 1 1.
Proof.
  assert (H2 : 0 < sqrt 2) by (apply sqrt_lt_R0; lra).
  assert (H6 : 0 < sqrt 6) by (apply sqrt_lt_R0; lra).
  assert (S2 : sqrt 2 * sqrt 2 = 2) by (apply sqrt_sqrt; lra).
  assert (S6 : sqrt 6 * sqrt 6 = 6) by (apply sqrt_sqrt; lra).
  assert (E20 : radialNormalization 2 0 1 = 1 / (4 * sqrt 2)).
  { unfold radialNormalization, Math_pow_int, BOHR_RADIUS.
    replace (2 - 0 - 1)%Z with 1%Z by lia. replace (2 + 0)%Z with 2%Z by lia.
    rewrite factorial_1, factorial_2. unfold powerRZ.
    change (Pos.to_nat 3) with 3%nat. cbn [pow].
    match goal with
    | |- sqrt ?a = _ => replace a with ((1 / (4 * sqrt 2)) * (1 / (4 * sqrt 2)))
    end.
    - apply sqrt_square. apply Rlt_le, Rdiv_lt_0_compat; lra.
    - transitivity (1 / (16 * (sqrt 2 * sqrt 2))); [field; lra|].
      rewrite S2. field. }
  assert (E21 : radialNormalization 2 1 1 = 1 / (12 * sqrt 6)).
  { unfold radialNormalization, Math_pow_int, BOHR_RADIUS.
    replace (2 - 1 - 1)%Z with 0%Z by lia. replace (2 + 1)%Z with 3%Z by lia.
    rewrite factorial_0, factorial_3. unfold powerRZ.
    change (Pos.to_nat 3) with 3%nat. cbn [pow].
    match goal with
    | |- sqrt ?a = _ => replace a with ((1 / (12 * sqrt 6)) * (1 / (12 * sqrt 6)))
    end.
    - apply sqrt_square. apply Rlt_le, Rdiv_lt_0_compat; lra.
    - transitivity (1 / (144 * (sqrt 6 * sqrt 6))); [field; lra|].
      rewrite S6. field. }
  assert (G20 : 1 / 2 < 1 / sqrt 2 - 1 / (4 * sqrt 2)).
  { replace (1 / sqrt 2 - 1 / (4 * sqrt 2)) with (3 / 4 * / sqrt 2) by (field; lra).
    assert (Ht : / sqrt 2 * sqrt 2 = 1) by (field; lra).
    assert (Hp : 0 < / sqrt 2) by (apply Rinv_0_lt_compat; lra).
    nra. }
  assert (G21 : 1 / 10 < 1 / (2 * sqrt 6) - 1 / (12 * sqrt 6)).
  { replace (1 / (2 * sqrt 6) - 1 / (12 * sqrt 6)) with (5 / 12 * / sqrt 6) by (field; lra).
    assert (Ht : / sqrt 6 * sqrt 6 = 1) by (field; lra).
    assert (Hp : 0 < / sqrt 6) by (apply Rinv_0_lt_compat; lra).
    nra. }
  rewrite E20, E21.
  split; [reflexivity|]. split; [lra|]. split; [exact G20|].
  split; [reflexivity|]. split; [lra | exact G21].
Qed.

(** ** One pass of the sampling loop *)

Lemma attempt_run (n l m : Z) (Zeff maxR : R) (s : sampler_state) (w : world) :
  attempt n l m Zeff maxR s w =
  (let accepted := candidate_accepted n l m Zeff maxR s w in
   let pointIndex' := if accepted then (pointIndex s + 3)%Z else pointIndex s in
   mkState
     (if accepted
      then store_point (points s) (pointIndex s)
             (sphericalToCartesian (candidate_r maxR w) (candidate_theta w) (candidate_phi w))
      else points s)
     (if rejecting_too_much pointIndex' (attempts s + 1) then maxP s * 2 else maxP s)
     pointIndex'
     (attempts s + 1)%Z,
   advanced w 4 (density_warnings n l m)).
Proof.
  unfold attempt, bind, Math_random. cbn [draws drawn console maxProbabilityCache].
  rewrite probabilityDensity_run. cbn [logged draws drawn console maxProbabilityCache].
  unfold candidate_accepted, candidate_weight, acceptance_draw, candidate_r,
    candidate_theta, candidate_phi, rejecting_too_much, store_point, ret, advanced.
  cbn [Nat.add].
  destruct (Rltb _ _); reflexivity.
Qed.

(** ** The ceiling estimate *)

Lemma estimateMaxProbability_unfold (n l m : Z) (Zeff maxR : R) :
  estimateMaxProbability n l m Zeff maxR =
  (maxP <- repeatM (Z.to_nat 5000) (presample n l m Zeff maxR) 0 ;; ret (maxP * 1.5)).
Proof. reflexivity. Qed.

Lemma presample_run (n l m : Z) (Zeff maxR acc : R) (w : world) :
  presample n l m Zeff maxR acc w =
  (let wP := presample_weight n l m Zeff maxR w in
   if Rgtb wP acc then wP else acc,
   advanced w 4 (density_warnings n l m)).
Proof.
  unfold presample, bind, Math_random. cbn [draws drawn console maxProbabilityCache].
  unfold presample_weight, presample_r.
  destruct (Rltb (draws w (drawn w)) 0.7);
    cbn [draws drawn console maxProbabilityCache ret];
    rewrite probabilityDensity_run; reflexivity.
Qed.

Lemma advanced_advanced (w : world) (a b : nat) (x y : list warning) :
  advanced (advanced w a x) b y = advanced w (a + b) (x ++ y).
Proof.
  unfold advanced; cbn. f_equal; [lia | now rewrite app_assoc].
Qed.

Lemma advanced_0 (w : world) : advanced w 0 [] = w.
Proof. destruct w; unfold advanced; cbn. now rewrite app_nil_r. Qed.

Lemma presamples_world (n l m : Z) (Zeff maxR : R) (k : nat) :
  forall (acc : R) (w : world),
    snd (repeatM k (presample n l m Zeff maxR) acc w)
    = advanced w (4 * k) (repeated_warnings k (density_warnings n l m)).
Proof.
  induction k as [|k IH]; intros acc w.
  - cbn. now rewrite advanced_0.
  - cbn [repeatM]. unfold bind. rewrite presample_run. cbv zeta.
    rewrite IH, advanced_advanced. cbn [repeated_warnings].
    f_equal. lia.
Qed.

Lemma presamples_nonneg (n l m : Z) (Zeff maxR : R) (k : nat) :
  forall (acc : R) (w : world),
    acc <= fst (repeatM k (presample n l m Zeff maxR) acc w).
Proof.
  induction k as [|k IH]; intros acc w.
  - cbn. lra.
  - cbn [repeatM]. unfold bind. rewrite presample_run. cbv zeta.
    eapply Rle_trans; [|apply IH].
    unfold Rgtb, Rltb. destruct (Rlt_dec _ _); lra.
Qed.

Lemma estimateMaxProbability_world (n l m : Z) (Zeff maxR : R) (w : world) :
  snd (estimateMaxProbability n l m Zeff maxR w)
  = advanced w (4 * Z.to_nat 5000)
      (repeated_warnings (Z.to_nat 5000) (density_warnings n l m)).
Proof.
  rewrite estimateMaxProbability_unfold. unfold bind.
  pose proof (presamples_world n l m Zeff maxR (Z.to_nat 5000) 0 w) as H.
  destruct (repeatM _ _ _ _) as [v w']. cbn in *. exact H.
Qed.

Lemma estimateMaxProbability_nonneg (n l m : Z) (Zeff maxR : R) (w : world) :
  0 <= fst (estimateMaxProbability n l m Zeff maxR w).
Proof.
  rewrite estimateMaxProbability_unfold. unfold bind.
  pose proof (presamples_nonneg n l m Zeff maxR (Z.to_nat 5000) 0 w) as H.
  destruct (repeatM _ _ _ _) as [v w']. cbn in *. lra.
Qed.

(** ** The sampling loop *)

Lemma sampling_loop_step (n l m : Z) (Zeff maxR : R) (numPoints : Z)
      (s : sampler_state) (w : world) :
  sampling_loop n l m Zeff maxR numPoints s w =
  if sampling_continues numPoints s
  then sampling_loop n l m Zeff maxR numPoints
         (fst (attempt n l m Zeff maxR s w)) (snd (attempt n l m Zeff maxR s w))
  else (s, w).
Proof.
  apply (sampling_loop_elim
           (fun n l m Zeff maxR numPoints s w res =>
              res = if sampling_continues numPoints s
                    then sampling_loop n l m Zeff maxR numPoints
                           (fst (attempt n l m Zeff maxR s w))
                           (snd (attempt n l m Zeff maxR s w))
                    else (s, w))).
  - intros ? ? ? ? ? ? ? more ? _ _. now rewrite more.
  - intros ? ? ? ? ? ? ? e ? _. now rewrite e.
Qed.

(** The loop is some number of passes, each made with the condition true,
    and stops at the first state where the condition is false. *)
Lemma sampling_loop_trace (n l m : Z) (Zeff maxR : R) (numPoints : Z)
      (s : sampler_state) (w : world) :
  exists k : nat,
    sampling_loop n l m Zeff maxR numPoints s w = attempts_run n l m Zeff maxR k s w
    /\ (forall j, (j < k)%nat ->
          sampling_continues numPoints (fst (attempts_run n l m Zeff maxR j s w)) = true)
    /\ sampling_continues numPoints (fst (attempts_run n l m Zeff maxR k s w)) = false.
Proof.
  apply (sampling_loop_elim
           (fun n l m Zeff maxR numPoints s w res =>
              exists k : nat,
                res = attempts_run n l m Zeff maxR k s w
                /\ (forall j, (j < k)%nat ->
                      sampling_continues numPoints
                        (fst (attempts_run n l m Zeff maxR j s w)) = true)
                /\ sampling_continues numPoints
                     (fst (attempts_run n l m Zeff maxR k s w)) = false)).
  - intros n0 l0 m0 Z0 R0 np s0 more w0 [k [E [Hlt Hk]]] _.
    exists (S k). cbn [attempts_run]. split; [exact E|]. split; [|exact Hk].
    intros [|j] Hj; cbn [attempts_run fst]; [exact more|].
    apply Hlt. lia.
  - intros n0 l0 m0 Z0 R0 np s0 e w0 _.
    exists O. cbn [attempts_run fst]. split; [reflexivity|]. split; [|exact e].
    intros j Hj. lia.
Qed.

Lemma attempts_run_snoc (n l m : Z) (Zeff maxR : R) (k : nat) :
  forall (s : sampler_state) (w : world),
    attempts_run n l m Zeff maxR (S k) s w =
    attempt n l m Zeff maxR (fst (attempts_run n l m Zeff maxR k s w))
      (snd (attempts_run n l m Zeff maxR k s w)).
Proof.
  induction k as [|k IH]; intros s w.
  - cbn [attempts_run fst snd]. now destruct (attempt n l m Zeff maxR s w).
  - change (attempts_run n l m Zeff maxR (S (S k)) s w)
      with (attempts_run n l m Zeff maxR (S k)
              (fst (attempt n l m Zeff maxR s w)) (snd (attempt n l m Zeff maxR s w))).
    rewrite IH. reflexivity.
Qed.

Lemma attempts_run_counts (n l m : Z) (Zeff maxR : R) (k : nat) :
  forall (s : sampler_state) (w : world),
    attempts (fst (attempts_run n l m Zeff maxR k s w)) = (attempts s + Z.of_nat k)%Z
    /\ snd (attempts_run n l m Zeff maxR k s w)
       = advanced w (4 * k) (repeated_warnings k (density_warnings n l m)).
Proof.
  induction k as [|k IH]; intros s w.
  - cbn. rewrite advanced_0. split; [lia | reflexivity].
  - cbn [attempts_run]. destruct (IH (fst (attempt n l m Zeff maxR s w))
                                    (snd (attempt n l m Zeff maxR s w))) as [Ha Hw].
    rewrite Ha, Hw, attempt_counts. split; [lia|].
    rewrite attempt_run. cbn [snd]. rewrite advanced_advanced.
    cbn [repeated_warnings]. f_equal. lia.
Qed.

Lemma replace_nth_length (a : list R) : forall (i : nat) (v : R),
  length (replace_nth a i v) = length a.
Proof.
  induction a as [|h t IH]; intros [|i] v; cbn; trivial. now rewrite IH.
Qed.

Lemma typed_array_set_length (a : list R) (i : Z) (v : R) :
  length (typed_array_set a i v) = length a.
Proof.
  unfold typed_array_set. destruct (_ && _)%bool; trivial. apply replace_nth_length.
Qed.

Lemma store_point_length (a : list R) (i : Z) (c : Cartesian.t) :
  length (store_point a i c) = length a.
Proof. unfold store_point. now rewrite !typed_array_set_length. Qed.

Lemma sampling_continues_true (numPoints : Z) (s : sampler_state) :
  sampling_continues numPoints s = true <->
  (pointIndex s < numPoints * 3 /\ attempts s < numPoints * 100)%Z.
Proof.
  unfold sampling_continues. rewrite andb_true_iff, !Z.ltb_lt. tauto.
Qed.

Lemma sampling_continues_false (numPoints : Z) (s : sampler_state) :
  sampling_continues numPoints s = false <->
  (numPoints * 3 <= pointIndex s \/ numPoints * 100 <= attempts s)%Z.
Proof.
  unfold sampling_continues. rewrite andb_false_iff, !Z.ltb_ge. tauto.
Qed.

Lemma attempt_buffer_ok (n l m : Z) (Zeff maxR : R) (numPoints : Z)
      (s : sampler_state) (w : world) :
  buffer_ok numPoints s ->
  sampling_continues numPoints s = true ->
  buffer_ok numPoints (fst (attempt n l m Zeff maxR s w)).
Proof.
  intros (Hi & Hmod & Hlen & Ha & Hia) Hc.
  apply sampling_continues_true in Hc as [Hc1 Hc2].
  rewrite attempt_run. cbv zeta. cbn [fst].
  unfold buffer_ok. cbn [pointIndex points attempts].
  destruct (candidate_accepted n l m Zeff maxR s w).
  - rewrite store_point_length.
    assert (Hq : (pointIndex s = 3 * (pointIndex s / 3))%Z).
    { rewrite (Z.div_mod (pointIndex s) 3) at 1 by lia. lia. }
    repeat split; try lia.
    rewrite <- Zplus_mod_idemp_l, Hmod. reflexivity.
  - repeat split; try lia.
Qed.

Lemma attempts_run_buffer_ok (n l m : Z) (Zeff maxR : R) (numPoints : Z) (k : nat) :
  forall (s : sampler_state) (w : world),
    buffer_ok numPoints s ->
    (forall j, (j < k)%nat ->
       sampling_continues numPoints (fst (attempts_run n l m Zeff maxR j s w)) = true) ->
    buffer_ok numPoints (fst (attempts_run n l m Zeff maxR k s w)).
Proof.
  induction k as [|k IH]; intros s w Hok Hlt.
  - exact Hok.
  - cbn [attempts_run]. apply IH.
    + apply attempt_buffer_ok; [exact Hok|]. apply (Hlt O). lia.
    + intros j Hj. apply (Hlt (S j)). lia.
Qed.

Lemma initial_state_ok (numPoints : Z) (maxP0 : R) :
  (0 <= numPoints)%Z -> buffer_ok numPoints (initial_state numPoints maxP0).
Proof.
  intros H. unfold buffer_ok, initial_state. cbn [pointIndex points attempts].
  rewrite repeat_length. repeat split; try lia.
Qed.

(** The final state of a call: reached in [attempts] passes, with the
    loop condition false, and the buffer intact. *)
Lemma final_state_spec (n l m numPoints : Z) (Zeff : R) (w : world) :
  (0 <= numPoints)%Z ->
  let s := final_state n l m numPoints Zeff w in
  buffer_ok numPoints s
  /\ sampling_continues numPoints s = false
  /\ exists w',
      sampleOrbital n l m numPoints Zeff w =
      (Returned (if (pointIndex s <? numPoints * 3)%Z
                 then firstn (Z.to_nat (pointIndex s)) (points s)
                 else points s), w')
      /\ draws w' = draws w
      /\ maxProbabilityCache w' = maxProbabilityCache w
      /\ drawn w' = (4 * Z.to_nat 5000 + 4 * Z.to_nat (attempts s) + drawn w)%nat
      /\ ((pointIndex s <? numPoints * 3)%Z = true ->
          exists log,
            console w' = console w ++ log
                         ++ [OnlyGenerated (IZR (pointIndex s) / 3) numPoints n l m]).
Proof.
  intros Hn. unfold final_state, sampleOrbital.
  assert (E : (numPoints * 3 <? 0)%Z = false) by (apply Z.ltb_ge; lia).
  rewrite E. unfold bind.
  pose proof (estimateMaxProbability_world n l m Zeff (maxRadialExtent n l Zeff) w) as Hw1.
  destruct (estimateMaxProbability n l m Zeff (maxRadialExtent n l Zeff) w) as [maxP0 w1].
  cbn [snd] in Hw1. fold (initial_state numPoints maxP0).
  destruct (sampling_loop_trace n l m Zeff (maxRadialExtent n l Zeff) numPoints
              (initial_state numPoints maxP0) w1) as [k [Ek [Hlt Hk]]].
  rewrite Ek.
  pose proof (attempts_run_buffer_ok n l m Zeff (maxRadialExtent n l Zeff) numPoints k
                (initial_state numPoints maxP0) w1 (initial_state_ok numPoints maxP0 Hn) Hlt)
    as Hok.
  destruct (attempts_run_counts n l m Zeff (maxRadialExtent n l Zeff) k
              (initial_state numPoints maxP0) w1) as [Hatt Hw2].
  destruct (attempts_run n l m Zeff (maxRadialExtent n l Zeff) k
              (initial_state numPoints maxP0) w1) as [s w2].
  cbn [fst snd] in *. cbv zeta.
  split; [exact Hok|]. split; [exact Hk|].
  assert (Hk' : Z.to_nat (attempts s) = k).
  { rewrite Hatt. unfold initial_state. cbn [attempts]. lia. }
  subst w2 w1. generalize dependent (Z.to_nat 5000). intros c _.
  destruct (pointIndex s <? numPoints * 3)%Z eqn:Hshort.
  - eexists. split; [reflexivity|].
    unfold console_warn, advanced. cbn [draws drawn console maxProbabilityCache snd].
    split; [reflexivity|]. split; [reflexivity|]. split; [lia|].
    intros _.
    exists (repeated_warnings c (density_warnings n l m)
            ++ repeated_warnings k (density_warnings n l m)).
    now rewrite !app_assoc.
  - eexists. split; [reflexivity|].
    unfold advanced, ret. cbn [draws drawn console maxProbabilityCache snd].
    split; [reflexivity|]. split; [reflexivity|]. split; [lia|].
    intros H; discriminate H.
Qed.

(** ** sampleOrbital *)

(** C1. For a point count [numPoints >= 0], [sampleOrbital] returns a
    buffer whose length is at most [numPoints * 3] and is a multiple
    of 3. *)
Theorem sampleOrbital_buffer_length (n l m numPoints : Z) (Zeff : R) (w : world) :
  (0 <= numPoints)%Z ->
  exists (buffer : list R) (w' : world),
    sampleOrbital n l m numPoints Zeff w = (Returned buffer, w')
    /\ (Z.of_nat (length buffer) <= numPoints * 3)%Z
    /\ (Z.of_nat (length buffer) mod 3 = 0)%Z.
Proof.
  intros Hn.
  destruct (final_state_spec n l m numPoints Zeff w Hn)
    as ((Hi & Hmod & Hlen & _) & _ & w' & Hrun & _).
  set (s := final_state n l m numPoints Zeff w) in *.
  eexists. exists w'. split; [exact Hrun|].
  destruct (pointIndex s <? numPoints * 3)%Z eqn:Hshort.
  - rewrite length_firstn, Hlen.
    rewrite Nat.min_l by lia. rewrite Z2Nat.id by lia. split; [lia | exact Hmod].
  - rewrite Hlen, Z2Nat.id by lia. split; [lia|].
    apply Z_mod_mult.
Qed.

Lemma sampleOrbital_buffer_length_witness :
  let w := mkWorld (fun _ => 0) 0 [] [] in
  exists (buffer : list R) (w' : world),
    sampleOrbital 1 0 0 10 1 w = (Returned buffer, w')
    /\ (Z.of_nat (length buffer) <= 10 * 3)%Z
    /\ (Z.of_nat (length buffer) mod 3 = 0)%Z.
Proof.
  intro w. apply (sampleOrbital_buffer_length 1 0 0 10 1 w). lia.
Defined.

(** A negative point count makes [new Float32Array] throw, before
    anything else happens. *)
Lemma sampleOrbital_negative (n l m numPoints : Z) (Zeff : R) (w : world) :
  (numPoints < 0)%Z -> sampleOrbital n l m numPoints Zeff w = (RangeError, w).
Proof.
  intros H. unfold sampleOrbital.
  assert (E : (numPoints * 3 <? 0)%Z = true) by (apply Z.ltb_lt; lia).
  now rewrite E.
Qed.

(** C2. For [numPoints >= 0] a call of [sampleOrbital] returns after
    [passes] candidate attempts, [passes <= numPoints * 100]: it consumes
    the [4 * 5000] draws of the ceiling estimate and four draws per
    attempt, and nothing more.  It returns the first [3 * accepted]
    entries of its buffer, where [accepted <= numPoints] candidates were
    accepted; when [accepted < numPoints] the budget is used up
    ([passes = numPoints * 100]), the shorter buffer is returned as it is
    and the last thing logged is the shortfall warning. *)
Theorem sampleOrbital_attempt_budget (n l m numPoints : Z) (Zeff : R) (w : world) :
  (0 <= numPoints)%Z ->
  let s := final_state n l m numPoints Zeff w in
  exists (passes accepted : Z) (buffer : list R) (w' : world),
    sampleOrbital n l m numPoints Zeff w = (Returned buffer, w')
    /\ passes = attempts s
    /\ pointIndex s = (3 * accepted)%Z
    /\ (0 <= passes <= numPoints * 100)%Z
    /\ drawn w' = (4 * Z.to_nat 5000 + 4 * Z.to_nat passes + drawn w)%nat
    /\ (0 <= accepted <= numPoints)%Z
    /\ (accepted <= passes)%Z
    /\ buffer = firstn (Z.to_nat (3 * accepted)) (points s)
    /\ Z.of_nat (length buffer) = (3 * accepted)%Z
    /\ ((accepted < numPoints)%Z ->
        passes = (numPoints * 100)%Z
        /\ exists log,
            console w' = console w ++ log
                         ++ [OnlyGenerated (IZR accepted) numPoints n l m]).
Proof.
  intros Hn s.
  destruct (final_state_spec n l m numPoints Zeff w Hn)
    as ((Hi & Hmod & Hlen & Ha & Hia) & Hstop & w' & Hrun & _ & _ & Hdrawn & Hlog).
  fold s in Hi, Hmod, Hlen, Ha, Hia, Hstop, Hrun, Hdrawn, Hlog.
  assert (Hq : (pointIndex s = 3 * (pointIndex s / 3))%Z).
  { rewrite (Z.div_mod (pointIndex s) 3) at 1 by lia. lia. }
  remember (pointIndex s / 3)%Z as a eqn:Ea. clear Ea.
  exists (attempts s), a.
  eexists. exists w'. split; [exact Hrun|].
  split; [reflexivity|]. split; [exact Hq|]. split; [exact Ha|].
  split; [exact Hdrawn|]. split; [lia|]. split; [lia|].
  apply sampling_continues_false in Hstop.
  rewrite <- Hq.
  destruct (pointIndex s <? numPoints * 3)%Z eqn:Hshort.
  - apply Z.ltb_lt in Hshort.
    split; [reflexivity|]. split.
    + rewrite length_firstn, Hlen, Nat.min_l by lia. lia.
    + intros _. split; [lia|].
      destruct (Hlog eq_refl) as [log Hc]. exists log. rewrite Hc.
      replace (IZR (pointIndex s) / 3) with (IZR a); [reflexivity|].
      rewrite Hq, mult_IZR. field.
  - apply Z.ltb_ge in Hshort.
    assert (E : pointIndex s = (numPoints * 3)%Z) by lia.
    split.
    + rewrite E, <- Hlen. symmetry. apply firstn_all.
    + split; [rewrite Hlen; lia|]. intros Hlt. lia.
Qed.

Lemma sampleOrbital_attempt_budget_witness :
  let w := mkWorld (fun _ => 0) 0 [] [] in
  let s := final_state 2 1 0 7 1 w in
  exists (passes accepted : Z) (buffer : list R) (w' : world),
    sampleOrbital 2 1 0 7 1 w = (Returned buffer, w')
    /\ passes = attempts s
    /\ pointIndex s = (3 * accepted)%Z
    /\ (0 <= passes <= 7 * 100)%Z
    /\ drawn w' = (4 * Z.to_nat 5000 + 4 * Z.to_nat passes + drawn w)%nat
    /\ (0 <= accepted <= 7)%Z
    /\ (accepted <= passes)%Z
    /\ buffer = firstn (Z.to_nat (3 * accepted)) (points s)
    /\ Z.of_nat (length buffer) = (3 * accepted)%Z
    /\ ((accepted < 7)%Z ->
        passes = (7 * 100)%Z
        /\ exists log,
            console w' = console w ++ log ++ [OnlyGenerated (IZR accepted) 7 2 1 0]).
Proof.
  intro w. apply (sampleOrbital_attempt_budget 2 1 0 7 1 w). lia.
Defined.

(** ** The 1s orbital at concrete draws *)

Lemma maxRadialExtent_1s : maxRadialExtent 1 0 1 = 4.
Proof. unfold maxRadialExtent, BOHR_RADIUS. field. Qed.

Lemma radial_value_1s (r : R) : radial_value 1 0 r 1 = 2 * exp (- r).
Proof. unfold radial_value. now rewrite radialWaveFunction_1s. Qed.

Lemma angular_value_s (theta phi : R) : angular_value 0 0 theta phi = sqrt (1 / (4 * PI)).
Proof.
  unfold angular_value, sphericalHarmonic.
  change ((0 <? 0)%Z || (Z.abs 0 >? 0)%Z)%bool with false.
  change (0 >? 0)%Z with false. change (0 <? 0)%Z with false.
  cbv iota zeta. cbn [fst ret].
  unfold sphericalHarmonicNormalization, legendrePolynomial.
  change (Z.abs (Z.abs 0)) with 0%Z. change (Z.abs 0) with 0%Z.
  change (0 >? 0)%Z with false. change (0 =? 0)%Z with true. cbv iota.
  change (0 - 0)%Z with 0%Z. change (0 + 0)%Z with 0%Z.
  rewrite factorial_0, Rmult_1_r. f_equal. field. apply PI_neq0.
Qed.

Lemma density_value_1s_pos (r theta phi : R) : 0 < density_value 1 0 0 r theta phi 1.
Proof.
  unfold density_value. rewrite radial_value_1s, angular_value_s.
  assert (He : 0 < exp (- r)) by apply exp_pos.
  assert (Hp : 0 < 1 / (4 * PI)).
  { apply Rdiv_lt_0_compat; [lra|]. pose proof PI_RGT_0. lra. }
  assert (Hs : 0 < sqrt (1 / (4 * PI))) by now apply sqrt_lt_R0.
  repeat apply Rmult_lt_0_compat; lra.
Qed.

Lemma acos_minus_1 : acos (-1) = PI.
Proof.
  replace (-1) with (- (1)) by lra.
  rewrite acos_opp, acos_1. lra.
Qed.

Lemma Math_pow_0_third : Math_pow 0 (1 / 3) = 0.
Proof.
  unfold Math_pow.
  destruct (Req_dec_T 0 0) as [_|H]; [|now elim H].
  destruct (Req_dec_T (1 / 3) 0) as [H|_]; [lra | reflexivity].
Qed.

Lemma Math_pow_half_third_pos : 0 < Math_pow (1 / 2) (1 / 3).
Proof.
  unfold Math_pow.
  destruct (Req_dec_T (1 / 2) 0) as [H|_]; [lra|].
  unfold Rpower. apply exp_pos.
Qed.

Lemma Rltb_true (x y : R) : Rltb x y = true <-> x < y.
Proof.
  unfold Rltb. destruct (Rlt_dec x y); split; intros H; trivial; [discriminate | contradiction].
Qed.

Lemma Rltb_false (x y : R) : Rltb x y = false <-> ~ x < y.
Proof.
  unfold Rltb. destruct (Rlt_dec x y); split; intros H; trivial;
    [discriminate | contradiction].
Qed.

(** A candidate drawn with [u = 1/2] for the radius and [1/2] for the
    polar angle has positive weighted density. *)
Lemma candidate_weight_1s_pos (w : world) :
  draws w (drawn w) = 1 / 2 ->
  draws w (S (drawn w)) = 1 / 2 ->
  0 < candidate_weight 1 0 0 1 4 w.
Proof.
  intros Hu Hv. unfold candidate_weight, candidate_r, candidate_theta.
  rewrite Hu, Hv.
  replace (2 * (1 / 2) - 1) with 0 by field.
  rewrite acos_0, sin_PI2.
  pose proof Math_pow_half_third_pos as Hp.
  apply Rmult_lt_0_compat; [apply density_value_1s_pos | nra].
Qed.

(** A candidate drawn with [u = 0] for the radius sits at the nucleus:
    its weighted density is 0. *)
Lemma candidate_weight_at_origin (n l m : Z) (Zeff maxR : R) (w : world) :
  draws w (drawn w) = 0 ->
  candidate_weight n l m Zeff maxR w = 0.
Proof.
  intros Hu. unfold candidate_weight, candidate_r.
  rewrite Hu, Math_pow_0_third. ring.
Qed.

Lemma accepted_with_draw_0 (w : world) (s : sampler_state) :
  draws w (drawn w) = 1 / 2 ->
  draws w (S (drawn w)) = 1 / 2 ->
  draws w (S (S (S (drawn w)))) = 0 ->
  candidate_accepted 1 0 0 1 4 s w = true.
Proof.
  intros Hu Hv Ha. unfold candidate_accepted, acceptance_draw.
  rewrite Ha, Rmult_0_l. apply Rltb_true. now apply candidate_weight_1s_pos.
Qed.

Lemma rejected_at_origin (n l m : Z) (Zeff maxR : R) (w : world) (s : sampler_state) :
  draws w (drawn w) = 0 ->
  draws w (S (S (S (drawn w)))) = 0 ->
  candidate_accepted n l m Zeff maxR s w = false.
Proof.
  intros Hu Ha. unfold candidate_accepted, acceptance_draw.
  rewrite Ha, Rmult_0_l, candidate_weight_at_origin by exact Hu.
  apply Rltb_false. lra.
Qed.

(** [pointIndex < attempts * 0.01] cannot hold with [attempts <= 1200]
    once four points are in the buffer. *)
Lemma rejecting_too_much_12 (a : Z) :
  (a <= 1200)%Z -> rejecting_too_much 12 a = false.
Proof.
  intros H. unfold rejecting_too_much. apply andb_false_iff. right.
  apply Rltb_false. apply IZR_le in H. lra.
Qed.

Lemma rejecting_too_much_early (i a : Z) :
  (a <= 1000)%Z -> rejecting_too_much i a = false.
Proof.
  intros H. unfold rejecting_too_much. apply andb_false_iff. left.
  rewrite Z.gtb_ltb. apply Z.ltb_ge. exact H.
Qed.

(** Passes that all reject at the origin leave buffer, index and ceiling
    alone while [attempts] stays at or below 1200 and the index is 12. *)
Lemma rejections_at_origin (n l m : Z) (Zeff maxR : R) (k : nat) :
  forall (s : sampler_state) (w : world),
    (forall i, (drawn w <= i)%nat -> draws w i = 0) ->
    pointIndex s = 12%Z ->
    (attempts s + Z.of_nat k <= 1200)%Z ->
    fst (attempts_run n l m Zeff maxR k s w)
    = mkState (points s) (maxP s) 12 (attempts s + Z.of_nat k).
Proof.
  induction k as [|k IH]; intros s w Hz Hi Ha.
  - cbn [attempts_run fst]. destruct s; cbn in *. subst. f_equal. lia.
  - cbn [attempts_run]. rewrite attempt_run. cbv zeta. cbn [fst snd].
    rewrite rejected_at_origin by (apply Hz; lia).
    rewrite Hi, rejecting_too_much_12 by lia.
    rewrite IH; cbn [points maxP pointIndex attempts advanced draws drawn].
    + f_equal. lia.
    + intros i Hle. apply Hz. lia.
    + reflexivity.
    + lia.
Qed.

(** ** A run of sampleOrbital(1, 0, 0, 11, 1) with four early acceptances *)

Lemma low_acceptance_draws_range (i : nat) : 0 <= low_acceptance_draws i < 1.
Proof.
  unfold low_acceptance_draws.
  destruct (i <? presample_draws)%nat; [lra|].
  generalize (i - presample_draws)%nat. intros k.
  unfold early_acceptances.
  do 16 (destruct k as [|k]; [cbn; lra|]).
  destruct k; cbn; lra.
Qed.

Lemma low_acceptance_draws_main (i k : nat) :
  i = (k + presample_draws)%nat ->
  low_acceptance_draws i = nth k early_acceptances 0.
Proof.
  intros ->. unfold low_acceptance_draws.
  assert (E : (k + presample_draws <? presample_draws)%nat = false)
    by (apply Nat.ltb_ge; lia).
  rewrite E. f_equal. lia.
Qed.

Lemma attempts_run_add (n l m : Z) (Zeff maxR : R) (a b : nat) :
  forall (s : sampler_state) (w : world),
    attempts_run n l m Zeff maxR (a + b) s w
    = attempts_run n l m Zeff maxR b
        (fst (attempts_run n l m Zeff maxR a s w))
        (snd (attempts_run n l m Zeff maxR a s w)).
Proof.
  induction a as [|a IH]; intros s w.
  - reflexivity.
  - cbn [Nat.add attempts_run]. apply IH.
Qed.

(** While the early candidates last, every pass accepts. *)
Lemma early_passes_accept (k : nat) :
  forall (j : nat) (s : sampler_state) (w : world),
    draws w = low_acceptance_draws ->
    drawn w = (4 * j + presample_draws)%nat ->
    (j + k <= 4)%nat ->
    (attempts s + Z.of_nat k <= 1000)%Z ->
    let s' := fst (attempts_run 1 0 0 1 4 k s w) in
    pointIndex s' = (pointIndex s + 3 * Z.of_nat k)%Z
    /\ attempts s' = (attempts s + Z.of_nat k)%Z
    /\ maxP s' = maxP s.
Proof.
  induction k as [|k IH]; intros j s w Hd Hn Hj Ha; cbv zeta.
  - cbn [attempts_run fst]. repeat split; lia.
  - cbn [attempts_run]. rewrite attempt_run. cbv zeta. cbn [fst snd].
    assert (Hacc : candidate_accepted 1 0 0 1 4 s w = true).
    { apply accepted_with_draw_0; rewrite Hd, Hn.
      - rewrite (low_acceptance_draws_main _ (4 * j)) by lia.
        do 4 (destruct j as [|j]; [reflexivity|]). lia.
      - rewrite (low_acceptance_draws_main _ (4 * j + 1)) by lia.
        do 4 (destruct j as [|j]; [reflexivity|]). lia.
      - rewrite (low_acceptance_draws_main _ (4 * j + 3)) by lia.
        do 4 (destruct j as [|j]; [reflexivity|]). lia. }
    rewrite Hacc, rejecting_too_much_early by lia.
    match goal with
    | |- context [attempts_run 1 0 0 1 4 k ?s1 ?w1] =>
        destruct (IH (S j) s1 w1) as (Hi' & Ha' & Hm')
    end.
    + exact Hd.
    + cbn [advanced drawn]. lia.
    + lia.
    + cbn [attempts]. lia.
    + cbn [pointIndex attempts maxP] in Hi', Ha', Hm'.
      rewrite Hi', Ha', Hm'. repeat split; lia.
Qed.

Lemma low_acceptance_ceiling_pos :
  0 < fst (estimateMaxProbability 1 0 0 1 4 low_acceptance_world).
Proof.
  rewrite estimateMaxProbability_unfold. unfold bind.
  destruct (Z.to_nat 5000) as [|k] eqn:Ek; [lia|].
  cbn [repeatM]. unfold bind. rewrite presample_run. cbv zeta.
  match goal with
  | |- context [repeatM k ?b ?acc ?w] =>
      pose proof (presamples_nonneg 1 0 0 1 4 k acc w) as Hge;
      destruct (repeatM k b acc w) as [v w']
  end.
  cbn [fst] in *.
  assert (Hw : 0 < presample_weight 1 0 0 1 4 low_acceptance_world).
  { unfold presample_weight, presample_r, low_acceptance_world.
    cbn [draws drawn].
    assert (Hp : (0 < presample_draws)%nat) by (unfold presample_draws; lia).
    assert (E : forall i, (i < 4)%nat -> low_acceptance_draws i = 1 / 2).
    { intros i Hi. unfold low_acceptance_draws.
      assert (E : (i <? presample_draws)%nat = true)
        by (apply Nat.ltb_lt; unfold presample_draws; lia).
      now rewrite E. }
    rewrite !E by lia.
    replace (2 * (1 / 2) - 1) with 0 by field.
    rewrite acos_0, sin_PI2.
    apply Rmult_lt_0_compat; [apply density_value_1s_pos|].
    match goal with |- 0 < ?r * ?r * 1 => assert (0.01 <= r) by apply Rmax_l end.
    nra. }
  unfold Rgtb in Hge. rewrite (proj2 (Rltb_true _ _) Hw) in Hge.
  unfold ret. cbn [fst]. lra.
Qed.

(** The state after [j] passes of that run, for [j <= 1200]. *)
Lemma low_acceptance_state (j : nat) :
  (j <= 1200)%nat ->
  let maxP0 := fst (estimateMaxProbability 1 0 0 1 4 low_acceptance_world) in
  let w1 := snd (estimateMaxProbability 1 0 0 1 4 low_acceptance_world) in
  let s := fst (attempts_run 1 0 0 1 4 j (initial_state 11 maxP0) w1) in
  attempts s = Z.of_nat j
  /\ pointIndex s = (3 * Z.of_nat (Nat.min j 4))%Z
  /\ maxP s = maxP0.
Proof.
  intros Hj maxP0 w1.
  assert (Hw1 : draws w1 = low_acceptance_draws /\ drawn w1 = (4 * 0 + presample_draws)%nat).
  { unfold w1. rewrite estimateMaxProbability_world.
    unfold advanced, low_acceptance_world, presample_draws. cbn [draws drawn].
    split; [reflexivity | lia]. }
  destruct Hw1 as [Hd Hn].
  destruct (Nat.le_gt_cases j 4) as [Hle|Hgt]; cbv zeta.
  - destruct (early_passes_accept j 0 (initial_state 11 maxP0) w1 Hd Hn) as (Hi & Ha & Hm);
      [lia | cbn [initial_state attempts]; lia |].
    rewrite Hi, Ha, Hm, Nat.min_l by lia. cbn [initial_state pointIndex attempts maxP].
    repeat split; lia.
  - replace j with (4 + (j - 4))%nat by lia.
    rewrite attempts_run_add.
    destruct (early_passes_accept 4 0 (initial_state 11 maxP0) w1 Hd Hn) as (Hi & Ha & Hm);
      [lia | cbn [initial_state attempts]; lia |].
    destruct (attempts_run_counts 1 0 0 1 4 4 (initial_state 11 maxP0) w1) as [_ Hw4].
    cbn [initial_state pointIndex attempts maxP] in Hi, Ha, Hm.
    rewrite rejections_at_origin.
    + cbn [attempts pointIndex maxP]. rewrite Ha, Hm, Nat.min_r by lia. repeat split; lia.
    + intros i Hi4. rewrite Hw4 in *. cbn [advanced draws drawn] in *. rewrite Hd.
      rewrite (low_acceptance_draws_main i (i - presample_draws)) by lia.
      apply nth_overflow. cbn [early_acceptances length]. lia.
    + rewrite Hi. reflexivity.
    + rewrite Ha. lia.
Qed.

(** C6 (as stated, refuted).  In the call sampleOrbital(1, 0, 0, 11, 1)
    with the draws of [low_acceptance_world], the loop makes its 1001st
    pass; after it 4 points stand accepted in 1001 attempts, an acceptance
    rate below 1%, and [maxP] is what it was before the pass: not
    doubled. *)
Lemma doubling_skipped_below_one_percent :
  let maxR := maxRadialExtent 1 0 1 in
  let maxP0 := fst (estimateMaxProbability 1 0 0 1 maxR low_acceptance_world) in
  let w1 := snd (estimateMaxProbability 1 0 0 1 maxR low_acceptance_world) in
  let state_after (j : nat) :=
    fst (attempts_run 1 0 0 1 maxR j (initial_state 11 maxP0) w1) in
  (forall i, 0 <= draws low_acceptance_world i < 1)
  /\ (forall j, (j <= 1000)%nat -> sampling_continues 11 (state_after j) = true)
  /\ attempts (state_after 1001%nat) = 1001%Z
  /\ pointIndex (state_after 1001%nat) = (3 * 4)%Z
  /\ 4 / IZR (attempts (state_after 1001%nat)) < 0.01
  /\ maxP (state_after 1001%nat) = maxP (state_after 1000%nat)
  /\ maxP (state_after 1001%nat) <> maxP (state_after 1000%nat) * 2.
Proof.
  rewrite maxRadialExtent_1s. cbv zeta.
  split; [exact low_acceptance_draws_range|].
  split.
  { intros j Hj.
    destruct (low_acceptance_state j) as (Ha & Hi & _); [lia|].
    apply sampling_continues_true. rewrite Ha, Hi. lia. }
  destruct (low_acceptance_state 1001) as (Ha & Hi & Hm); [lia|].
  destruct (low_acceptance_state 1000) as (_ & _ & Hm'); [lia|].
  rewrite Ha, Hi, Hm, Hm'.
  pose proof low_acceptance_ceiling_pos as Hpos.
  replace (Z.of_nat 1001) with 1001%Z by lia.
  split; [reflexivity|]. split; [lia|]. split; [lra|].
  split; [reflexivity|]. lra.
Qed.

(** C6 (amended).  A pass of the loop doubles [maxP] exactly when, on the
    counters as the pass leaves them, more than 1000 attempts have been
    made and [pointIndex] - three times the number of accepted points -
    is below 1% of [attempts]; otherwise the pass leaves [maxP] as it
    was. *)
Theorem maxP_doubling_rule (n l m : Z) (Zeff maxR : R) (s : sampler_state) (w : world) :
  let s' := fst (attempt n l m Zeff maxR s w) in
  ((1000 < attempts s')%Z ->
   IZR (pointIndex s') < IZR (attempts s') * 0.01 ->
   maxP s' = maxP s * 2)
  /\ ((attempts s' <= 1000)%Z \/ IZR (attempts s') * 0.01 <= IZR (pointIndex s') ->
      maxP s' = maxP s).
Proof.
  rewrite attempt_run. cbv zeta. cbn [fst attempts pointIndex maxP].
  set (i' := if candidate_accepted n l m Zeff maxR s w
             then (pointIndex s + 3)%Z else pointIndex s).
  unfold rejecting_too_much. split.
  - intros Ha Hi.
    assert (E1 : (attempts s + 1 >? 1000)%Z = true) by (rewrite Z.gtb_ltb; apply Z.ltb_lt; lia).
    rewrite E1, (proj2 (Rltb_true _ _) Hi). reflexivity.
  - intros [Ha|Hi].
    + assert (E1 : (attempts s + 1 >? 1000)%Z = false) by (rewrite Z.gtb_ltb; apply Z.ltb_ge; lia).
      rewrite E1. reflexivity.
    + assert (E2 : Rltb (IZR i') (IZR (attempts s + 1) * 0.01) = false)
        by (apply Rltb_false; lra).
      rewrite E2, andb_false_r. reflexivity.
Qed.

Lemma maxP_doubling_rule_witness :
  let w := mkWorld (fun _ => 0) 0 [] [] in
  maxP (fst (attempt 1 0 0 1 4 (mkState [] 1 0 1000) w)) = 1 * 2
  /\ maxP (fst (attempt 1 0 0 1 4 (mkState [] 1 0 999) w)) = 1.
Proof.
  intro w.
  assert (Hrej : forall s, candidate_accepted 1 0 0 1 4 s w = false)
    by (intros s; apply rejected_at_origin; reflexivity).
  split.
  - apply (proj1 (maxP_doubling_rule 1 0 0 1 4 (mkState [] 1 0 1000) w)).
    + rewrite attempt_counts. cbn [attempts]. lia.
    + rewrite attempt_run. cbv zeta. cbn [fst attempts pointIndex].
      rewrite Hrej. cbn [pointIndex]. change (1000 + 1)%Z with 1001%Z. lra.
  - apply (proj2 (maxP_doubling_rule 1 0 0 1 4 (mkState [] 1 0 999) w)).
    left. rewrite attempt_counts. cbn [attempts]. lia.
Defined.

(** ** The rejection test *)

Lemma replace_three (a : list R) : forall (i : nat) (x y z : R),
  (i + 3 <= length a)%nat ->
  replace_nth (replace_nth (replace_nth a i x) (S i) y) (S (S i)) z
  = firstn i a ++ x :: y :: z :: skipn (i + 3) a.
Proof.
  induction a as [|h t IH]; intros i x y z Hlen.
  - cbn in Hlen. lia.
  - destruct i as [|i].
    + destruct t as [|h1 [|h2 t]]; cbn in Hlen; try lia. reflexivity.
    + cbn [replace_nth firstn Nat.add skipn app]. f_equal.
      apply IH. cbn in Hlen. lia.
Qed.

Lemma typed_array_set_in_range (a : list R) (i : Z) (v : R) :
  (0 <= i < Z.of_nat (length a))%Z ->
  typed_array_set a i v = replace_nth a (Z.to_nat i) v.
Proof.
  intros H. unfold typed_array_set.
  assert (E : ((0 <=? i)%Z && (i <? Z.of_nat (length a))%Z)%bool = true).
  { apply andb_true_iff. split; [apply Z.leb_le | apply Z.ltb_lt]; lia. }
  now rewrite E.
Qed.

(** In range, the three stores of an accepted candidate put its
    coordinates right after the points already in the buffer. *)
Lemma store_point_appends (a : list R) (i : Z) (c : Cartesian.t) :
  (0 <= i)%Z -> (i + 3 <= Z.of_nat (length a))%Z ->
  firstn (Z.to_nat (i + 3)) (store_point a i c)
  = firstn (Z.to_nat i) a ++ [Cartesian.x c; Cartesian.y c; Cartesian.z c].
Proof.
  intros H0 Hlen. unfold store_point.
  rewrite (typed_array_set_in_range _ (i + 2)) by (rewrite !typed_array_set_length; lia).
  rewrite (typed_array_set_in_range _ (i + 1)) by (rewrite !typed_array_set_length; lia).
  rewrite (typed_array_set_in_range _ i) by lia.
  replace (Z.to_nat (i + 1)) with (S (Z.to_nat i)) by lia.
  replace (Z.to_nat (i + 2)) with (S (S (Z.to_nat i))) by lia.
  replace (Z.to_nat (i + 3)) with (Z.to_nat i + 3)%nat by lia.
  rewrite replace_three by lia.
  rewrite firstn_app, length_firstn, Nat.min_l by lia.
  rewrite firstn_firstn, Nat.min_r by lia.
  replace (Z.to_nat i + 3 - Z.to_nat i)%nat with 3%nat by lia.
  reflexivity.
Qed.

Lemma attempts_run_maxP_nonneg (n l m : Z) (Zeff maxR : R) (k : nat) :
  forall (s : sampler_state) (w : world),
    0 <= maxP s -> 0 <= maxP (fst (attempts_run n l m Zeff maxR k s w)).
Proof.
  induction k as [|k IH]; intros s w H.
  - exact H.
  - cbn [attempts_run]. apply IH. rewrite attempt_run. cbv zeta. cbn [fst maxP].
    destruct (rejecting_too_much _ _); lra.
Qed.

(** C3 (amended).  A pass appends its candidate exactly when the
    acceptance draw [u] and the ceiling [maxP] the pass starts with
    satisfy [u * maxP < P r^2 sin(theta)]: then the three coordinates go
    into the buffer at [pointIndex], right after the points already
    there, and [pointIndex] grows by 3; otherwise buffer and index are
    untouched.  With [0 <= u] and [0 <= maxP] - and the ceiling is never
    negative in a call - a candidate of weighted density 0 is never
    accepted, and every accepted candidate has positive weighted
    density. *)
Theorem rejection_test_decides :
  (forall (n l m : Z) (Zeff maxR : R) (s : sampler_state) (w : world),
      let s' := fst (attempt n l m Zeff maxR s w) in
      let u := acceptance_draw w in
      let weightedP := candidate_weight n l m Zeff maxR w in
      let c := sphericalToCartesian (candidate_r maxR w) (candidate_theta w)
                 (candidate_phi w) in
      (u * maxP s < weightedP ->
       pointIndex s' = (pointIndex s + 3)%Z
       /\ points s' = store_point (points s) (pointIndex s) c
       /\ ((0 <= pointIndex s)%Z ->
           (pointIndex s + 3 <= Z.of_nat (length (points s)))%Z ->
           firstn (Z.to_nat (pointIndex s')) (points s')
           = firstn (Z.to_nat (pointIndex s)) (points s)
             ++ [Cartesian.x c; Cartesian.y c; Cartesian.z c]))
      /\ (~ u * maxP s < weightedP ->
          pointIndex s' = pointIndex s /\ points s' = points s)
      /\ (0 <= u -> 0 <= maxP s -> weightedP = 0 ->
          pointIndex s' = pointIndex s /\ points s' = points s)
      /\ (0 <= u -> 0 <= maxP s -> pointIndex s' <> pointIndex s -> 0 < weightedP))
  /\
  (forall (n l m numPoints : Z) (Zeff : R) (w : world) (k : nat),
      let maxR := maxRadialExtent n l Zeff in
      let maxP0 := fst (estimateMaxProbability n l m Zeff maxR w) in
      let w1 := snd (estimateMaxProbability n l m Zeff maxR w) in
      0 <= maxP (fst (attempts_run n l m Zeff maxR k (initial_state numPoints maxP0) w1))).
Proof.
  split.
  - intros n l m Zeff maxR s w. cbv zeta.
    rewrite attempt_run. cbv zeta. cbn [fst pointIndex points].
    unfold candidate_accepted.
    assert (Hacc : acceptance_draw w * maxP s < candidate_weight n l m Zeff maxR w ->
                   Rltb (acceptance_draw w * maxP s) (candidate_weight n l m Zeff maxR w) = true)
      by apply Rltb_true.
    assert (Hrej : ~ acceptance_draw w * maxP s < candidate_weight n l m Zeff maxR w ->
                   Rltb (acceptance_draw w * maxP s) (candidate_weight n l m Zeff maxR w) = false)
      by apply Rltb_false.
    split; [|split; [|split]].
    + intros H. rewrite (Hacc H). split; [reflexivity|]. split; [reflexivity|].
      intros H0 Hlen. now apply store_point_appends.
    + intros H. rewrite (Hrej H). split; reflexivity.
    + intros Hu Hm Hw. rewrite Hrej; [split; reflexivity|]. rewrite Hw. nra.
    + intros Hu Hm Hne.
      destruct (Rlt_dec (acceptance_draw w * maxP s) (candidate_weight n l m Zeff maxR w))
        as [H|H].
      * nra.
      * rewrite (Hrej H) in Hne. now elim Hne.
  - intros n l m numPoints Zeff w k. cbv zeta.
    apply attempts_run_maxP_nonneg. unfold initial_state. cbn [maxP].
    apply estimateMaxProbability_nonneg.
Qed.

Lemma rejection_test_decides_witness :
  let w := mkWorld (fun i => match i with 3%nat => 0 | _ => 1 / 2 end) 0 [] [] in
  let s := mkState [0; 0; 0] 1 0 0 in
  let s' := fst (attempt 1 0 0 1 4 s w) in
  let c := sphericalToCartesian (candidate_r 4 w) (candidate_theta w) (candidate_phi w) in
  pointIndex s' = 3%Z
  /\ points s' = store_point [0; 0; 0] 0 c
  /\ firstn (Z.to_nat (pointIndex s')) (points s')
     = [Cartesian.x c; Cartesian.y c; Cartesian.z c].
Proof.
  intros w s s' c.
  destruct rejection_test_decides as [Hpass _].
  destruct (Hpass 1%Z 0%Z 0%Z 1 4 s w) as [Hacc _].
  assert (Hlt : acceptance_draw w * maxP s < candidate_weight 1 0 0 1 4 w).
  { unfold acceptance_draw. cbn [draws drawn w]. rewrite Rmult_0_l.
    apply candidate_weight_1s_pos; reflexivity. }
  destruct (Hacc Hlt) as (Hi & Hp & Hf).
  split; [exact Hi|]. split; [exact Hp|].
  apply Hf; cbn; lia.
Defined.

(** ** A run of sampleOrbital(1, 0, 0, 1, 1) whose ceiling is too low *)

(** Pre-samples on the axis theta = PI leave the running maximum 0. *)
Lemma presamples_on_axis (n l m : Z) (Zeff maxR : R) (k : nat) :
  forall (w : world),
    (forall j, (j < k)%nat -> draws w (S (S (4 * j + drawn w))) = 0) ->
    fst (repeatM k (presample n l m Zeff maxR) 0 w) = 0.
Proof.
  induction k as [|k IH]; intros w Hz.
  - reflexivity.
  - cbn [repeatM]. unfold bind. rewrite presample_run. cbv zeta.
    assert (Hw : presample_weight n l m Zeff maxR w = 0).
    { unfold presample_weight.
      pose proof (Hz O ltac:(lia)) as H0. cbn [Nat.mul Nat.add] in H0. rewrite H0.
      replace (2 * 0 - 1) with (-1) by ring.
      rewrite acos_minus_1, sin_PI. ring. }
    rewrite Hw.
    assert (E : Rgtb 0 0 = false) by (apply Rltb_false; lra).
    rewrite E. apply IH.
    intros j Hj. cbn [advanced draws drawn].
    pose proof (Hz (S j) ltac:(lia)) as H.
    replace (S (S (4 * j + (4 + drawn w)))) with (S (S (4 * S j + drawn w))) by lia.
    exact H.
Qed.

Lemma low_ceiling_is_zero :
  fst (estimateMaxProbability 1 0 0 1 4 low_ceiling_world) = 0.
Proof.
  rewrite estimateMaxProbability_unfold. unfold bind.
  pose proof (presamples_on_axis 1 0 0 1 4 (Z.to_nat 5000) low_ceiling_world) as H.
  destruct (repeatM _ _ _ _) as [v w']. cbn [fst] in *. unfold ret. cbn [fst].
  rewrite H; [ring|].
  intros j Hj. unfold low_ceiling_world, low_ceiling_draws. cbn [draws drawn].
  assert (E : (S (S (4 * j + 0)) <? presample_draws)%nat = true)
    by (apply Nat.ltb_lt; unfold presample_draws; lia).
  now rewrite E.
Qed.

(** C3 (as stated, refuted in its last part).  In the call
    sampleOrbital(1, 0, 0, 1, 1) with the draws of [low_ceiling_world]
    the ceiling is estimated as 0; the loop makes its first pass, the
    candidate of that pass is accepted, and its weighted density is above
    the ceiling the pass used. *)
Lemma accepted_point_above_ceiling :
  let maxR := maxRadialExtent 1 0 1 in
  let maxP0 := fst (estimateMaxProbability 1 0 0 1 maxR low_ceiling_world) in
  let w1 := snd (estimateMaxProbability 1 0 0 1 maxR low_ceiling_world) in
  let s0 := initial_state 1 maxP0 in
  let s1 := fst (attempt 1 0 0 1 maxR s0 w1) in
  (forall i, 0 <= draws low_ceiling_world i < 1)
  /\ sampling_continues 1 s0 = true
  /\ pointIndex s0 = 0%Z /\ pointIndex s1 = 3%Z
  /\ maxP s0 < candidate_weight 1 0 0 1 maxR w1.
Proof.
  rewrite maxRadialExtent_1s. cbv zeta.
  split.
  { intros i. unfold low_ceiling_world, low_ceiling_draws. cbn [draws].
    destruct (i <? presample_draws)%nat; lra. }
  split; [reflexivity|]. split; [reflexivity|].
  assert (Hw1 : forall i, draws (snd (estimateMaxProbability 1 0 0 1 4 low_ceiling_world))
                            (i + drawn (snd (estimateMaxProbability 1 0 0 1 4 low_ceiling_world)))
                          = 1 / 2).
  { intros i. rewrite estimateMaxProbability_world.
    unfold advanced, low_ceiling_world, low_ceiling_draws. cbn [draws drawn].
    assert (E : (i + (4 * Z.to_nat 5000 + 0) <? presample_draws)%nat = false)
      by (apply Nat.ltb_ge; unfold presample_draws; lia).
    now rewrite E. }
  set (w1 := snd (estimateMaxProbability 1 0 0 1 4 low_ceiling_world)) in *.
  assert (Hpos : 0 < candidate_weight 1 0 0 1 4 w1).
  { apply candidate_weight_1s_pos; [apply (Hw1 0%nat) | apply (Hw1 1%nat)]. }
  unfold initial_state. cbn [maxP pointIndex]. rewrite low_ceiling_is_zero.
  split; [|exact Hpos].
  rewrite attempt_run. cbv zeta. cbn [fst pointIndex].
  unfold candidate_accepted. cbn [maxP]. rewrite Rmult_0_r.
  rewrite (proj2 (Rltb_true _ _) Hpos). reflexivity.
Qed.

(** ** sampleSubshell *)

Lemma Math_ceil_IZR (k : Z) : Math_ceil (IZR k) = k.
Proof. unfold Math_ceil, Zceil. rewrite ZfloorNZ. lia. Qed.

Lemma Math_floor_IZR (k : Z) : Math_floor (IZR k) = k.
Proof. apply ZfloorZ. Qed.

(** The electrons-per-orbital factor cancels: whatever the electron count
    of the subshell (0 apart), every orbital is given one electron. *)
Lemma electronsInThisOrbital_one (l totalElectrons m : Z) :
  (0 <= l)%Z -> totalElectrons <> 0%Z ->
  electronsInThisOrbital l totalElectrons m = 1%Z.
Proof.
  intros Hl Ht. unfold electronsInThisOrbital. cbv zeta.
  assert (Hd : 2 * IZR l + 1 <> 0) by (apply IZR_le in Hl; lra).
  assert (Hn : IZR totalElectrons <> 0) by (intros H; apply eq_IZR in H; contradiction).
  assert (E : forall k : Z,
             IZR totalElectrons / (2 * IZR l + 1) * IZR k
             / (IZR totalElectrons / (2 * IZR l + 1)) = IZR k)
    by (intros k; field; split; assumption).
  rewrite !E, Math_ceil_IZR, Math_floor_IZR.
  replace (m + l + 1 - (m + l))%Z with 1%Z by lia.
  reflexivity.
Qed.

Lemma sampleOrbital_returns (n l m numPoints : Z) (Zeff : R) (w : world) :
  (0 <= numPoints)%Z ->
  exists (buffer : list R) (w' : world),
    sampleOrbital n l m numPoints Zeff w = (Returned buffer, w')
    /\ maxProbabilityCache w' = maxProbabilityCache w.
Proof.
  intros Hn.
  destruct (final_state_spec n l m numPoints Zeff w Hn)
    as (_ & _ & w' & Hrun & _ & Hc & _).
  eexists. exists w'. split; [exact Hrun | exact Hc].
Qed.

(** The [m] values a counted loop collects go after what it starts
    with. *)
Lemma for_range_collect (count : nat) : forall (k : Z) (acc : list Z),
  for_range k count (fun m mValues => mValues ++ [m]) acc
  = acc ++ for_range k count (fun m mValues => mValues ++ [m]) [].
Proof.
  induction count as [|c IH]; intros k acc.
  - cbn. now rewrite app_nil_r.
  - cbn [for_range]. rewrite IH, (IH _ ([] ++ [k])). cbn [app].
    now rewrite <- app_assoc.
Qed.

(** Whatever the electron count of the subshell (0 apart),
    [sampleSubshell] returns one entry per [m], in the order of
    [getMagneticQuantumNumbers], each with one electron. *)
Lemma sampleSubshell_entries (n l totalElectrons : Z) (pointsPerElectron Zeff : R) (w : world) :
  (0 <= l)%Z -> totalElectrons <> 0%Z -> 0 <= pointsPerElectron ->
  exists (entries : list SubshellEntry.t) (w' : world),
    sampleSubshell n l totalElectrons pointsPerElectron Zeff w = (Returned entries, w')
    /\ map SubshellEntry.m entries = getMagneticQuantumNumbers l
    /\ Forall (fun e => SubshellEntry.electrons e = 1%Z) entries.
Proof.
  intros Hl Ht Hp. unfold sampleSubshell, getMagneticQuantumNumbers, for_upto.
  generalize (Z.to_nat (l - - l + 1)) as count. generalize (- l)%Z as k.
  intros k count.
  match goal with
  | |- context [for_rangeM k count ?b [] w] => set (body := b)
  end.
  assert (H : forall (results : list SubshellEntry.t) (w0 : world),
             exists (entries : list SubshellEntry.t) (w' : world),
               for_rangeM k count body results w0 = (Returned (results ++ entries), w')
               /\ map SubshellEntry.m entries
                  = for_range k count (fun m mValues => mValues ++ [m]) []
               /\ Forall (fun e => SubshellEntry.electrons e = 1%Z) entries).
  { revert k. induction count as [|c IH]; intros k results w0.
    - exists [], w0. cbn. rewrite app_nil_r. repeat split. constructor.
    - cbn [for_rangeM for_range]. unfold bind at 1.
      assert (Hc : (0 <= Math_ceil (pointsPerElectron * IZR 1))%Z).
      { rewrite <- (Math_ceil_IZR 0). apply Zceil_le. lra. }
      destruct (sampleOrbital_returns n l k _ Zeff w0 Hc) as (pts & w1 & Hrun & _).
      assert (Hbody : body k results w0
                      = (Returned (results ++ [SubshellEntry.mk k 1 pts]), w1)).
      { unfold body. rewrite electronsInThisOrbital_one by assumption.
        change (1 >? 0)%Z with true. cbv iota zeta. unfold bind.
        rewrite Hrun. reflexivity. }
      rewrite Hbody.
      destruct (IH (k + 1)%Z (results ++ [SubshellEntry.mk k 1 pts]) w1)
        as (entries & w' & Hloop & Hm & He).
      exists (SubshellEntry.mk k 1 pts :: entries), w'.
      rewrite Hloop, <- app_assoc. split; [reflexivity|]. split.
      + cbn [map SubshellEntry.m]. rewrite Hm, (for_range_collect c _ ([] ++ [k])).
        reflexivity.
      + constructor; [reflexivity | exact He]. }
  destruct (H [] w) as (entries & w' & Hrun & Hm & He).
  exists entries, w'. split; [exact Hrun|]. split; [exact Hm | exact He].
Qed.

(** C4 (the electron counts).  For the full 1s subshell,
    sampleSubshell(1, 0, 2, 1, 1), the one orbital m = 0 is given
    1 electron: the [electrons] fields sum to 1, not to the 2 electrons
    of the subshell. *)
Theorem sampleSubshell_full_1s (w : world) :
  electronsInThisOrbital 0 2 0 = 1%Z
  /\ exists (pts : list R) (w' : world),
      sampleSubshell 1 0 2 1 1 w = (Returned [SubshellEntry.mk 0 1 pts], w').
Proof.
  assert (E : electronsInThisOrbital 0 2 0 = 1%Z)
    by (apply electronsInThisOrbital_one; lia).
  split; [exact E|].
  unfold sampleSubshell.
  change (Z.to_nat (0 - - 0 + 1)) with 1%nat. change (- 0)%Z with 0%Z.
  cbn [for_rangeM]. unfold bind. rewrite E.
  change (1 >? 0)%Z with true. cbv iota.
  replace (1 * IZR 1) with (IZR 1) by ring. rewrite Math_ceil_IZR.
  destruct (sampleOrbital_returns 1 0 0 1 1 w) as (pts & w' & Hrun & _); [lia|].
  rewrite Hrun. exists pts, w'. reflexivity.
Qed.

(** ** The coordinate conversions *)

Lemma atan2_right (y x : R) : 0 < x -> Math_atan2 y x = atan (y / x).
Proof. intros H. unfold Math_atan2. destruct (Rlt_dec 0 x); [reflexivity | contradiction]. Qed.

Lemma atan2_upper_left (y x : R) : x < 0 -> 0 <= y -> Math_atan2 y x = atan (y / x) + PI.
Proof.
  intros Hx Hy. unfold Math_atan2.
  destruct (Rlt_dec 0 x); [lra|]. destruct (Rlt_dec x 0); [|contradiction].
  destruct (Rle_dec 0 y); [reflexivity | contradiction].
Qed.

Lemma atan2_lower_left (y x : R) : x < 0 -> y < 0 -> Math_atan2 y x = atan (y / x) - PI.
Proof.
  intros Hx Hy. unfold Math_atan2.
  destruct (Rlt_dec 0 x); [lra|]. destruct (Rlt_dec x 0); [|contradiction].
  destruct (Rle_dec 0 y); [lra | reflexivity].
Qed.

Lemma atan2_up (y : R) : 0 < y -> Math_atan2 y 0 = PI / 2.
Proof.
  intros Hy. unfold Math_atan2.
  destruct (Rlt_dec 0 0); [lra|]. destruct (Rlt_dec 0 y); [reflexivity | contradiction].
Qed.

Lemma atan2_down (y : R) : y < 0 -> Math_atan2 y 0 = - (PI / 2).
Proof.
  intros Hy. unfold Math_atan2.
  destruct (Rlt_dec 0 0); [lra|]. destruct (Rlt_dec 0 y); [lra|].
  destruct (Rlt_dec y 0); [reflexivity | contradiction].
Qed.

Lemma atan2_origin : Math_atan2 0 0 = 0.
Proof.
  unfold Math_atan2.
  destruct (Rlt_dec 0 0); [lra | reflexivity].
Qed.

(** [atan2] takes a direction in the plane back to its angle in
    (-PI, PI]. *)
Lemma atan2_of_direction (rho phi : R) :
  0 < rho -> - PI < phi <= PI ->
  Math_atan2 (rho * sin phi) (rho * cos phi) = phi.
Proof.
  intros Hrho [Hlo Hhi]. pose proof PI_RGT_0 as Hpi.
  destruct (Rtotal_order phi (- (PI / 2))) as [H1|[H1|H1]].
  - (* third quadrant *)
    assert (Hs : sin phi < 0) by (apply sin_lt_0_var; lra).
    assert (Hc' : 0 < cos (phi + PI)) by (apply cos_gt_0; lra).
    rewrite neg_cos in Hc'.
    rewrite atan2_lower_left by nra.
    replace (rho * sin phi / (rho * cos phi)) with (tan (phi + PI)).
    + rewrite atan_tan by lra. ring.
    + unfold tan. rewrite neg_sin, neg_cos. field. split; lra.
  - (* straight down *)
    subst phi. rewrite cos_neg, sin_neg, cos_PI2, sin_PI2.
    replace (rho * 0) with 0 by ring. apply atan2_down. lra.
  - destruct (Rtotal_order phi (PI / 2)) as [H2|[H2|H2]].
    + (* right half plane *)
      assert (Hc : 0 < cos phi) by (apply cos_gt_0; lra).
      rewrite atan2_right by nra.
      replace (rho * sin phi / (rho * cos phi)) with (tan phi).
      * apply atan_tan. lra.
      * unfold tan. field. split; lra.
    + (* straight up *)
      subst phi. rewrite cos_PI2, sin_PI2.
      replace (rho * 0) with 0 by ring. apply atan2_up. lra.
    + (* second quadrant *)
      assert (Hs : 0 <= sin phi) by (apply sin_ge_0; lra).
      assert (Hc' : 0 < cos (phi - PI)) by (apply cos_gt_0; lra).
      assert (Hcs : cos phi = - cos (phi - PI) /\ sin phi = - sin (phi - PI)).
      { rewrite <- neg_cos, <- neg_sin. split; f_equal; ring. }
      destruct Hcs as [Ec Es].
      rewrite atan2_upper_left by nra.
      replace (rho * sin phi / (rho * cos phi)) with (tan (phi - PI)).
      * rewrite atan_tan by lra. ring.
      * unfold tan. rewrite Ec, Es. field. split; lra.
Qed.

Lemma radius_recovered (r theta phi : R) :
  0 <= r ->
  let c := sphericalToCartesian r theta phi in
  sqrt (Cartesian.x c * Cartesian.x c + Cartesian.y c * Cartesian.y c
        + Cartesian.z c * Cartesian.z c) = r.
Proof.
  intros Hr. unfold sphericalToCartesian. cbn [Cartesian.x Cartesian.y Cartesian.z].
  pose proof (sin2_cos2 theta) as Ht. pose proof (sin2_cos2 phi) as Hp.
  unfold Rsqr in Ht, Hp.
  replace (r * sin theta * cos phi * (r * sin theta * cos phi)
           + r * sin theta * sin phi * (r * sin theta * sin phi)
           + r * cos theta * (r * cos theta))
    with (r * r * (sin theta * sin theta * (sin phi * sin phi + cos phi * cos phi)
                   + cos theta * cos theta)) by ring.
  rewrite Hp, Rmult_1_r, Ht, Rmult_1_r. now apply sqrt_square.
Qed.

Lemma cartesianToSpherical_away (x y z : R) :
  sqrt (x * x + y * y + z * z) <> 0 ->
  cartesianToSpherical x y z
  = Spherical.mk (sqrt (x * x + y * y + z * z))
      (acos (z / sqrt (x * x + y * y + z * z))) (Math_atan2 y x).
Proof.
  intros H. unfold cartesianToSpherical.
  destruct (Req_dec_T _ 0); [contradiction | reflexivity].
Qed.

(** What the round trip returns, whenever [r > 0] and [0 <= theta <= PI]. *)
Lemma round_trip (r theta phi : R) :
  0 < r -> 0 <= theta <= PI ->
  let c := sphericalToCartesian r theta phi in
  cartesianToSpherical (Cartesian.x c) (Cartesian.y c) (Cartesian.z c)
  = Spherical.mk r theta (Math_atan2 (Cartesian.y c) (Cartesian.x c)).
Proof.
  intros Hr Ht c.
  pose proof (radius_recovered r theta phi (Rlt_le _ _ Hr)) as Hrad. fold c in Hrad.
  cbv zeta in Hrad.
  rewrite cartesianToSpherical_away by (rewrite Hrad; lra).
  rewrite Hrad. f_equal.
  unfold c, sphericalToCartesian. cbn [Cartesian.z].
  replace (r * cos theta / r) with (cos theta) by (field; lra).
  now apply acos_cos.
Qed.

(** C8 (as stated, refuted).  Two points of the stated domain that the
    round trip does not return: at phi = 3 PI / 2 the azimuth comes back
    as - PI / 2, and on the axis theta = 0 the azimuth PI / 2 comes back
    as 0. *)
Lemma round_trip_loses_azimuth :
  let c := sphericalToCartesian 1 (PI / 2) (3 * (PI / 2)) in
  let d := sphericalToCartesian 1 0 (PI / 2) in
  (0 <= PI / 2 <= PI /\ 0 <= 3 * (PI / 2) < 2 * PI /\ 0 <= PI / 2 < 2 * PI)
  /\ cartesianToSpherical (Cartesian.x c) (Cartesian.y c) (Cartesian.z c)
     = Spherical.mk 1 (PI / 2) (- (PI / 2))
  /\ cartesianToSpherical (Cartesian.x c) (Cartesian.y c) (Cartesian.z c)
     <> Spherical.mk 1 (PI / 2) (3 * (PI / 2))
  /\ cartesianToSpherical (Cartesian.x d) (Cartesian.y d) (Cartesian.z d)
     = Spherical.mk 1 0 0
  /\ cartesianToSpherical (Cartesian.x d) (Cartesian.y d) (Cartesian.z d)
     <> Spherical.mk 1 0 (PI / 2).
Proof.
  pose proof PI_RGT_0 as Hpi.
  intros c d.
  assert (Ec : cartesianToSpherical (Cartesian.x c) (Cartesian.y c) (Cartesian.z c)
               = Spherical.mk 1 (PI / 2) (- (PI / 2))).
  { unfold c. rewrite round_trip by lra. f_equal.
    unfold sphericalToCartesian. cbn [Cartesian.x Cartesian.y].
    rewrite sin_PI2, cos_3PI2, sin_3PI2.
    replace (1 * 1 * 0) with 0 by ring. apply atan2_down. lra. }
  assert (Ed : cartesianToSpherical (Cartesian.x d) (Cartesian.y d) (Cartesian.z d)
               = Spherical.mk 1 0 0).
  { unfold d. rewrite round_trip by lra. f_equal.
    unfold sphericalToCartesian. cbn [Cartesian.x Cartesian.y].
    rewrite sin_0. replace (1 * 0 * cos (PI / 2)) with 0 by ring.
    replace (1 * 0 * sin (PI / 2)) with 0 by ring. apply atan2_origin. }
  split; [lra|]. split; [exact Ec|]. split.
  - rewrite Ec. intros H. apply (f_equal Spherical.phi) in H. cbn in H. lra.
  - split; [exact Ed|]. rewrite Ed. intros H.
    apply (f_equal Spherical.phi) in H. cbn in H. lra.
Qed.

(** C8 (amended).  In exact arithmetic, for [r > 0]:
    with [0 < theta < PI] the round trip returns [(r, theta, phi)] when
    [- PI < phi <= PI] - in particular for [0 <= phi <= PI] - and
    [(r, theta, phi - 2 PI)] when [PI < phi < 2 PI]; on the axis
    ([theta = 0] or [theta = PI]) it returns [(r, theta, 0)].  At
    [r = 0] the point is the origin and [cartesianToSpherical] returns
    [(0, 0, 0)]. *)
Theorem round_trip_of_coordinates :
  (forall r theta phi : R,
      0 < r -> 0 < theta < PI -> - PI < phi <= PI ->
      let c := sphericalToCartesian r theta phi in
      cartesianToSpherical (Cartesian.x c) (Cartesian.y c) (Cartesian.z c)
      = Spherical.mk r theta phi)
  /\ (forall r theta phi : R,
         0 < r -> 0 < theta < PI -> PI < phi < 2 * PI ->
         let c := sphericalToCartesian r theta phi in
         cartesianToSpherical (Cartesian.x c) (Cartesian.y c) (Cartesian.z c)
         = Spherical.mk r theta (phi - 2 * PI))
  /\ (forall r theta phi : R,
         0 < r -> theta = 0 \/ theta = PI ->
         let c := sphericalToCartesian r theta phi in
         cartesianToSpherical (Cartesian.x c) (Cartesian.y c) (Cartesian.z c)
         = Spherical.mk r theta 0)
  /\ (forall theta phi : R,
         let c := sphericalToCartesian 0 theta phi in
         cartesianToSpherical (Cartesian.x c) (Cartesian.y c) (Cartesian.z c)
         = Spherical.mk 0 0 0)
  /\ cartesianToSpherical 0 0 0 = Spherical.mk 0 0 0.
Proof.
  pose proof PI_RGT_0 as Hpi.
  assert (Hmain : forall r theta phi : R,
             0 < r -> 0 < theta < PI -> - PI < phi <= PI ->
             let c := sphericalToCartesian r theta phi in
             cartesianToSpherical (Cartesian.x c) (Cartesian.y c) (Cartesian.z c)
             = Spherical.mk r theta phi).
  { intros r theta phi Hr Ht Hp c. unfold c.
    rewrite round_trip by lra. f_equal.
    unfold sphericalToCartesian. cbn [Cartesian.x Cartesian.y].
    apply atan2_of_direction; [|exact Hp].
    apply Rmult_lt_0_compat; [exact Hr | apply sin_gt_0; lra]. }
  split; [exact Hmain|]. split; [|split; [|split]].
  - intros r theta phi Hr Ht Hp c.
    assert (E : c = sphericalToCartesian r theta (phi - 2 * PI)).
    { unfold c, sphericalToCartesian.
      rewrite <- (sin_period (phi - 2 * PI) 1), <- (cos_period (phi - 2 * PI) 1).
      replace (phi - 2 * PI + 2 * INR 1 * PI) with phi by (cbn; ring).
      reflexivity. }
    rewrite E. apply Hmain; lra.
  - intros r theta phi Hr Ht c. unfold c.
    rewrite round_trip by (destruct Ht; subst; lra). f_equal.
    unfold sphericalToCartesian. cbn [Cartesian.x Cartesian.y].
    assert (Hs : sin theta = 0) by (destruct Ht; subst; [apply sin_0 | apply sin_PI]).
    rewrite Hs.
    replace (r * 0 * cos phi) with 0 by ring. replace (r * 0 * sin phi) with 0 by ring.
    apply atan2_origin.
  - intros theta phi c. unfold c, sphericalToCartesian, cartesianToSpherical.
    cbn [Cartesian.x Cartesian.y Cartesian.z].
    match goal with |- context [sqrt ?a] => replace a with 0 by ring end.
    rewrite sqrt_0. destruct (Req_dec_T 0 0); [reflexivity | contradiction].
  - unfold cartesianToSpherical.
    replace (0 * 0 + 0 * 0 + 0 * 0) with 0 by ring.
    rewrite sqrt_0. destruct (Req_dec_T 0 0); [reflexivity | contradiction].
Qed.

Lemma round_trip_of_coordinates_witness :
  (let c := sphericalToCartesian 2 (PI / 2) (PI / 4) in
   cartesianToSpherical (Cartesian.x c) (Cartesian.y c) (Cartesian.z c)
   = Spherical.mk 2 (PI / 2) (PI / 4))
  /\ (let c := sphericalToCartesian 2 (PI / 2) (3 * (PI / 2)) in
      cartesianToSpherical (Cartesian.x c) (Cartesian.y c) (Cartesian.z c)
      = Spherical.mk 2 (PI / 2) (3 * (PI / 2) - 2 * PI))
  /\ (let c := sphericalToCartesian 2 0 1 in
      cartesianToSpherical (Cartesian.x c) (Cartesian.y c) (Cartesian.z c)
      = Spherical.mk 2 0 0).
Proof.
  pose proof PI_RGT_0 as Hpi.
  destruct round_trip_of_coordinates as (H1 & H2 & H3 & _).
  split; [|split].
  - apply H1; lra.
  - apply H2; lra.
  - apply H3; [lra | now left].
Defined.

(** ** The max-probability cache *)

Lemma Reqb_eq (x y : R) : Reqb x y = true <-> x = y.
Proof.
  unfold Reqb. destruct (Req_dec_T x y); split; intros H; trivial;
    [discriminate | contradiction].
Qed.

Lemma key_eqb_eq (a b : cache_key) : key_eqb a b = true <-> a = b.
Proof.
  destruct a as [[[n1 l1] m1] z1], b as [[[n2 l2] m2] z2]. unfold key_eqb.
  rewrite !andb_true_iff, !Z.eqb_eq, Reqb_eq. split.
  - intros [[[-> ->] ->] ->]. reflexivity.
  - intros H. injection H as -> -> -> ->. auto.
Qed.

Lemma key_eqb_refl (a : cache_key) : key_eqb a a = true.
Proof. now apply key_eqb_eq. Qed.

Lemma Map_get_set_same (c : list (cache_key * R)) (k : cache_key) (v : R) :
  Map_get (Map_set c k v) k = Some v.
Proof.
  induction c as [|[k' v'] t IH]; cbn.
  - now rewrite key_eqb_refl.
  - destruct (key_eqb k' k) eqn:E; cbn; rewrite E; [reflexivity | exact IH].
Qed.

Lemma Map_get_set_other (c : list (cache_key * R)) (k k' : cache_key) (v : R) :
  k' <> k -> Map_get (Map_set c k' v) k = Map_get c k.
Proof.
  intros Hne. induction c as [|[k0 v0] t IH]; cbn.
  - destruct (key_eqb k' k) eqn:E; [apply key_eqb_eq in E; contradiction | reflexivity].
  - destruct (key_eqb k0 k') eqn:E0; cbn.
    + apply key_eqb_eq in E0. subst k0.
      destruct (key_eqb k' k) eqn:E; [apply key_eqb_eq in E; contradiction | reflexivity].
    + destruct (key_eqb k0 k); [reflexivity | exact IH].
Qed.

Lemma findMaxProbability_unfold (n l m : Z) (Zeff : R) (samples : Z) :
  findMaxProbability n l m Zeff samples =
  (maxP <- repeatM (Z.to_nat samples)
             (density_sample n l m Zeff (maxRadialExtent n l Zeff)) 0 ;;
   ret (maxP * 1.2)).
Proof. reflexivity. Qed.

Lemma density_sample_world (n l m : Z) (Zeff maxR acc : R) (w : world) :
  snd (density_sample n l m Zeff maxR acc w) = advanced w 3 (density_warnings n l m).
Proof.
  unfold density_sample, bind, Math_random. cbn [draws drawn console maxProbabilityCache].
  rewrite probabilityDensity_run. reflexivity.
Qed.

(** [findMaxProbability] draws and may warn; it does not touch the
    cache, and each of its samples consumes three draws. *)
Lemma findMaxProbability_world (n l m : Z) (Zeff : R) (samples : Z) (w : world) :
  snd (findMaxProbability n l m Zeff samples w)
  = advanced w (3 * Z.to_nat samples)
      (repeated_warnings (Z.to_nat samples) (density_warnings n l m)).
Proof.
  rewrite findMaxProbability_unfold. unfold bind.
  assert (H : forall k acc w0,
             snd (repeatM k (density_sample n l m Zeff (maxRadialExtent n l Zeff)) acc w0)
             = advanced w0 (3 * k) (repeated_warnings k (density_warnings n l m))).
  { induction k as [|k IH]; intros acc w0.
    - cbn. now rewrite advanced_0.
    - cbn [repeatM]. unfold bind.
      pose proof (density_sample_world n l m Zeff (maxRadialExtent n l Zeff) acc w0) as Hs.
      destruct (density_sample n l m Zeff (maxRadialExtent n l Zeff) acc w0) as [a w1].
      cbn [snd] in Hs. subst w1.
      rewrite IH, advanced_advanced. cbn [repeated_warnings]. f_equal. lia. }
  specialize (H (Z.to_nat samples) 0 w).
  destruct (repeatM _ _ _ _) as [v w1]. exact H.
Qed.

(** A call of [getMaxProbability], case by case. *)
Lemma getMaxProbability_hit (n l m : Z) (Zeff v : R) (w : world) :
  Map_get (maxProbabilityCache w) (n, l, m, Zeff) = Some v ->
  getMaxProbability n l m Zeff w = (Some v, w).
Proof.
  intros H. unfold getMaxProbability, bind, cache_has, cache_get, Map_has.
  rewrite H. cbn. now rewrite H.
Qed.

Lemma getMaxProbability_miss (n l m : Z) (Zeff : R) (w : world) :
  Map_get (maxProbabilityCache w) (n, l, m, Zeff) = None ->
  let v := fst (findMaxProbability n l m Zeff 2000 w) in
  let w1 := snd (findMaxProbability n l m Zeff 2000 w) in
  getMaxProbability n l m Zeff w
  = (Some v,
     mkWorld (draws w1) (drawn w1) (console w1)
       (Map_set (maxProbabilityCache w) (n, l, m, Zeff) v))
  /\ drawn w1 = (3 * Z.to_nat 2000 + drawn w)%nat.
Proof.
  intros H. cbv zeta.
  pose proof (findMaxProbability_world n l m Zeff 2000 w) as Hw.
  unfold getMaxProbability, bind, cache_has, cache_get, Map_has.
  rewrite H. cbn [negb].
  destruct (findMaxProbability n l m Zeff 2000 w) as [v w1].
  cbn [fst snd] in *. unfold cache_set. cbn [maxProbabilityCache].
  rewrite Hw. unfold advanced. cbn [draws drawn console maxProbabilityCache].
  rewrite Map_get_set_same. split; reflexivity.
Qed.

(** No call other than [clearProbabilityCache] removes or changes an
    entry. *)
Lemma run_call_keeps (c : call) (w : world) (k : cache_key) (v : R) :
  is_clear c = false ->
  Map_get (maxProbabilityCache w) k = Some v ->
  Map_get (maxProbabilityCache (run_call c w)) k = Some v.
Proof.
  intros Hc Hk. destruct c as [n l m Zeff | n l m numPoints Zeff |]; cbn [run_call].
  - destruct (Map_get (maxProbabilityCache w) (n, l, m, Zeff)) as [v'|] eqn:E.
    + now rewrite (getMaxProbability_hit n l m Zeff v' w E).
    + destruct (getMaxProbability_miss n l m Zeff w E) as [Hrun _].
      rewrite Hrun. cbn [snd maxProbabilityCache].
      rewrite Map_get_set_other; [exact Hk|].
      intros <-. rewrite Hk in E. discriminate E.
  - destruct (Z_lt_le_dec numPoints 0) as [Hneg|Hpos].
    + now rewrite sampleOrbital_negative.
    + destruct (sampleOrbital_returns n l m numPoints Zeff w Hpos) as (b & w' & Hrun & Hcache).
      rewrite Hrun. cbn [snd]. now rewrite Hcache.
  - discriminate Hc.
Qed.

Lemma run_calls_keep (cs : list call) : forall (w : world) (k : cache_key) (v : R),
  forallb (fun c => negb (is_clear c)) cs = true ->
  Map_get (maxProbabilityCache w) k = Some v ->
  Map_get (maxProbabilityCache (run_calls cs w)) k = Some v.
Proof.
  induction cs as [|c cs IH]; intros w k v Hcs Hk.
  - exact Hk.
  - cbn in Hcs. apply andb_true_iff in Hcs as [Hc Hcs].
    apply negb_true_iff in Hc.
    cbn [run_calls fold_left]. apply IH; [exact Hcs|].
    now apply run_call_keeps.
Qed.

(** C9.  A call [getMaxProbability(n, l, m, Z)] returns a number and
    leaves it stored under its key.  A call that finds its key stored
    returns the stored number and changes nothing: no draw is consumed,
    nothing is recomputed.  So after a first call, and after any further
    calls of [getMaxProbability] and [sampleOrbital] - none of them
    [clearProbabilityCache] - the entry is still the same, and a later
    call with the same key returns it without recomputation.  A first
    call on a key not yet stored computes it from 3 * 2000 draws.
    [clearProbabilityCache] empties the cache. *)
Theorem cache_computes_once :
  (forall (n l m : Z) (Zeff : R) (w : world),
      exists v : R,
        fst (getMaxProbability n l m Zeff w) = Some v
        /\ Map_get (maxProbabilityCache (snd (getMaxProbability n l m Zeff w)))
             (n, l, m, Zeff) = Some v
        /\ forall cs : list call,
            forallb (fun c => negb (is_clear c)) cs = true ->
            let w2 := run_calls cs (snd (getMaxProbability n l m Zeff w)) in
            Map_get (maxProbabilityCache w2) (n, l, m, Zeff) = Some v
            /\ getMaxProbability n l m Zeff w2 = (Some v, w2))
  /\ (forall (n l m : Z) (Zeff v : R) (w : world),
         Map_get (maxProbabilityCache w) (n, l, m, Zeff) = Some v ->
         getMaxProbability n l m Zeff w = (Some v, w))
  /\ (forall (n l m : Z) (Zeff : R) (w : world),
         Map_get (maxProbabilityCache w) (n, l, m, Zeff) = None ->
         drawn (snd (getMaxProbability n l m Zeff w)) = (3 * Z.to_nat 2000 + drawn w)%nat)
  /\ (forall (w : world) (k : cache_key),
         Map_get (maxProbabilityCache (snd (clearProbabilityCache w))) k = None).
Proof.
  split; [|split; [|split]].
  - intros n l m Zeff w.
    assert (H : exists v, fst (getMaxProbability n l m Zeff w) = Some v
                          /\ Map_get (maxProbabilityCache (snd (getMaxProbability n l m Zeff w)))
                               (n, l, m, Zeff) = Some v).
    { destruct (Map_get (maxProbabilityCache w) (n, l, m, Zeff)) as [v|] eqn:E.
      - exists v. rewrite (getMaxProbability_hit n l m Zeff v w E). now split.
      - destruct (getMaxProbability_miss n l m Zeff w E) as [Hrun _].
        eexists. rewrite Hrun. cbn [fst snd maxProbabilityCache].
        split; [reflexivity | apply Map_get_set_same]. }
    destruct H as (v & Hv & Hstored). exists v.
    split; [exact Hv|]. split; [exact Hstored|].
    intros cs Hcs w2.
    assert (Hkept : Map_get (maxProbabilityCache w2) (n, l, m, Zeff) = Some v)
      by (apply run_calls_keep; assumption).
    split; [exact Hkept | now apply getMaxProbability_hit].
  - exact getMaxProbability_hit.
  - intros n l m Zeff w E.
    destruct (getMaxProbability_miss n l m Zeff w E) as [Hrun Hd].
    rewrite Hrun. cbn [snd drawn]. exact Hd.
  - intros w k. reflexivity.
Qed.

Lemma cache_computes_once_witness :
  let w := mkWorld (fun _ => 1 / 2) 0 [] [] in
  let w1 := snd (getMaxProbability 2 1 0 1 w) in
  let w2 := run_calls [CallGetMaxProbability 1 0 0 1; CallSampleOrbital 2 1 0 3 1;
                       CallGetMaxProbability 2 1 0 2] w1 in
  (exists v : R,
      fst (getMaxProbability 2 1 0 1 w) = Some v
      /\ getMaxProbability 2 1 0 1 w2 = (Some v, w2))
  /\ drawn w1 = (3 * Z.to_nat 2000)%nat.
Proof.
  intros w w1 w2.
  destruct cache_computes_once as (Hfirst & _ & Hmiss & _).
  split.
  - destruct (Hfirst 2%Z 1%Z 0%Z 1 w) as (v & Hv & _ & Hlater).
    exists v. split; [exact Hv|].
    apply (Hlater [CallGetMaxProbability 1 0 0 1; CallSampleOrbital 2 1 0 3 1;
                   CallGetMaxProbability 2 1 0 2]).
    reflexivity.
  - unfold w1. rewrite (Hmiss 2%Z 1%Z 0%Z 1 w); [cbn [drawn w]; lia | reflexivity].
Defined.

(** * Further properties of the code *)

(** ** The electron configurations *)

Example generateElectronConfiguration_lithium :
  generateElectronConfiguration 3
  = [Orbital.mk 1 0 0 2; Orbital.mk 2 0 0 1].
Proof. reflexivity. Qed.

Example generateSubshellConfiguration_neon :
  generateSubshellConfiguration 10
  = [Subshell.mk 1 0 2; Subshell.mk 2 0 2; Subshell.mk 2 1 6].
Proof. reflexivity. Qed.

Lemma orbital_electrons_app (a b : list Orbital.t) :
  orbital_electrons (a ++ b) = (orbital_electrons a + orbital_electrons b)%Z.
Proof.
  induction a as [|o a IH]; cbn; [reflexivity|].
  unfold orbital_electrons in *. cbn. rewrite IH. lia.
Qed.

Lemma subshell_electrons_app (a b : list Subshell.t) :
  subshell_electrons (a ++ b) = (subshell_electrons a + subshell_electrons b)%Z.
Proof.
  induction a as [|o a IH]; cbn; [reflexivity|].
  unfold subshell_electrons in *. cbn. rewrite IH. lia.
Qed.

Lemma orbital_electrons_cons (o : Orbital.t) (rest : list Orbital.t) :
  orbital_electrons (o :: rest) = (Orbital.electrons o + orbital_electrons rest)%Z.
Proof. reflexivity. Qed.

Lemma orbital_electrons_nonneg (entries : list Orbital.t) :
  Forall (fun o => (1 <= Orbital.electrons o)%Z) entries ->
  (0 <= orbital_electrons entries)%Z
  /\ (entries <> [] -> (1 <= orbital_electrons entries)%Z).
Proof.
  induction 1 as [|o rest Ho _ IH]; [split; [cbn; lia | congruence]|].
  rewrite orbital_electrons_cons. split; [lia|]. intros _. lia.
Qed.

(** The loop over [m]: from [remaining] electrons it hands out 2 per
    orbital, 1 to the last if [remaining] is odd, until the orbitals or
    the electrons run out. *)
Lemma fill_orbitals (n l : Z) (count : nat) :
  forall (k : Z) (config : list Orbital.t) (remaining : Z),
  exists entries : list Orbital.t,
    for_range_while k count
      (fun '(config, remaining) => (remaining >? 0)%Z)
      (fun m '(config, remaining) =>
         let electronsInOrbital := Z.min 2 remaining in
         (config ++ [Orbital.mk n l m electronsInOrbital],
          (remaining - electronsInOrbital)%Z))
      (config, remaining)
    = (config ++ entries, (remaining - orbital_electrons entries)%Z)
    /\ orbital_electrons entries = Z.min (Z.max remaining 0) (2 * Z.of_nat count)
    /\ Forall (fun o => Orbital.n o = n /\ Orbital.l o = l
                        /\ (k <= Orbital.m o < k + Z.of_nat count)%Z
                        /\ (1 <= Orbital.electrons o <= 2)%Z) entries
    /\ ((0 < remaining - orbital_electrons entries)%Z ->
        Forall (fun o => Orbital.electrons o = 2%Z) entries)
    /\ Forall (fun o => Orbital.electrons o = 2%Z) (removelast entries).
Proof.
  set (cond := fun '((config, remaining) : list Orbital.t * Z) => (remaining >? 0)%Z).
  set (body := fun (m : Z) '((config, remaining) : list Orbital.t * Z) =>
                 let electronsInOrbital := Z.min 2 remaining in
                 (config ++ [Orbital.mk n l m electronsInOrbital],
                  (remaining - electronsInOrbital)%Z)).
  induction count as [|c IH]; intros k config remaining.
  - exists []. cbn [for_range_while]. rewrite app_nil_r.
    split; [f_equal; cbn; lia|]. split; [cbn; lia|]. split; [constructor|].
    split; [intros _|]; constructor.
  - cbn [for_range_while].
    change (cond (config, remaining)) with (remaining >? 0)%Z.
    change (body k (config, remaining))
      with (config ++ [Orbital.mk n l k (Z.min 2 remaining)],
            (remaining - Z.min 2 remaining)%Z).
    destruct (remaining >? 0)%Z eqn:Hpos.
    + apply Z.gtb_gt in Hpos.
      destruct (IH (k + 1)%Z (config ++ [Orbital.mk n l k (Z.min 2 remaining)])
                  (remaining - Z.min 2 remaining)%Z)
        as (entries & Hrun & Hsum & Hall & Hleft & Hlast).
      exists (Orbital.mk n l k (Z.min 2 remaining) :: entries).
      rewrite Hrun, <- app_assoc. cbn [app]. rewrite orbital_electrons_cons.
      cbn [Orbital.electrons].
      assert (Hge : Forall (fun o => (1 <= Orbital.electrons o)%Z) entries).
      { eapply Forall_impl; [|exact Hall]. cbn. intros o (_ & _ & _ & He). lia. }
      destruct (orbital_electrons_nonneg entries Hge) as [Hnn Hne].
      split; [f_equal; lia|]. split; [lia|]. split.
      { constructor.
        - cbn [Orbital.n Orbital.l Orbital.m Orbital.electrons]. repeat split; lia.
        - eapply Forall_impl; [|exact Hall]. cbn. intros o (Hn & Hl & Hm & He).
          repeat split; try assumption; lia. }
      split.
      { intros Hrest. constructor; [cbn [Orbital.electrons]; lia|].
        apply Hleft. lia. }
      destruct entries as [|o entries'].
      * constructor.
      * change (removelast (Orbital.mk n l k (Z.min 2 remaining) :: o :: entries'))
          with (Orbital.mk n l k (Z.min 2 remaining) :: removelast (o :: entries')).
        constructor; [|exact Hlast]. cbn [Orbital.electrons].
        assert (H1 : (1 <= orbital_electrons (o :: entries'))%Z) by (apply Hne; congruence).
        lia.
    + assert (Hle : (remaining <= 0)%Z).
      { destruct (Z_le_gt_dec remaining 0) as [H|H]; [exact H|].
        apply Z.gtb_gt in H. rewrite H in Hpos. discriminate Hpos. }
      exists []. rewrite app_nil_r.
      split; [f_equal; cbn; lia|]. split; [cbn; lia|]. split; [constructor|].
      split; [intros _|]; constructor.
Qed.

Lemma capacity_cons (n l : Z) (order : list (Z * Z)) :
  capacity ((n, l) :: order) = (2 * (2 * l + 1) + capacity order)%Z.
Proof. reflexivity. Qed.

Lemma capacity_nonneg (order : list (Z * Z)) :
  Forall (fun '(n, l) => (0 <= l < n)%Z) order -> (0 <= capacity order)%Z.
Proof.
  induction 1 as [|[n l] order H _ IH]; [cbn; lia|].
  rewrite capacity_cons. lia.
Qed.

(** The loop over the subshells, for any filling order of genuine
    subshells. *)
Lemma fill_subshells (order : list (Z * Z)) :
  Forall (fun '(n, l) => (0 <= l < n)%Z) order ->
  forall (config : list Orbital.t) (remaining : Z),
  exists entries : list Orbital.t,
    for_of_break order
      (fun '(config, remaining) => (remaining <=? 0)%Z)
      (fun '(n, l) st =>
         for_range_while (- l)%Z (Z.to_nat (l - (- l) + 1))
           (fun '(config, remaining) => (remaining >? 0)%Z)
           (fun m '(config, remaining) =>
              let electronsInOrbital := Z.min 2 remaining in
              (config ++ [Orbital.mk n l m electronsInOrbital],
               (remaining - electronsInOrbital)%Z))
           st)
      (config, remaining)
    = (config ++ entries, (remaining - orbital_electrons entries)%Z)
    /\ orbital_electrons entries = Z.min (Z.max remaining 0) (capacity order)
    /\ Forall (fun o => valid_orbital o /\ (1 <= Orbital.electrons o <= 2)%Z
                        /\ In (Orbital.n o, Orbital.l o) order) entries
    /\ ((0 < remaining - orbital_electrons entries)%Z ->
        Forall (fun o => Orbital.electrons o = 2%Z) entries)
    /\ Forall (fun o => Orbital.electrons o = 2%Z) (removelast entries).
Proof.
  intros Hord. induction Hord as [|[n l] order Hnl Hord IH]; intros config remaining.
  - exists []. cbn [for_of_break]. rewrite app_nil_r.
    split; [f_equal; cbn; lia|]. split; [cbn; lia|]. split; [constructor|].
    split; [intros _|]; constructor.
  - pose proof (capacity_nonneg order Hord) as Hcap.
    cbn [for_of_break].
    destruct (remaining <=? 0)%Z eqn:Hstop.
    + apply Z.leb_le in Hstop. exists []. rewrite app_nil_r.
      split; [f_equal; cbn; lia|].
      split; [rewrite capacity_cons; change (orbital_electrons []) with 0%Z; lia|].
      split; [constructor|]. split; [intros _|]; constructor.
    + apply Z.leb_gt in Hstop.
      destruct (fill_orbitals n l (Z.to_nat (l - - l + 1)) (- l)%Z config remaining)
        as (e1 & Hrun1 & Hsum1 & Hall1 & Hleft1 & Hlast1).
      cbv beta iota zeta. cbv zeta in Hrun1, IH. rewrite Hrun1.
      destruct (IH (config ++ e1) (remaining - orbital_electrons e1)%Z)
        as (e2 & Hrun2 & Hsum2 & Hall2 & Hleft2 & Hlast2).
      assert (Hge : Forall (fun o => (1 <= Orbital.electrons o)%Z) e2).
      { eapply Forall_impl; [|exact Hall2]. cbn. intros o (_ & He & _). lia. }
      destruct (orbital_electrons_nonneg e2 Hge) as [Hnn Hne].
      exists (e1 ++ e2). rewrite Hrun2, <- app_assoc, orbital_electrons_app.
      split; [f_equal; lia|]. split; [rewrite Hsum2, Hsum1, capacity_cons; lia|].
      split.
      { apply Forall_app. split.
        - eapply Forall_impl; [|exact Hall1]. cbn.
          intros o (Hn & Hl & Hm & He). split; [|split].
          + unfold valid_orbital. rewrite Hn, Hl. lia.
          + exact He.
          + rewrite Hn, Hl. now left.
        - eapply Forall_impl; [|exact Hall2]. cbn.
          intros o (Hv & He & Hin). split; [exact Hv|]. split; [exact He | now right]. }
      split.
      { intros Hrest. apply Forall_app. split; [apply Hleft1 | apply Hleft2]; lia. }
      destruct e2 as [|o e2'].
      * rewrite app_nil_r. exact Hlast1.
      * rewrite removelast_app by congruence. apply Forall_app. split; [|exact Hlast2].
        apply Hleft1.
        assert (H1 : (1 <= orbital_electrons (o :: e2'))%Z) by (apply Hne; congruence).
        lia.
Qed.

Lemma AUFBAU_ORDER_subshells : Forall (fun '(n, l) => (0 <= l < n)%Z) AUFBAU_ORDER.
Proof. unfold AUFBAU_ORDER. repeat constructor; lia. Qed.

Lemma AUFBAU_ORDER_capacity : capacity AUFBAU_ORDER = 118%Z.
Proof. reflexivity. Qed.

Lemma orbitals_of_app (n l : Z) (a b : list Orbital.t) :
  orbitals_of n l (a ++ b) = orbitals_of n l a ++ orbitals_of n l b.
Proof. apply filter_app. Qed.

(** The orbitals of one subshell, seen from subshell [(n, l)]. *)
Lemma orbitals_of_one_subshell (n l n0 l0 : Z) (entries : list Orbital.t) :
  Forall (fun o => Orbital.n o = n0 /\ Orbital.l o = l0) entries ->
  orbital_electrons (orbitals_of n l entries)
  = if ((n0 =? n)%Z && (l0 =? l)%Z)%bool then orbital_electrons entries else 0%Z.
Proof.
  induction 1 as [|o entries [Hn Hl] _ IH].
  - now destruct (_ && _)%bool.
  - cbn [orbitals_of filter]. rewrite Hn, Hl. fold (orbitals_of n l entries).
    destruct ((n0 =? n)%Z && (l0 =? l)%Z)%bool.
    + change (orbital_electrons (o :: orbitals_of n l entries))
        with (Orbital.electrons o + orbital_electrons (orbitals_of n l entries))%Z.
      rewrite IH. reflexivity.
    + exact IH.
Qed.

Lemma allotted_nothing (order : list (Z * Z)) (n l : Z) :
  Forall (fun '(n, l) => (0 <= l < n)%Z) order ->
  forall r : Z, (r <= 0)%Z -> allotted order r n l = 0%Z.
Proof.
  induction 1 as [|[n1 l1] rest Hnl _ IH]; intros r Hr; cbn [allotted]; [reflexivity|].
  cbv zeta. replace (Z.min (Z.max r 0) (2 * (2 * l1 + 1))) with 0%Z by lia.
  rewrite IH by lia. now destruct (_ && _)%bool.
Qed.

(** Subshell by subshell, the loop of [generateElectronConfiguration]
    hands out [allotted]. *)
Lemma fill_subshells_allotted (order : list (Z * Z)) :
  Forall (fun '(n, l) => (0 <= l < n)%Z) order ->
  forall (config : list Orbital.t) (remaining n l : Z),
  exists entries : list Orbital.t,
    for_of_break order
      (fun '(config, remaining) => (remaining <=? 0)%Z)
      (fun '(n, l) st =>
         for_range_while (- l)%Z (Z.to_nat (l - (- l) + 1))
           (fun '(config, remaining) => (remaining >? 0)%Z)
           (fun m '(config, remaining) =>
              let electronsInOrbital := Z.min 2 remaining in
              (config ++ [Orbital.mk n l m electronsInOrbital],
               (remaining - electronsInOrbital)%Z))
           st)
      (config, remaining)
    = (config ++ entries, (remaining - orbital_electrons entries)%Z)
    /\ orbital_electrons (orbitals_of n l entries) = allotted order remaining n l.
Proof.
  intros Hord. induction Hord as [|[n0 l0] order Hnl Hord IH]; intros config remaining n l.
  - exists []. cbn [for_of_break]. rewrite app_nil_r.
    split; [f_equal; cbn; lia | reflexivity].
  - cbn [for_of_break].
    destruct (remaining <=? 0)%Z eqn:Hstop.
    + apply Z.leb_le in Hstop. exists []. rewrite app_nil_r.
      split; [f_equal; cbn; lia|].
      rewrite allotted_nothing; [reflexivity | now constructor | exact Hstop].
    + apply Z.leb_gt in Hstop.
      destruct (fill_orbitals n0 l0 (Z.to_nat (l0 - - l0 + 1)) (- l0)%Z config remaining)
        as (e1 & Hrun1 & Hsum1 & Hall1 & _ & _).
      cbv beta iota zeta. cbv zeta in Hrun1, IH. rewrite Hrun1.
      destruct (IH (config ++ e1) (remaining - orbital_electrons e1)%Z n l)
        as (e2 & Hrun2 & Hsum2).
      exists (e1 ++ e2). rewrite Hrun2, <- app_assoc, orbital_electrons_app.
      split; [f_equal; lia|].
      rewrite orbitals_of_app, orbital_electrons_app, Hsum2.
      rewrite (orbitals_of_one_subshell n l n0 l0 e1).
      * cbn [allotted]. cbv zeta. rewrite Hsum1.
        replace (2 * Z.of_nat (Z.to_nat (l0 - - l0 + 1)))%Z with (2 * (2 * l0 + 1))%Z by lia.
        reflexivity.
      * eapply Forall_impl; [|exact Hall1]. cbn. intros o (Hn & Hl & _). now split.
Qed.

(** The loop of [generateSubshellConfiguration], for any filling order
    of genuine subshells. *)
Lemma fill_whole_subshells (order : list (Z * Z)) :
  Forall (fun '(n, l) => (0 <= l < n)%Z) order ->
  forall (config : list Subshell.t) (remaining n l : Z),
  exists entries : list Subshell.t,
    for_of_break order
      (fun '(config, remaining) => (remaining <=? 0)%Z)
      (fun '(n, l) '(config, remaining) =>
         let maxElectrons := (2 * (2 * l + 1))%Z in
         let electrons := Z.min remaining maxElectrons in
         if (electrons >? 0)%Z
         then (config ++ [Subshell.mk n l electrons], (remaining - electrons)%Z)
         else (config, remaining))
      (config, remaining)
    = (config ++ entries, (remaining - subshell_electrons entries)%Z)
    /\ subshell_electrons entries = Z.min (Z.max remaining 0) (capacity order)
    /\ subshell_electrons (subshells_of n l entries) = allotted order remaining n l
    /\ Forall (fun s => In (Subshell.n s, Subshell.l s) order
                        /\ (1 <= Subshell.electrons s <= 2 * (2 * Subshell.l s + 1))%Z)
         entries
    /\ Forall (fun s => Subshell.electrons s = (2 * (2 * Subshell.l s + 1))%Z)
         (removelast entries).
Proof.
  intros Hord. induction Hord as [|[n0 l0] order Hnl Hord IH]; intros config remaining n l.
  - exists []. cbn [for_of_break]. rewrite app_nil_r.
    split; [f_equal; cbn; lia|]. split; [cbn; lia|]. split; [reflexivity|].
    split; constructor.
  - pose proof (capacity_nonneg order Hord) as Hcap.
    cbn [for_of_break].
    destruct (remaining <=? 0)%Z eqn:Hstop.
    + apply Z.leb_le in Hstop. exists []. rewrite app_nil_r.
      split; [f_equal; cbn; lia|].
      split; [rewrite capacity_cons; change (subshell_electrons []) with 0%Z; lia|].
      split; [rewrite allotted_nothing; [reflexivity | now constructor | exact Hstop]|].
      split; constructor.
    + apply Z.leb_gt in Hstop. cbv beta iota zeta. cbv zeta in IH.
      assert (Hpos : (Z.min remaining (2 * (2 * l0 + 1)) >? 0)%Z = true)
        by (apply Z.gtb_gt; lia).
      rewrite Hpos.
      set (e := Z.min remaining (2 * (2 * l0 + 1))) in *.
      destruct (IH (config ++ [Subshell.mk n0 l0 e]) (remaining - e)%Z n l)
        as (rest & Hrun & Hsum & Hall & Hin & Hfull).
      exists (Subshell.mk n0 l0 e :: rest).
      rewrite Hrun, <- app_assoc. cbn [app].
      change (subshell_electrons (Subshell.mk n0 l0 e :: rest))
        with (e + subshell_electrons rest)%Z.
      split; [f_equal; lia|].
      split; [rewrite Hsum, capacity_cons; unfold e; lia|].
      split.
      { cbn [subshells_of filter allotted Subshell.n Subshell.l]. cbv zeta.
        fold (subshells_of n l rest).
        replace (Z.min (Z.max remaining 0) (2 * (2 * l0 + 1))) with e by (unfold e; lia).
        destruct ((n0 =? n)%Z && (l0 =? l)%Z)%bool.
        - change (subshell_electrons (Subshell.mk n0 l0 e :: subshells_of n l rest))
            with (e + subshell_electrons (subshells_of n l rest))%Z.
          now rewrite Hall.
        - exact Hall. }
      split.
      { constructor.
        - cbn [Subshell.n Subshell.l Subshell.electrons].
          split; [now left | unfold e; lia].
        - eapply Forall_impl; [|exact Hin]. cbn. intros s [H1 H2]. split; [now right | exact H2]. }
      destruct rest as [|s rest'].
      * constructor.
      * change (removelast (Subshell.mk n0 l0 e :: s :: rest'))
          with (Subshell.mk n0 l0 e :: removelast (s :: rest')).
        constructor; [|exact Hfull]. cbn [Subshell.l Subshell.electrons].
        (* a further entry exists: the electrons did not run out here *)
        assert (Hleft : (0 < remaining - e)%Z).
        { destruct (Z_lt_le_dec 0 (remaining - e)) as [H|H]; [exact H|].
          exfalso. rewrite Z.max_l in Hsum by lia.
          change (subshell_electrons (s :: rest'))
            with (Subshell.electrons s + subshell_electrons rest')%Z in Hsum.
          pose proof (Forall_inv Hin) as [_ Hs].
          assert (Hnn : (0 <= subshell_electrons rest')%Z).
          { clear - Hin. apply Forall_inv_tail in Hin.
            induction Hin as [|t ts [_ Ht] _ IHt]; [cbn; lia|].
            change (subshell_electrons (t :: ts))
              with (Subshell.electrons t + subshell_electrons ts)%Z. lia. }
          lia. }
        unfold e in *. lia.
Qed.

(** X1.  [generateElectronConfiguration(electronCount)] places
    [electronCount] electrons, none for a count that is not positive and
    no more than the 118 the filling order holds.  Every orbital it lists
    is a genuine orbital of a subshell of the filling order (1 <= n,
    0 <= l < n, -l <= m <= l) with 1 or 2 electrons, and every orbital
    but the last listed holds 2. *)
Theorem generateElectronConfiguration_fills (electronCount : Z) :
  let config := generateElectronConfiguration electronCount in
  orbital_electrons config = Z.max 0 (Z.min electronCount 118)
  /\ Forall (fun o => valid_orbital o /\ (1 <= Orbital.electrons o <= 2)%Z
                      /\ In (Orbital.n o, Orbital.l o) AUFBAU_ORDER) config
  /\ Forall (fun o => Orbital.electrons o = 2%Z) (removelast config)
  /\ ((electronCount <= 0)%Z <-> config = []).
Proof.
  unfold generateElectronConfiguration.
  destruct (fill_subshells AUFBAU_ORDER AUFBAU_ORDER_subshells [] electronCount)
    as (entries & Hrun & Hsum & Hall & _ & Hlast).
  cbv zeta in Hrun |- *. rewrite Hrun. cbn [fst app].
  rewrite AUFBAU_ORDER_capacity in Hsum.
  split; [lia|]. split; [exact Hall|]. split; [exact Hlast|].
  assert (Hge : Forall (fun o => (1 <= Orbital.electrons o)%Z) entries).
  { eapply Forall_impl; [|exact Hall]. cbn. intros o (_ & He & _). lia. }
  destruct (orbital_electrons_nonneg entries Hge) as [_ Hne].
  split.
  - intros Hc. destruct entries as [|o rest]; [reflexivity|].
    assert (H1 : (1 <= orbital_electrons (o :: rest))%Z) by (apply Hne; congruence).
    lia.
  - intros ->. change (orbital_electrons []) with 0%Z in Hsum. lia.
Qed.

(** X2.  [generateSubshellConfiguration(electronCount)] places the same
    number of electrons, in subshells of the filling order, each holding
    between 1 and 2(2l+1) electrons and each but the last listed full. *)
Theorem generateSubshellConfiguration_fills (electronCount : Z) :
  let config := generateSubshellConfiguration electronCount in
  subshell_electrons config = Z.max 0 (Z.min electronCount 118)
  /\ Forall (fun s => In (Subshell.n s, Subshell.l s) AUFBAU_ORDER
                      /\ (1 <= Subshell.electrons s <= 2 * (2 * Subshell.l s + 1))%Z) config
  /\ Forall (fun s => Subshell.electrons s = (2 * (2 * Subshell.l s + 1))%Z)
       (removelast config)
  /\ ((electronCount <= 0)%Z <-> config = []).
Proof.
  unfold generateSubshellConfiguration.
  destruct (fill_whole_subshells AUFBAU_ORDER AUFBAU_ORDER_subshells [] electronCount 0 0)
    as (entries & Hrun & Hsum & _ & Hall & Hlast).
  cbv zeta in Hrun |- *. rewrite Hrun. cbn [fst app].
  rewrite AUFBAU_ORDER_capacity in Hsum.
  split; [lia|]. split; [exact Hall|]. split; [exact Hlast|].
  split.
  - intros Hc. destruct entries as [|s rest]; [reflexivity|]. exfalso.
    change (subshell_electrons (s :: rest))
      with (Subshell.electrons s + subshell_electrons rest)%Z in Hsum.
    pose proof (Forall_inv Hall) as [_ Hs].
    assert (Hnn : (0 <= subshell_electrons rest)%Z).
    { apply Forall_inv_tail in Hall. clear - Hall.
      induction Hall as [|t ts [_ Ht] _ IHt]; [cbn; lia|].
      change (subshell_electrons (t :: ts))
        with (Subshell.electrons t + subshell_electrons ts)%Z. lia. }
    lia.
  - intros ->. change (subshell_electrons []) with 0%Z in Hsum. lia.
Qed.

(** X3.  The two configurations agree: for every subshell (n, l), the
    electrons of its orbitals in [generateElectronConfiguration] add up to
    the electrons [generateSubshellConfiguration] gives the subshell. *)
Theorem configurations_agree (electronCount n l : Z) :
  orbital_electrons (orbitals_of n l (generateElectronConfiguration electronCount))
  = subshell_electrons (subshells_of n l (generateSubshellConfiguration electronCount)).
Proof.
  unfold generateElectronConfiguration, generateSubshellConfiguration.
  destruct (fill_subshells_allotted AUFBAU_ORDER AUFBAU_ORDER_subshells [] electronCount n l)
    as (eo & Hrun_o & Hsum_o).
  destruct (fill_whole_subshells AUFBAU_ORDER AUFBAU_ORDER_subshells [] electronCount n l)
    as (es & Hrun_s & _ & Hsum_s & _).
  cbv zeta in Hrun_o, Hrun_s |- *. rewrite Hrun_o, Hrun_s. cbn [fst app].
  now rewrite Hsum_o, Hsum_s.
Qed.

(** X4.  The wave functions accept every orbital of a configuration:
    evaluating [probabilityDensity] on one logs no warning and leaves the
    world as it was. *)
Theorem configuration_orbitals_accepted (electronCount : Z) :
  Forall (fun o =>
            forall (r theta phi Zeff : R) (w : world),
              snd (probabilityDensity (Orbital.n o) (Orbital.l o) (Orbital.m o)
                     r theta phi Zeff w) = w)
    (generateElectronConfiguration electronCount).
Proof.
  unfold generateElectronConfiguration.
  destruct (fill_subshells AUFBAU_ORDER AUFBAU_ORDER_subshells [] electronCount)
    as (entries & Hrun & _ & Hall & _).
  cbv zeta in Hrun |- *. rewrite Hrun. cbn [fst app].
  eapply Forall_impl; [|exact Hall]. cbn.
  intros o ((Hn & Hl & Hm) & _) r theta phi Zeff w.
  rewrite probabilityDensity_run. cbn [snd]. unfold density_warnings.
  assert (E1 : radial_invalid (Orbital.n o) (Orbital.l o) = false).
  { unfold radial_invalid. rewrite !orb_false_iff, Z.geb_leb.
    repeat split; [apply Z.ltb_ge | apply Z.ltb_ge | apply Z.leb_gt]; lia. }
  assert (E2 : angular_invalid (Orbital.l o) (Orbital.m o) = false).
  { unfold angular_invalid. rewrite orb_false_iff.
    split; [apply Z.ltb_ge; lia|]. rewrite Z.gtb_ltb. apply Z.ltb_ge. lia. }
  rewrite E1, E2. apply logged_nil.
Qed.

(** ** The special functions *)

Lemma for_range_last {St : Type} (count : nat) :
  forall (k : Z) (body : Z -> St -> St) (s : St),
    for_range k (S count) body s
    = body (k + Z.of_nat count)%Z (for_range k count body s).
Proof.
  induction count as [|c IH]; intros k body s.
  - cbn [for_range]. now rewrite Z.add_0_r.
  - change (for_range k (S (S c)) body s) with (for_range (k + 1)%Z (S c) body (body k s)).
    rewrite IH. cbn [for_range]. f_equal. lia.
Qed.

(** The variables [(L_prev2, L_prev1, L_curr)] of the loop of
    [laguerrePolynomial] after [j] passes. *)
Lemma laguerre_loop (alpha x : R) (j : nat) :
  for_range 2 j
    (fun k '(L_prev2, L_prev1, _) =>
       let L_curr :=
         ((2 * IZR k - 1 + alpha - x) * L_prev1 - (IZR k - 1 + alpha) * L_prev2) / IZR k in
       (L_prev1, L_curr, L_curr))
    (1, 1 + alpha - x, 0)
  = (laguerrePolynomial (Z.of_nat j) alpha x,
     laguerrePolynomial (Z.of_nat j + 1) alpha x,
     match j with O => 0 | S _ => laguerrePolynomial (Z.of_nat j + 1) alpha x end).
Proof.
  set (body := fun (k : Z) '((L_prev2, L_prev1, _) : R * R * R) =>
                 let L_curr :=
                   ((2 * IZR k - 1 + alpha - x) * L_prev1 - (IZR k - 1 + alpha) * L_prev2)
                   / IZR k in
                 (L_prev1, L_curr, L_curr)).
  assert (Hdef : forall i : nat,
             laguerrePolynomial (Z.of_nat i + 2) alpha x
             = snd (for_range 2 (S i) body (1, 1 + alpha - x, 0))).
  { intros i. unfold laguerrePolynomial.
    assert (E0 : (Z.of_nat i + 2 =? 0)%Z = false) by (apply Z.eqb_neq; lia).
    assert (E1 : (Z.of_nat i + 2 =? 1)%Z = false) by (apply Z.eqb_neq; lia).
    rewrite E0, E1. unfold for_upto.
    replace (Z.to_nat (Z.of_nat i + 2 - 2 + 1)) with (S i) by lia.
    fold body. now destruct (for_range 2 (S i) body (1, 1 + alpha - x, 0)) as [[a b] c]. }
  induction j as [|j IH].
  - reflexivity.
  - rewrite for_range_last, IH.
    replace (Z.of_nat (S j) + 1)%Z with (Z.of_nat j + 2)%Z by lia.
    rewrite (Hdef j), for_range_last, IH.
    replace (Z.of_nat (S j)) with (Z.of_nat j + 1)%Z by lia.
    destruct j; reflexivity.
Qed.

(** X5.  [laguerrePolynomial] computes the associated Laguerre
    polynomials: L_0 = 1, L_1 = 1 + alpha - x, and for n >= 2
    n L_n = (2n - 1 + alpha - x) L_(n-1) - (n - 1 + alpha) L_(n-2).
    For a negative degree it returns 0. *)
Theorem laguerrePolynomial_recurrence (alpha x : R) :
  laguerrePolynomial 0 alpha x = 1
  /\ laguerrePolynomial 1 alpha x = 1 + alpha - x
  /\ (forall n : Z, (2 <= n)%Z ->
        IZR n * laguerrePolynomial n alpha x
        = (2 * IZR n - 1 + alpha - x) * laguerrePolynomial (n - 1) alpha x
          - (IZR n - 1 + alpha) * laguerrePolynomial (n - 2) alpha x)
  /\ (forall n : Z, (n < 0)%Z -> laguerrePolynomial n alpha x = 0).
Proof.
  split; [reflexivity|]. split; [reflexivity|]. split.
  - intros n Hn.
    pose proof (laguerre_loop alpha x (S (Z.to_nat (n - 2)))) as Hs.
    rewrite for_range_last, (laguerre_loop alpha x (Z.to_nat (n - 2))) in Hs.
    replace (Z.of_nat (S (Z.to_nat (n - 2))) + 1)%Z with n in Hs by lia.
    replace (Z.of_nat (Z.to_nat (n - 2)) + 1)%Z with (n - 1)%Z in Hs by lia.
    replace (Z.of_nat (Z.to_nat (n - 2))) with (n - 2)%Z in Hs by lia.
    replace (2 + (n - 2))%Z with n in Hs by lia.
    cbv beta iota zeta in Hs.
    apply (f_equal snd) in Hs. cbn [snd] in Hs. rewrite <- Hs.
    field. apply not_0_IZR. lia.
  - intros n Hn. unfold laguerrePolynomial.
    assert (E0 : (n =? 0)%Z = false) by (apply Z.eqb_neq; lia).
    assert (E1 : (n =? 1)%Z = false) by (apply Z.eqb_neq; lia).
    rewrite E0, E1. unfold for_upto.
    replace (Z.to_nat (n - 2 + 1)) with O by lia. reflexivity.
Qed.

Lemma laguerrePolynomial_recurrence_witness :
  laguerrePolynomial 2 1 3 = 1 / 2 * (3 * 3 - 6 * 3 + 6).
Proof.
  destruct (laguerrePolynomial_recurrence 1 3) as (H0 & H1 & Hrec & _).
  specialize (Hrec 2%Z ltac:(lia)).
  change (2 - 1)%Z with 1%Z in Hrec. change (2 - 2)%Z with 0%Z in Hrec.
  rewrite H0, H1 in Hrec. lra.
Defined.

Lemma legendrePolynomial_unfold (l m : Z) (x : R) :
  legendrePolynomial l m x =
  if (Z.abs m >? l)%Z then 0
  else if (l =? Z.abs m)%Z then legendre_seed m x
  else if (l =? Z.abs m + 1)%Z then x * (2 * IZR (Z.abs m) + 1) * legendre_seed m x
  else
    let '(_, _, Plm) :=
      for_upto (Z.abs m + 2) l
        (fun ll '(Pmm, Pmm1, _) =>
           let Plm :=
             (x * (2 * IZR ll - 1) * Pmm1 - (IZR ll + IZR (Z.abs m) - 1) * Pmm)
             / (IZR ll - IZR (Z.abs m)) in
           (Pmm1, Plm, Plm))
        (legendre_seed m x, x * (2 * IZR (Z.abs m) + 1) * legendre_seed m x, 0)
    in Plm.
Proof. reflexivity. Qed.

(** The variables [(Pmm, Pmm1, Plm)] of the loop of [legendrePolynomial]
    after [j] passes. *)
Lemma legendre_loop (m : Z) (x : R) (j : nat) :
  for_range (Z.abs m + 2) j
    (fun ll '(Pmm, Pmm1, _) =>
       let Plm :=
         (x * (2 * IZR ll - 1) * Pmm1 - (IZR ll + IZR (Z.abs m) - 1) * Pmm)
         / (IZR ll - IZR (Z.abs m)) in
       (Pmm1, Plm, Plm))
    (legendre_seed m x, x * (2 * IZR (Z.abs m) + 1) * legendre_seed m x, 0)
  = (legendrePolynomial (Z.abs m + Z.of_nat j) m x,
     legendrePolynomial (Z.abs m + Z.of_nat j + 1) m x,
     match j with O => 0 | S _ => legendrePolynomial (Z.abs m + Z.of_nat j + 1) m x end).
Proof.
  set (body := fun (ll : Z) '((Pmm, Pmm1, _) : R * R * R) =>
                 let Plm :=
                   (x * (2 * IZR ll - 1) * Pmm1 - (IZR ll + IZR (Z.abs m) - 1) * Pmm)
                   / (IZR ll - IZR (Z.abs m)) in
                 (Pmm1, Plm, Plm)).
  set (a := legendre_seed m x). set (b := x * (2 * IZR (Z.abs m) + 1) * a).
  assert (Ha : legendrePolynomial (Z.abs m + 0) m x = a).
  { rewrite legendrePolynomial_unfold.
    assert (E0 : (Z.abs m >? Z.abs m + 0)%Z = false) by (rewrite Z.gtb_ltb; apply Z.ltb_ge; lia).
    assert (E1 : (Z.abs m + 0 =? Z.abs m)%Z = true) by (apply Z.eqb_eq; lia).
    now rewrite E0, E1. }
  assert (Hb : legendrePolynomial (Z.abs m + 0 + 1) m x = b).
  { rewrite legendrePolynomial_unfold.
    assert (E0 : (Z.abs m >? Z.abs m + 0 + 1)%Z = false)
      by (rewrite Z.gtb_ltb; apply Z.ltb_ge; lia).
    assert (E1 : (Z.abs m + 0 + 1 =? Z.abs m)%Z = false) by (apply Z.eqb_neq; lia).
    assert (E2 : (Z.abs m + 0 + 1 =? Z.abs m + 1)%Z = true) by (apply Z.eqb_eq; lia).
    now rewrite E0, E1, E2. }
  assert (Hdef : forall i : nat,
             legendrePolynomial (Z.abs m + Z.of_nat i + 2) m x
             = snd (for_range (Z.abs m + 2) (S i) body (a, b, 0))).
  { intros i. rewrite legendrePolynomial_unfold.
    assert (E0 : (Z.abs m >? Z.abs m + Z.of_nat i + 2)%Z = false)
      by (rewrite Z.gtb_ltb; apply Z.ltb_ge; lia).
    assert (E1 : (Z.abs m + Z.of_nat i + 2 =? Z.abs m)%Z = false) by (apply Z.eqb_neq; lia).
    assert (E2 : (Z.abs m + Z.of_nat i + 2 =? Z.abs m + 1)%Z = false)
      by (apply Z.eqb_neq; lia).
    rewrite E0, E1, E2. unfold for_upto.
    replace (Z.to_nat (Z.abs m + Z.of_nat i + 2 - (Z.abs m + 2) + 1)) with (S i) by lia.
    fold a. fold b. fold body.
    now destruct (for_range (Z.abs m + 2) (S i) body (a, b, 0)) as [[p q] c]. }
  induction j as [|j IH].
  - cbn [for_range Z.of_nat]. now rewrite Ha, Hb.
  - rewrite for_range_last, IH.
    replace (Z.abs m + Z.of_nat (S j) + 1)%Z with (Z.abs m + Z.of_nat j + 2)%Z by lia.
    rewrite (Hdef j), for_range_last, IH.
    replace (Z.abs m + Z.of_nat (S j))%Z with (Z.abs m + Z.of_nat j + 1)%Z by lia.
    destruct j; reflexivity.
Qed.

(** X6.  [legendrePolynomial] computes the associated Legendre functions
    of order |m|: 0 below the diagonal (|m| > l), the seed on it,
    P_(|m|+1) = x (2|m| + 1) P_|m| next to it, and for l >= |m| + 2
    (l - |m|) P_l = x (2l - 1) P_(l-1) - (l + |m| - 1) P_(l-2). *)
Theorem legendrePolynomial_recurrence (m : Z) (x : R) :
  (forall l : Z, (Z.abs m > l)%Z -> legendrePolynomial l m x = 0)
  /\ legendrePolynomial (Z.abs m) m x = legendre_seed m x
  /\ legendrePolynomial (Z.abs m + 1) m x
     = x * (2 * IZR (Z.abs m) + 1) * legendrePolynomial (Z.abs m) m x
  /\ (forall l : Z, (Z.abs m + 2 <= l)%Z ->
        (IZR l - IZR (Z.abs m)) * legendrePolynomial l m x
        = x * (2 * IZR l - 1) * legendrePolynomial (l - 1) m x
          - (IZR l + IZR (Z.abs m) - 1) * legendrePolynomial (l - 2) m x).
Proof.
  pose proof (legendre_loop m x O) as H0. cbn [for_range Z.of_nat] in H0.
  injection H0 as Ha Hb. rewrite Z.add_0_r in Ha, Hb.
  split; [|split; [|split]].
  - intros l Hl. rewrite legendrePolynomial_unfold.
    apply Z.gtb_gt in Hl. now rewrite Hl.
  - now rewrite <- Ha.
  - now rewrite <- Hb, <- Ha.
  - intros l Hl.
    pose proof (legendre_loop m x (S (Z.to_nat (l - Z.abs m - 2)))) as Hs.
    rewrite for_range_last, (legendre_loop m x (Z.to_nat (l - Z.abs m - 2))) in Hs.
    replace (Z.abs m + Z.of_nat (S (Z.to_nat (l - Z.abs m - 2))) + 1)%Z with l in Hs by lia.
    replace (Z.abs m + Z.of_nat (Z.to_nat (l - Z.abs m - 2)) + 1)%Z with (l - 1)%Z in Hs by lia.
    replace (Z.abs m + Z.of_nat (Z.to_nat (l - Z.abs m - 2)))%Z with (l - 2)%Z in Hs by lia.
    replace (Z.abs m + 2 + Z.of_nat (Z.to_nat (l - Z.abs m - 2)))%Z with l in Hs by lia.
    cbv beta iota zeta in Hs.
    apply (f_equal snd) in Hs. cbn [snd] in Hs. rewrite <- Hs.
    field. intros H. apply Rminus_diag_uniq in H. apply eq_IZR in H. lia.
Qed.

Lemma legendrePolynomial_recurrence_witness :
  legendrePolynomial 0 0 (1 / 2) = 1
  /\ legendrePolynomial 1 0 (1 / 2) = 1 / 2
  /\ legendrePolynomial 2 0 (1 / 2) = (3 * (1 / 2) * (1 / 2) - 1) / 2
  /\ legendrePolynomial 1 2 (1 / 2) = 0.
Proof.
  destruct (legendrePolynomial_recurrence 0 (1 / 2)) as (_ & H0 & H1 & Hrec).
  destruct (legendrePolynomial_recurrence 2 (1 / 2)) as (Hlow & _).
  change (Z.abs 0) with 0%Z in *. change (0 + 1)%Z with 1%Z in *.
  assert (Hs : legendre_seed 0 (1 / 2) = 1) by reflexivity.
  rewrite Hs in H0. rewrite H0 in H1.
  specialize (Hrec 2%Z ltac:(lia)).
  change (2 - 1)%Z with 1%Z in Hrec. change (2 - 2)%Z with 0%Z in Hrec.
  rewrite H0, H1 in Hrec.
  split; [exact H0|]. split; [rewrite H1; lra|]. split; [lra|].
  apply Hlow. cbn. lia.
Defined.

(** On the axis (x^2 = 1) the seed of a non-zero order vanishes, and with
    it every function of that order. *)
Lemma legendre_seed_on_axis (m : Z) (x : R) :
  m <> 0%Z -> x * x = 1 -> legendre_seed m x = 0.
Proof.
  intros Hm Hx. unfold legendre_seed. cbv zeta.
  assert (E : (Z.abs m >? 0)%Z = true) by (apply Z.gtb_gt; lia).
  rewrite E, Hx. replace (1 - 1) with 0 by ring. rewrite sqrt_0.
  unfold Math_pow_int.
  destruct (Z.abs m) as [|p|p] eqn:Ep; try lia.
  cbn [powerRZ]. rewrite (pow_i (Pos.to_nat p)) by lia. ring.
Qed.

Lemma legendre_loop_zero (M : Z) (x : R) (count : nat) : forall k : Z,
  for_range k count
    (fun ll '(Pmm, Pmm1, _) =>
       let Plm :=
         (x * (2 * IZR ll - 1) * Pmm1 - (IZR ll + IZR M - 1) * Pmm)
         / (IZR ll - IZR M) in
       (Pmm1, Plm, Plm))
    (0, 0, 0)
  = (0, 0, 0).
Proof.
  induction count as [|c IH]; intros k; [reflexivity|].
  cbn [for_range]. cbv beta iota zeta.
  replace ((x * (2 * IZR k - 1) * 0 - (IZR k + IZR M - 1) * 0) / (IZR k - IZR M))
    with 0 by (unfold Rdiv; ring).
  apply IH.
Qed.

Lemma legendrePolynomial_on_axis (l m : Z) (x : R) :
  m <> 0%Z -> x * x = 1 -> legendrePolynomial l m x = 0.
Proof.
  intros Hm Hx. rewrite legendrePolynomial_unfold, legendre_seed_on_axis by assumption.
  destruct (Z.abs m >? l)%Z; [reflexivity|].
  destruct (l =? Z.abs m)%Z; [reflexivity|].
  destruct (l =? Z.abs m + 1)%Z; [ring|].
  unfold for_upto. replace (x * (2 * IZR (Z.abs m) + 1) * 0) with 0 by ring.
  now rewrite legendre_loop_zero.
Qed.

Lemma cos_on_axis (theta : R) : sin theta = 0 -> cos theta * cos theta = 1.
Proof.
  intros Hs. pose proof (sin2_cos2 theta) as H. unfold Rsqr in H. rewrite Hs in H. lra.
Qed.

Lemma angular_value_unfold (l m : Z) (theta phi : R) :
  angular_value l m theta phi =
  if angular_invalid l m then 0
  else
    let N := sphericalHarmonicNormalization l m in
    let P := legendrePolynomial l (Z.abs m) (cos theta) in
    if (m >? 0)%Z then N * sqrt 2 * P * cos (IZR m * phi)
    else if (m <? 0)%Z then N * sqrt 2 * P * sin (IZR (Z.abs m) * phi)
    else N * P.
Proof.
  unfold angular_value, sphericalHarmonic, angular_invalid.
  destruct ((l <? 0)%Z || (Z.abs m >? l)%Z)%bool; [reflexivity|].
  cbv zeta. destruct (m >? 0)%Z; [reflexivity|]. destruct (m <? 0)%Z; reflexivity.
Qed.

Lemma angular_value_on_axis (l m : Z) (theta phi : R) :
  m <> 0%Z -> sin theta = 0 -> angular_value l m theta phi = 0.
Proof.
  intros Hm Hs. rewrite angular_value_unfold.
  destruct (angular_invalid l m); [reflexivity|]. cbv zeta.
  rewrite legendrePolynomial_on_axis by (try lia; now apply cos_on_axis).
  destruct (m >? 0)%Z; [ring|]. destruct (m <? 0)%Z; ring.
Qed.

(** X7.  On the z axis (sin(theta) = 0) every orbital with m <> 0 has a
    node: [sphericalHarmonic] returns 0 there, and so does
    [probabilityDensity]. *)
Theorem node_on_the_axis (n l m : Z) (r theta phi Zeff : R) (w : world) :
  m <> 0%Z -> sin theta = 0 ->
  fst (sphericalHarmonic l m theta phi w) = 0
  /\ fst (probabilityDensity n l m r theta phi Zeff w) = 0.
Proof.
  intros Hm Hs. rewrite sphericalHarmonic_run, probabilityDensity_run. cbn [fst].
  unfold density_value. rewrite angular_value_on_axis by assumption.
  split; [reflexivity | ring].
Qed.

Lemma node_on_the_axis_witness :
  let w := mkWorld (fun _ => 0) 0 [] [] in
  fst (sphericalHarmonic 2 (-1) PI (1 / 2) w) = 0
  /\ fst (probabilityDensity 3 2 (-1) 1 PI (1 / 2) 1 w) = 0.
Proof.
  intro w. apply node_on_the_axis; [lia | apply sin_PI].
Defined.

Lemma IZR_as_INR (k : Z) : (0 <= k)%Z -> IZR k = INR (Z.to_nat k).
Proof. intros H. rewrite INR_IZR_INZ, Z2Nat.id by exact H. reflexivity. Qed.

Lemma angular_value_period (l m : Z) (theta phi : R) :
  angular_value l m theta (phi + 2 * PI) = angular_value l m theta phi.
Proof.
  rewrite !angular_value_unfold.
  destruct (angular_invalid l m); [reflexivity|]. cbv zeta.
  destruct (m >? 0)%Z eqn:Hpos.
  - apply Z.gtb_gt in Hpos. f_equal.
    replace (IZR m * (phi + 2 * PI)) with (IZR m * phi + 2 * IZR m * PI) by ring.
    rewrite (IZR_as_INR m) by lia. apply cos_period.
  - destruct (m <? 0)%Z eqn:Hneg; [|reflexivity]. f_equal.
    replace (IZR (Z.abs m) * (phi + 2 * PI))
      with (IZR (Z.abs m) * phi + 2 * IZR (Z.abs m) * PI) by ring.
    rewrite (IZR_as_INR (Z.abs m)) by lia. apply sin_period.
Qed.

(** X8.  The wave function is 2 PI-periodic in the azimuth: at
    [phi + 2 PI], [sphericalHarmonic] and [probabilityDensity] return
    what they return at [phi], warnings included. *)
Theorem azimuth_period (n l m : Z) (r theta phi Zeff : R) (w : world) :
  sphericalHarmonic l m theta (phi + 2 * PI) w = sphericalHarmonic l m theta phi w
  /\ probabilityDensity n l m r theta (phi + 2 * PI) Zeff w
     = probabilityDensity n l m r theta phi Zeff w.
Proof.
  rewrite !sphericalHarmonic_run, !probabilityDensity_run.
  unfold density_value. rewrite angular_value_period. split; reflexivity.
Qed.

Lemma radial_value_unfold (n l : Z) (r Zeff : R) :
  radial_value n l r Zeff =
  if radial_invalid n l then 0
  else
    let rho := (2 * Zeff * r) / (IZR n * BOHR_RADIUS) in
    radialNormalization n l Zeff * Math_pow_int rho l * exp (- rho / 2)
    * laguerrePolynomial (n - l - 1) (IZR (2 * l + 1)) rho.
Proof.
  unfold radial_value, radialWaveFunction, radial_invalid.
  destruct ((n <? 1)%Z || (l <? 0)%Z || (l >=? n)%Z)%bool; reflexivity.
Qed.

(** At the nucleus the density does not depend on the direction: either
    the radial part vanishes there (l > 0), or the orbital is an s orbital
    and the angular part is constant. *)
Lemma density_value_at_nucleus (n l m : Z) (theta phi theta' phi' Zeff : R) :
  density_value n l m 0 theta phi Zeff = density_value n l m 0 theta' phi' Zeff.
Proof.
  unfold density_value. rewrite radial_value_unfold.
  destruct (radial_invalid n l) eqn:Hr; [ring|]. cbv zeta.
  unfold radial_invalid in Hr. rewrite !orb_false_iff in Hr.
  destruct Hr as [[_ Hl] _]. apply Z.ltb_ge in Hl.
  destruct (Z.eq_dec l 0) as [->|Hl0].
  - destruct (Z.eq_dec m 0) as [->|Hm0].
    + now rewrite !angular_value_s.
    + rewrite !angular_value_unfold.
      assert (E : angular_invalid 0 m = true).
      { unfold angular_invalid. apply orb_true_iff. right. apply Z.gtb_gt. lia. }
      now rewrite E.
  - replace (2 * Zeff * 0 / (IZR n * BOHR_RADIUS)) with 0 by (unfold Rdiv; ring).
    unfold Math_pow_int. destruct l as [|p|p]; try lia.
    cbn [powerRZ]. rewrite (pow_i (Pos.to_nat p)) by lia. ring.
Qed.

(** On the axis the angular part does not depend on the azimuth. *)
Lemma angular_value_axis_azimuth (l m : Z) (theta phi phi' : R) :
  sin theta = 0 -> angular_value l m theta phi = angular_value l m theta phi'.
Proof.
  intros Hs. destruct (Z.eq_dec m 0) as [->|Hm].
  - now rewrite !angular_value_unfold.
  - now rewrite !angular_value_on_axis.
Qed.

Lemma cartesianToSpherical_of_nucleus (theta phi : R) :
  let c := sphericalToCartesian 0 theta phi in
  cartesianToSpherical (Cartesian.x c) (Cartesian.y c) (Cartesian.z c)
  = Spherical.mk 0 0 0.
Proof.
  unfold sphericalToCartesian, cartesianToSpherical.
  cbn [Cartesian.x Cartesian.y Cartesian.z].
  match goal with |- context [sqrt ?a] => replace a with 0 by ring end.
  rewrite sqrt_0. destruct (Req_dec_T 0 0); [reflexivity | contradiction].
Qed.

Lemma sphericalToCartesian_period (r theta phi : R) :
  sphericalToCartesian r theta (phi - 2 * PI) = sphericalToCartesian r theta phi.
Proof.
  unfold sphericalToCartesian.
  rewrite <- (sin_period (phi - 2 * PI) 1), <- (cos_period (phi - 2 * PI) 1).
  replace (phi - 2 * PI + 2 * INR 1 * PI) with phi by (cbn; ring).
  reflexivity.
Qed.

(** The angular part at the azimuth [Math.atan2] gives back. *)
Lemma angular_value_round_trip (l m : Z) (r theta phi : R) :
  0 < r -> 0 <= theta <= PI -> - PI < phi < 2 * PI ->
  angular_value l m theta
    (Math_atan2 (r * sin theta * sin phi) (r * sin theta * cos phi))
  = angular_value l m theta phi.
Proof.
  intros Hr Ht Hp. pose proof PI_RGT_0 as Hpi.
  destruct (Req_dec (sin theta) 0) as [Hs|Hs].
  - now apply angular_value_axis_azimuth.
  - assert (Hpos : 0 < r * sin theta).
    { apply Rmult_lt_0_compat; [exact Hr|].
      assert (0 <= sin theta) by (apply sin_ge_0; lra). lra. }
    destruct (Rle_dec phi PI) as [Hle|Hgt].
    + now rewrite atan2_of_direction by (try assumption; lra).
    + assert (Es : sin phi = sin (phi - 2 * PI)).
      { rewrite <- (sin_period (phi - 2 * PI) 1). f_equal. cbn. ring. }
      assert (Ec : cos phi = cos (phi - 2 * PI)).
      { rewrite <- (cos_period (phi - 2 * PI) 1). f_equal. cbn. ring. }
      rewrite Es, Ec, atan2_of_direction by (try assumption; lra).
      rewrite <- (angular_value_period l m theta (phi - 2 * PI)).
      f_equal. ring.
Qed.

(** X9.  [probabilityDensityCartesian] at the Cartesian image of a point
    is [probabilityDensity] at the point, for every r >= 0, theta in
    [0, PI] and phi in (- PI, 2 PI): what the round trip of the
    coordinates loses (the azimuth on the axis, both angles at the
    nucleus, a turn of 2 PI) the density does not depend on. *)
Theorem probabilityDensityCartesian_of_spherical
        (n l m : Z) (r theta phi Zeff : R) (w : world) :
  0 <= r -> 0 <= theta <= PI -> - PI < phi < 2 * PI ->
  let c := sphericalToCartesian r theta phi in
  probabilityDensityCartesian n l m (Cartesian.x c) (Cartesian.y c) (Cartesian.z c) Zeff w
  = probabilityDensity n l m r theta phi Zeff w.
Proof.
  intros Hr Ht Hp. cbv zeta. unfold probabilityDensityCartesian. cbv zeta.
  rewrite !probabilityDensity_run. f_equal.
  destruct Hr as [Hr|<-].
  - rewrite round_trip by assumption.
    cbn [Spherical.r Spherical.theta Spherical.phi].
    unfold density_value, sphericalToCartesian. cbn [Cartesian.x Cartesian.y].
    now rewrite angular_value_round_trip.
  - rewrite cartesianToSpherical_of_nucleus.
    cbn [Spherical.r Spherical.theta Spherical.phi].
    apply density_value_at_nucleus.
Qed.

Lemma probabilityDensityCartesian_of_spherical_witness :
  let w := mkWorld (fun _ => 0) 0 [] [] in
  let c := sphericalToCartesian 1 (PI / 2) (3 * (PI / 2)) in
  probabilityDensityCartesian 2 1 1 (Cartesian.x c) (Cartesian.y c) (Cartesian.z c) 1 w
  = probabilityDensity 2 1 1 1 (PI / 2) (3 * (PI / 2)) 1 w.
Proof.
  intros w c. pose proof PI_RGT_0 as Hpi.
  apply probabilityDensityCartesian_of_spherical; lra.
Defined.

(** ** The memoised factorial *)

Lemma factorial_loop_grows (count : nat) : forall (table : list R) (acc : R),
  let out :=
    for_range (Z.of_nat (length table)) count
      (fun i '(result, tbl) =>
         let result := result * IZR i in
         (result, array_set tbl (Z.to_nat i) result))
      (acc, table) in
  exists ext : list R, snd out = table ++ ext /\ length ext = count.
Proof.
  induction count as [|c IH]; intros table acc; cbv zeta.
  - exists []. cbn. now rewrite app_nil_r.
  - cbn [for_range]. cbv beta iota zeta.
    set (v := acc * IZR (Z.of_nat (length table))).
    assert (E : array_set table (Z.to_nat (Z.of_nat (length table))) v = table ++ [v]).
    { rewrite Nat2Z.id. unfold array_set.
      now rewrite Nat.ltb_irrefl, Nat.sub_diag. }
    rewrite E.
    destruct (IH (table ++ [v]) v) as (ext & Hext & Hlen). cbv zeta in Hext.
    rewrite length_app in Hext. cbn [length] in Hext.
    replace (Z.of_nat (length table) + 1)%Z with (Z.of_nat (length table + 1)) by lia.
    exists (v :: ext). rewrite Hext, <- app_assoc. cbn. split; [reflexivity | lia].
Qed.

(** X10.  From a table that holds factorials - the initial table does -
    the memoised [factorial(n)] returns 1 for negative [n] and n!
    otherwise, and leaves a table that holds factorials: the old table,
    untouched, extended to n + 1 entries when it was shorter. *)
Theorem factorial_memo_table (n : Z) (table : list R) :
  table_ok table ->
  fst (factorial_memo n table) = factorial n
  /\ ((n < 0)%Z -> fst (factorial_memo n table) = 1)
  /\ ((0 <= n)%Z -> fst (factorial_memo n table) = INR (fact (Z.to_nat n)))
  /\ table_ok (snd (factorial_memo n table))
  /\ (exists ext : list R, snd (factorial_memo n table) = table ++ ext)
  /\ Z.of_nat (length (snd (factorial_memo n table)))
     = Z.max (Z.of_nat (length table)) (n + 1).
Proof.
  intros Hok. destruct (factorial_memo_value n table Hok) as [Hv Ht].
  split; [exact Hv|]. split.
  { intros Hn. rewrite Hv. unfold factorial.
    assert (E : (n <? 0)%Z = true) by (apply Z.ltb_lt; lia). now rewrite E. }
  split.
  { intros Hn. rewrite Hv. unfold factorial.
    assert (E : (n <? 0)%Z = false) by (apply Z.ltb_ge; lia). now rewrite E. }
  split; [exact Ht|].
  unfold factorial_memo.
  destruct (n <? 0)%Z eqn:Hneg.
  { apply Z.ltb_lt in Hneg. cbn [snd]. split; [exists []; now rewrite app_nil_r | lia]. }
  apply Z.ltb_ge in Hneg.
  destruct (n <? Z.of_nat (length table))%Z eqn:Hin.
  { apply Z.ltb_lt in Hin. cbn [snd]. split; [exists []; now rewrite app_nil_r | lia]. }
  apply Z.ltb_ge in Hin. unfold for_upto.
  destruct (factorial_loop_grows (Z.to_nat (n - Z.of_nat (length table) + 1)) table
              (nth (length table - 1) table 0)) as (ext & Hext & Hlen).
  cbv zeta in Hext. rewrite Hext. split; [now exists ext|].
  rewrite length_app, Hlen. lia.
Qed.

Lemma factorial_memo_table_witness :
  fst (factorial_memo 5 factorialCache_initial) = INR (fact 5)
  /\ Z.of_nat (length (snd (factorial_memo 5 factorialCache_initial))) = 6%Z
  /\ fst (factorial_memo 3 (snd (factorial_memo 5 factorialCache_initial))) = INR (fact 3)
  /\ snd (factorial_memo 3 (snd (factorial_memo 5 factorialCache_initial)))
     = snd (factorial_memo 5 factorialCache_initial)
  /\ fst (factorial_memo (-1) factorialCache_initial) = 1.
Proof.
  destruct (factorial_memo_table 5 factorialCache_initial table_ok_initial)
    as (_ & _ & H5 & Hok5 & _ & Hlen5).
  destruct (factorial_memo_table 3 _ Hok5) as (_ & _ & H3 & _ & [ext Hext] & Hlen3).
  destruct (factorial_memo_table (-1) factorialCache_initial table_ok_initial)
    as (_ & Hneg & _).
  split; [apply H5; lia|]. split; [rewrite Hlen5; cbn; lia|].
  split; [apply H3; lia|]. split; [|apply Hneg; lia].
  rewrite Hext. rewrite Hext, length_app in Hlen3.
  assert (Hnil : length ext = 0%nat) by lia.
  destruct ext; [now rewrite app_nil_r | discriminate Hnil].
Defined.

(** ** The ceiling estimates *)

(** A counted loop that keeps the largest value seen. *)
Lemma repeatM_running_max (body : R -> M R) (value : world -> R) (step : world -> world) :
  (forall acc w, body acc w = (if Rgtb (value w) acc then value w else acc, step w)) ->
  forall (k : nat) (acc : R) (w : world),
    acc <= fst (repeatM k body acc w)
    /\ (forall j, (j < k)%nat -> value (Nat.iter j step w) <= fst (repeatM k body acc w))
    /\ (fst (repeatM k body acc w) = acc
        \/ exists j, (j < k)%nat /\ fst (repeatM k body acc w) = value (Nat.iter j step w))
    /\ snd (repeatM k body acc w) = Nat.iter k step w.
Proof.
  intros Hbody. induction k as [|k IH]; intros acc w.
  - cbn. split; [lra|]. split; [intros j Hj; lia|].
    split; [left; reflexivity | reflexivity].
  - cbn [repeatM]. unfold bind. rewrite Hbody.
    set (acc' := if Rgtb (value w) acc then value w else acc).
    destruct (IH acc' (step w)) as (Hge & Hall & Hatt & Hw).
    assert (Hacc : acc <= acc' /\ value w <= acc' /\ (acc' = acc \/ acc' = value w)).
    { unfold acc', Rgtb. destruct (Rltb acc (value w)) eqn:E.
      - apply Rltb_true in E. split; [lra|]. split; [lra | now right].
      - apply Rltb_false in E. split; [lra|]. split; [lra | now left]. }
    destruct Hacc as (H1 & H2 & H3).
    assert (Hiter : forall j, Nat.iter j step (step w) = Nat.iter (S j) step w).
    { intros j. symmetry. apply Nat.iter_succ_r. }
    split; [lra|]. split; [|split].
    + intros [|j] Hj.
      * change (Nat.iter 0 step w) with w. eapply Rle_trans; [exact H2 | exact Hge].
      * rewrite <- Hiter. apply Hall. lia.
    + destruct Hatt as [Hatt|(j & Hj & Hatt)].
      * destruct H3 as [H3|H3].
        -- left. now rewrite Hatt.
        -- right. exists O. split; [lia|]. change (Nat.iter 0 step w) with w.
           now rewrite Hatt.
      * right. exists (S j). split; [lia|]. now rewrite <- Hiter.
    + now rewrite Hw, Hiter.
Qed.

Lemma repeated_warnings_last (k : nat) (msgs : list warning) :
  repeated_warnings k msgs ++ msgs = repeated_warnings (S k) msgs.
Proof.
  induction k as [|k IH]; cbn [repeated_warnings].
  - now rewrite app_nil_r.
  - rewrite <- app_assoc, IH. reflexivity.
Qed.

Lemma iter_advanced (k c : nat) (msgs : list warning) (w : world) :
  Nat.iter k (fun w => advanced w c msgs) w
  = advanced w (c * k) (repeated_warnings k msgs).
Proof.
  induction k as [|k IH].
  - change (Nat.iter 0 (fun w => advanced w c msgs) w) with w.
    rewrite Nat.mul_0_r. now rewrite advanced_0.
  - rewrite Nat.iter_succ, IH, advanced_advanced, repeated_warnings_last.
    f_equal. lia.
Qed.

(** X11.  [estimateMaxProbability] consumes four draws per pre-sample,
    4 * 5000 in all, and returns 1.5 times the largest weighted density
    among its 5000 pre-samples, or 0 when none is positive: a ceiling
    that is never negative and lies at least 1.5 times above every
    pre-sample. *)
Theorem estimateMaxProbability_is_scaled_max (n l m : Z) (Zeff maxR : R) (w : world) :
  let ceiling := fst (estimateMaxProbability n l m Zeff maxR w) in
  let nth_weight (j : nat) := presample_weight n l m Zeff maxR (advanced w (4 * j) []) in
  0 <= ceiling
  /\ (forall j, (j < Z.to_nat 5000)%nat -> 1.5 * nth_weight j <= ceiling)
  /\ (ceiling = 0
      \/ exists j, (j < Z.to_nat 5000)%nat /\ ceiling = 1.5 * nth_weight j)
  /\ drawn (snd (estimateMaxProbability n l m Zeff maxR w))
     = (4 * Z.to_nat 5000 + drawn w)%nat.
Proof.
  cbv zeta. rewrite estimateMaxProbability_world, estimateMaxProbability_unfold.
  unfold bind.
  destruct (repeatM_running_max (presample n l m Zeff maxR)
              (presample_weight n l m Zeff maxR)
              (fun w => advanced w 4 (density_warnings n l m))
              (presample_run n l m Zeff maxR) (Z.to_nat 5000) 0 w)
    as (Hge & Hall & Hatt & _).
  destruct (repeatM (Z.to_nat 5000) (presample n l m Zeff maxR) 0 w) as [v w'].
  cbn [fst snd] in *. unfold ret. cbn [fst].
  assert (Hval : forall j,
             presample_weight n l m Zeff maxR
               (Nat.iter j (fun w => advanced w 4 (density_warnings n l m)) w)
             = presample_weight n l m Zeff maxR (advanced w (4 * j) [])).
  { intros j. now rewrite iter_advanced. }
  split; [lra|]. split; [|split].
  - intros j Hj. rewrite <- Hval. specialize (Hall j Hj). lra.
  - destruct Hatt as [->|(j & Hj & ->)]; [left; ring|].
    right. exists j. split; [exact Hj|]. rewrite Hval. ring.
  - reflexivity.
Qed.

Lemma estimateMaxProbability_is_scaled_max_witness :
  let w := mkWorld (fun _ => 1 / 2) 0 [] [] in
  1.5 * presample_weight 1 0 0 1 4 (advanced w (4 * 0) [])
  <= fst (estimateMaxProbability 1 0 0 1 4 w).
Proof.
  intro w.
  destruct (estimateMaxProbability_is_scaled_max 1 0 0 1 4 w) as (_ & Hall & _).
  apply (Hall O). lia.
Defined.

Lemma density_sample_run (n l m : Z) (Zeff maxR acc : R) (w : world) :
  density_sample n l m Zeff maxR acc w
  = (if Rgtb (density_sample_value n l m Zeff maxR w) acc
     then density_sample_value n l m Zeff maxR w else acc,
     advanced w 3 (density_warnings n l m)).
Proof.
  unfold density_sample, bind, Math_random. cbn [draws drawn console maxProbabilityCache].
  rewrite probabilityDensity_run. reflexivity.
Qed.

(** X12.  [findMaxProbability(n, l, m, Z, samples)] consumes three draws
    per sample and returns 1.2 times the largest density among its
    samples, or 0 when none is positive; with no sample to take
    ([samples <= 0]) it returns 0 and consumes nothing. *)
Theorem findMaxProbability_is_scaled_max (n l m : Z) (Zeff : R) (samples : Z) (w : world) :
  let ceiling := fst (findMaxProbability n l m Zeff samples w) in
  let nth_density (j : nat) :=
    density_sample_value n l m Zeff (maxRadialExtent n l Zeff) (advanced w (3 * j) []) in
  0 <= ceiling
  /\ (forall j, (Z.of_nat j < samples)%Z -> 1.2 * nth_density j <= ceiling)
  /\ (ceiling = 0
      \/ exists j, (Z.of_nat j < samples)%Z /\ ceiling = 1.2 * nth_density j)
  /\ drawn (snd (findMaxProbability n l m Zeff samples w))
     = (3 * Z.to_nat samples + drawn w)%nat
  /\ ((samples <= 0)%Z -> findMaxProbability n l m Zeff samples w = (0 * 1.2, w)).
Proof.
  cbv zeta. rewrite findMaxProbability_world, findMaxProbability_unfold.
  unfold bind.
  destruct (repeatM_running_max
              (density_sample n l m Zeff (maxRadialExtent n l Zeff))
              (density_sample_value n l m Zeff (maxRadialExtent n l Zeff))
              (fun w => advanced w 3 (density_warnings n l m))
              (density_sample_run n l m Zeff (maxRadialExtent n l Zeff))
              (Z.to_nat samples) 0 w)
    as (Hge & Hall & Hatt & _).
  assert (Hnone : (samples <= 0)%Z ->
                  repeatM (Z.to_nat samples)
                    (density_sample n l m Zeff (maxRadialExtent n l Zeff)) 0 w = (0, w)).
  { intros Hs. replace (Z.to_nat samples) with O by lia. reflexivity. }
  destruct (repeatM (Z.to_nat samples)
              (density_sample n l m Zeff (maxRadialExtent n l Zeff)) 0 w) as [v w'].
  cbn [fst snd] in *. unfold ret. cbn [fst].
  assert (Hval : forall j,
             density_sample_value n l m Zeff (maxRadialExtent n l Zeff)
               (Nat.iter j (fun w => advanced w 3 (density_warnings n l m)) w)
             = density_sample_value n l m Zeff (maxRadialExtent n l Zeff)
                 (advanced w (3 * j) [])).
  { intros j. now rewrite iter_advanced. }
  split; [lra|]. split; [|split; [|split]].
  - intros j Hj. rewrite <- Hval. specialize (Hall j ltac:(lia)). lra.
  - destruct Hatt as [->|(j & Hj & ->)]; [left; ring|].
    right. exists j. split; [lia|]. rewrite Hval. ring.
  - reflexivity.
  - intros Hs. specialize (Hnone Hs). injection Hnone as -> ->. reflexivity.
Qed.

Lemma findMaxProbability_is_scaled_max_witness :
  let w := mkWorld (fun _ => 1 / 2) 0 [] [] in
  1.2 * density_sample_value 1 0 0 1 (maxRadialExtent 1 0 1) (advanced w (3 * 7) [])
  <= fst (findMaxProbability 1 0 0 1 2000 w)
  /\ findMaxProbability 1 0 0 1 0 w = (0 * 1.2, w).
Proof.
  intro w.
  destruct (findMaxProbability_is_scaled_max 1 0 0 1 2000 w) as (_ & Hall & _).
  destruct (findMaxProbability_is_scaled_max 1 0 0 1 0 w) as (_ & _ & _ & _ & Hnone).
  split; [apply (Hall 7%nat); lia | apply Hnone; lia].
Defined.

(** ** What sampleOrbital returns *)

(** A call with [numPoints >= 0], pass by pass: the number [k] of passes
    the loop makes, the state it stops in, what is returned and the world
    afterwards. *)
Lemma sampleOrbital_trace (n l m numPoints : Z) (Zeff : R) (w : world) :
  (0 <= numPoints)%Z ->
  let maxR := maxRadialExtent n l Zeff in
  let maxP0 := fst (estimateMaxProbability n l m Zeff maxR w) in
  let w1 := snd (estimateMaxProbability n l m Zeff maxR w) in
  exists k : nat,
    let s := fst (attempts_run n l m Zeff maxR k (initial_state numPoints maxP0) w1) in
    (forall j, (j < k)%nat ->
       sampling_continues numPoints
         (fst (attempts_run n l m Zeff maxR j (initial_state numPoints maxP0) w1)) = true)
    /\ sampling_continues numPoints s = false
    /\ buffer_ok numPoints s
    /\ attempts s = Z.of_nat k
    /\ sampleOrbital n l m numPoints Zeff w
       = (Returned (firstn (Z.to_nat (pointIndex s)) (points s)),
          logged (advanced w1 (4 * k) (repeated_warnings k (density_warnings n l m)))
            (if (pointIndex s <? numPoints * 3)%Z
             then [OnlyGenerated (IZR (pointIndex s) / 3) numPoints n l m] else [])).
Proof.
  intros Hn. cbv zeta. unfold sampleOrbital.
  assert (E : (numPoints * 3 <? 0)%Z = false) by (apply Z.ltb_ge; lia).
  rewrite E. unfold bind.
  destruct (estimateMaxProbability n l m Zeff (maxRadialExtent n l Zeff) w) as [maxP0 w1].
  cbn [fst snd]. fold (initial_state numPoints maxP0).
  destruct (sampling_loop_trace n l m Zeff (maxRadialExtent n l Zeff) numPoints
              (initial_state numPoints maxP0) w1) as [k [Ek [Hlt Hk]]].
  exists k. rewrite Ek.
  pose proof (attempts_run_buffer_ok n l m Zeff (maxRadialExtent n l Zeff) numPoints k
                (initial_state numPoints maxP0) w1 (initial_state_ok numPoints maxP0 Hn) Hlt)
    as Hok.
  destruct (attempts_run_counts n l m Zeff (maxRadialExtent n l Zeff) k
              (initial_state numPoints maxP0) w1) as [Hatt Hw2].
  destruct (attempts_run n l m Zeff (maxRadialExtent n l Zeff) k
              (initial_state numPoints maxP0) w1) as [s w2].
  cbn [fst snd] in *. subst w2.
  split; [exact Hlt|]. split; [exact Hk|]. split; [exact Hok|].
  split; [rewrite Hatt; unfold initial_state; cbn [attempts]; lia|].
  destruct Hok as (Hi & _ & Hlen & _).
  destruct (pointIndex s <? numPoints * 3)%Z eqn:Hshort.
  - reflexivity.
  - apply Z.ltb_ge in Hshort. unfold ret. rewrite logged_nil.
    rewrite firstn_all2 by lia. reflexivity.
Qed.

(** The written part of the buffer grows by exactly the coordinates of
    the accepted candidates. *)
Lemma written_prefix (n l m : Z) (Zeff maxR : R) (numPoints : Z) (k : nat) :
  forall (s : sampler_state) (w : world),
    buffer_ok numPoints s ->
    (forall j, (j < k)%nat ->
       sampling_continues numPoints (fst (attempts_run n l m Zeff maxR j s w)) = true) ->
    let s' := fst (attempts_run n l m Zeff maxR k s w) in
    firstn (Z.to_nat (pointIndex s')) (points s')
    = firstn (Z.to_nat (pointIndex s)) (points s)
      ++ accepted_coordinates n l m Zeff maxR k s w.
Proof.
  induction k as [|k IH]; intros s w Hok Hlt; cbv zeta.
  - cbn [attempts_run fst accepted_coordinates]. now rewrite app_nil_r.
  - assert (Hc : sampling_continues numPoints s = true) by (apply (Hlt O); lia).
    cbn [attempts_run accepted_coordinates].
    rewrite IH.
    + rewrite app_assoc. f_equal.
      rewrite attempt_run. cbv zeta. cbn [fst pointIndex points].
      destruct (candidate_accepted n l m Zeff maxR s w).
      * destruct Hok as (Hi & Hmod & Hlen & _).
        apply sampling_continues_true in Hc as [Hc _].
        apply store_point_appends; [lia|].
        assert (Hq : (pointIndex s = 3 * (pointIndex s / 3))%Z).
        { rewrite (Z.div_mod (pointIndex s) 3) at 1 by lia. lia. }
        lia.
      * now rewrite app_nil_r.
    + now apply attempt_buffer_ok.
    + intros j Hj. apply (Hlt (S j)). lia.
Qed.



Lemma Math_pow_third_unit (u : R) : 0 <= u < 1 -> 0 <= Math_pow u (1 / 3) <= 1.
Proof.
  intros [H0 H1]. unfold Math_pow.
  destruct (Req_dec_T u 0) as [_|Hne].
  - destruct (Req_dec_T (1 / 3) 0); lra.
  - unfold Rpower. split; [apply Rlt_le, exp_pos|].
    assert (Hln : ln u < 0).
    { rewrite <- ln_1. apply ln_increasing; lra. }
    apply Rle_trans with (exp 0); [|rewrite exp_0; lra].
    apply Rlt_le, exp_increasing. lra.
Qed.

(** A candidate lies within [maxR] of the nucleus. *)
Lemma candidate_within (maxR : R) (w : world) :
  0 <= maxR -> 0 <= draws w (drawn w) < 1 ->
  let c := sphericalToCartesian (candidate_r maxR w) (candidate_theta w) (candidate_phi w) in
  Cartesian.x c * Cartesian.x c + Cartesian.y c * Cartesian.y c
  + Cartesian.z c * Cartesian.z c <= maxR * maxR.
Proof.
  intros Hm Hu. cbv zeta.
  pose proof (Math_pow_third_unit _ Hu) as Hp.
  set (r := candidate_r maxR w). set (theta := candidate_theta w). set (phi := candidate_phi w).
  unfold sphericalToCartesian. cbn [Cartesian.x Cartesian.y Cartesian.z].
  pose proof (sin2_cos2 theta) as Ht. pose proof (sin2_cos2 phi) as Hph.
  unfold Rsqr in Ht, Hph.
  replace (r * sin theta * cos phi * (r * sin theta * cos phi)
           + r * sin theta * sin phi * (r * sin theta * sin phi)
           + r * cos theta * (r * cos theta))
    with (r * r * (sin theta * sin theta * (sin phi * sin phi + cos phi * cos phi)
                   + cos theta * cos theta)) by ring.
  rewrite Hph, Rmult_1_r, Ht, Rmult_1_r.
  unfold r, candidate_r.
  set (p := Math_pow (draws w (drawn w)) (1 / 3)) in *.
  assert (Hpp : p * p <= 1) by nra.
  assert (Hmm : 0 <= maxR * maxR) by nra.
  replace (maxR * p * (maxR * p)) with (maxR * maxR * (p * p)) by ring.
  nra.
Qed.

Lemma accepted_coordinates_within (n l m : Z) (Zeff maxR : R) (k : nat) :
  forall (s : sampler_state) (w : world),
    0 <= maxR -> (forall i, 0 <= draws w i < 1) ->
    points_within maxR (accepted_coordinates n l m Zeff maxR k s w).
Proof.
  induction k as [|k IH]; intros s w Hm Hd.
  - exact I.
  - cbn [accepted_coordinates].
    assert (Hrest : points_within maxR
                      (accepted_coordinates n l m Zeff maxR k
                         (fst (attempt n l m Zeff maxR s w))
                         (snd (attempt n l m Zeff maxR s w)))).
    { apply IH; [exact Hm|]. rewrite attempt_run. cbn [snd advanced draws]. exact Hd. }
    destruct (candidate_accepted n l m Zeff maxR s w); [|exact Hrest].
    cbv zeta. cbn [app points_within]. split; [|exact Hrest].
    apply candidate_within; [exact Hm | apply Hd].
Qed.

(** X14.  With draws in [0, 1) and a positive charge, every point
    [sampleOrbital] returns lies within [maxRadialExtent(n, l, Z)] of the
    nucleus. *)
Theorem sampleOrbital_within_extent (n l m numPoints : Z) (Zeff : R) (w : world) :
  (0 <= numPoints)%Z -> 0 < Zeff -> (forall i, 0 <= draws w i < 1) ->
  exists (buffer : list R) (w' : world),
    sampleOrbital n l m numPoints Zeff w = (Returned buffer, w')
    /\ points_within (maxRadialExtent n l Zeff) buffer.
Proof.
  intros Hn Hz Hd.
  destruct (sampleOrbital_trace n l m numPoints Zeff w Hn)
    as (k & Hlt & _ & Hok & Hatt & Hrun).
  cbv zeta in Hlt, Hok, Hatt, Hrun.
  rewrite (written_prefix n l m Zeff (maxRadialExtent n l Zeff) numPoints k _ _
             (initial_state_ok numPoints _ Hn) Hlt) in Hrun.
  cbn [initial_state pointIndex firstn Z.to_nat app] in Hrun.
  eexists. eexists. split; [exact Hrun|].
  apply accepted_coordinates_within.
  - unfold maxRadialExtent, BOHR_RADIUS.
    assert (0 <= IZR n * IZR n) by nra.
    assert (0 < / Zeff) by now apply Rinv_0_lt_compat.
    unfold Rdiv. nra.
  - intros i. rewrite estimateMaxProbability_world. cbn [advanced draws]. apply Hd.
Qed.

Lemma sampleOrbital_within_extent_witness :
  let w := mkWorld (fun _ => 1 / 2) 0 [] [] in
  exists (buffer : list R) (w' : world),
    sampleOrbital 3 2 1 4 2 w = (Returned buffer, w')
    /\ points_within (maxRadialExtent 3 2 2) buffer.
Proof.
  intro w. apply (sampleOrbital_within_extent 3 2 1 4 2 w); [lia | lra |].
  intros i. cbn. lra.
Defined.

(** With invalid quantum numbers the density is 0 everywhere. *)
Lemma density_value_invalid (n l m : Z) (r theta phi Zeff : R) :
  (n < 1 \/ l < 0 \/ l >= n \/ Z.abs m > l)%Z ->
  density_value n l m r theta phi Zeff = 0.
Proof.
  intros H. unfold density_value. rewrite radial_value_unfold, angular_value_unfold.
  destruct (radial_invalid n l) eqn:Er; [ring|].
  destruct (angular_invalid l m) eqn:Ea; [ring|]. exfalso.
  unfold radial_invalid in Er. unfold angular_invalid in Ea.
  rewrite !orb_false_iff in Er. rewrite orb_false_iff in Ea.
  destruct Er as [[E1 E2] E3]. destruct Ea as [_ E4].
  apply Z.ltb_ge in E1, E2. rewrite Z.geb_leb in E3. apply Z.leb_gt in E3.
  rewrite Z.gtb_ltb in E4. apply Z.ltb_ge in E4. lia.
Qed.

Lemma rejected_when_nothing_to_sample (n l m : Z) (Zeff maxR : R) (k : nat) :
  (n < 1 \/ l < 0 \/ l >= n \/ Z.abs m > l)%Z ->
  forall (s : sampler_state) (w : world),
    maxP s = 0 ->
    accepted_coordinates n l m Zeff maxR k s w = [].
Proof.
  intros Hinv. induction k as [|k IH]; intros s w Hm; [reflexivity|].
  cbn [accepted_coordinates].
  assert (Hrej : candidate_accepted n l m Zeff maxR s w = false).
  { unfold candidate_accepted, candidate_weight. cbv zeta.
    rewrite density_value_invalid by exact Hinv. rewrite Hm.
    apply Rltb_false. lra. }
  rewrite Hrej. cbn [app]. apply IH.
  rewrite attempt_run. cbv zeta. cbn [fst maxP]. rewrite Hm.
  destruct (rejecting_too_much _ _); ring.
Qed.

Lemma ceiling_when_nothing_to_sample (n l m : Z) (Zeff maxR : R) (w : world) :
  (n < 1 \/ l < 0 \/ l >= n \/ Z.abs m > l)%Z ->
  fst (estimateMaxProbability n l m Zeff maxR w) = 0.
Proof.
  intros Hinv. rewrite estimateMaxProbability_unfold. unfold bind.
  destruct (repeatM_running_max (presample n l m Zeff maxR)
              (presample_weight n l m Zeff maxR)
              (fun w => advanced w 4 (density_warnings n l m))
              (presample_run n l m Zeff maxR) (Z.to_nat 5000) 0 w)
    as (_ & _ & Hatt & _).
  destruct (repeatM (Z.to_nat 5000) (presample n l m Zeff maxR) 0 w) as [v w'].
  cbn [fst] in *. unfold ret. cbn [fst].
  destruct Hatt as [->|(j & _ & ->)]; [ring|].
  unfold presample_weight. cbv zeta. rewrite density_value_invalid by exact Hinv. ring.
Qed.

(** X15.  With invalid quantum numbers (n < 1, l < 0, l >= n or |m| > l)
    there is nothing to sample: whatever the draws, [sampleOrbital]
    accepts no candidate, uses up its whole budget of [numPoints * 100]
    attempts and returns an empty buffer. *)
Theorem sampleOrbital_invalid_quantum_numbers (n l m numPoints : Z) (Zeff : R) (w : world) :
  (n < 1 \/ l < 0 \/ l >= n \/ Z.abs m > l)%Z ->
  (0 <= numPoints)%Z ->
  exists w' : world,
    sampleOrbital n l m numPoints Zeff w = (Returned [], w')
    /\ drawn w' = (4 * Z.to_nat 5000 + 4 * Z.to_nat (numPoints * 100) + drawn w)%nat.
Proof.
  intros Hinv Hn.
  destruct (sampleOrbital_trace n l m numPoints Zeff w Hn)
    as (k & Hlt & Hstop & Hok & Hatt & Hrun).
  cbv zeta in Hlt, Hstop, Hok, Hatt, Hrun.
  pose proof (written_prefix n l m Zeff (maxRadialExtent n l Zeff) numPoints k _ _
                (initial_state_ok numPoints _ Hn) Hlt) as Hpre.
  cbv zeta in Hpre.
  rewrite rejected_when_nothing_to_sample in Hpre
    by (try exact Hinv; unfold initial_state; cbn [maxP];
        now apply ceiling_when_nothing_to_sample).
  cbn [initial_state pointIndex firstn Z.to_nat app] in Hpre.
  rewrite Hpre in Hrun. eexists. split; [exact Hrun|].
  (* no point was written: the index is still 0 and the budget is used up *)
  destruct Hok as (Hi & _ & Hlen & Ha & _).
  assert (Hzero : pointIndex
                    (fst (attempts_run n l m Zeff (maxRadialExtent n l Zeff) k
                            (initial_state numPoints
                               (fst (estimateMaxProbability n l m Zeff
                                       (maxRadialExtent n l Zeff) w)))
                            (snd (estimateMaxProbability n l m Zeff
                                    (maxRadialExtent n l Zeff) w)))) = 0%Z).
  { apply (f_equal (@length R)) in Hpre. rewrite length_firstn, Hlen in Hpre.
    cbn [length] in Hpre. lia. }
  apply sampling_continues_false in Hstop. rewrite Hzero, Hatt in Hstop.
  rewrite Hatt in Ha.
  assert (Hk : k = Z.to_nat (numPoints * 100)) by lia.
  unfold logged, advanced. cbn [drawn]. rewrite estimateMaxProbability_world.
  cbn [advanced drawn]. lia.
Qed.

Lemma sampleOrbital_invalid_quantum_numbers_witness :
  let w := mkWorld (fun _ => 1 / 2) 0 [] [] in
  exists w' : world,
    sampleOrbital 2 2 0 3 1 w = (Returned [], w')
    /\ drawn w' = (4 * Z.to_nat 5000 + 4 * Z.to_nat (3 * 100) + drawn w)%nat.
Proof.
  intro w. apply (sampleOrbital_invalid_quantum_numbers 2 2 0 3 1 w); lia.
Defined.

(** ** What sampleOrbital logs *)

Lemma repeated_warnings_nil (k : nat) : repeated_warnings k [] = [].
Proof. induction k as [|k IH]; [reflexivity | exact IH]. Qed.

Lemma density_warnings_valid (n l m : Z) :
  (1 <= n)%Z -> (0 <= l < n)%Z -> (Z.abs m <= l)%Z -> density_warnings n l m = [].
Proof.
  intros Hn Hl Hm. unfold density_warnings.
  assert (E1 : radial_invalid n l = false).
  { unfold radial_invalid. rewrite !orb_false_iff, Z.geb_leb.
    split; [split|]; [apply Z.ltb_ge | apply Z.ltb_ge | apply Z.leb_gt]; lia. }
  assert (E2 : angular_invalid l m = false).
  { unfold angular_invalid. rewrite orb_false_iff.
    split; [apply Z.ltb_ge; lia|]. rewrite Z.gtb_ltb. apply Z.ltb_ge. lia. }
  now rewrite E1, E2.
Qed.

(** X16.  With valid quantum numbers (1 <= n, 0 <= l < n, |m| <= l)
    [sampleOrbital] logs nothing while it samples: a call that fills its
    buffer leaves the console as it was, and a call that falls short
    logs its shortfall warning and nothing else. *)
Theorem sampleOrbital_logs_only_shortfall (n l m numPoints : Z) (Zeff : R) (w : world) :
  (1 <= n)%Z -> (0 <= l < n)%Z -> (Z.abs m <= l)%Z -> (0 <= numPoints)%Z ->
  exists (buffer : list R) (w' : world),
    sampleOrbital n l m numPoints Zeff w = (Returned buffer, w')
    /\ console w'
       = console w
         ++ (if (Z.of_nat (length buffer) <? numPoints * 3)%Z
             then [OnlyGenerated (IZR (Z.of_nat (length buffer)) / 3) numPoints n l m]
             else []).
Proof.
  intros Hn Hl Hm Hp.
  destruct (sampleOrbital_trace n l m numPoints Zeff w Hp)
    as (k & _ & _ & Hok & _ & Hrun).
  cbv zeta in Hok, Hrun.
  eexists. eexists. split; [exact Hrun|].
  destruct Hok as (Hi & _ & Hlen & _).
  rewrite length_firstn, Hlen, Nat.min_l, Z2Nat.id by lia.
  unfold logged, advanced. cbn [console].
  rewrite estimateMaxProbability_world. cbn [advanced console].
  rewrite (density_warnings_valid n l m Hn Hl Hm), !repeated_warnings_nil, !app_nil_r.
  reflexivity.
Qed.

Lemma sampleOrbital_logs_only_shortfall_witness :
  let w := mkWorld (fun _ => 1 / 2) 0 [] [] in
  exists (buffer : list R) (w' : world),
    sampleOrbital 3 1 (-1) 2 1 w = (Returned buffer, w')
    /\ console w'
       = console w
         ++ (if (Z.of_nat (length buffer) <? 2 * 3)%Z
             then [OnlyGenerated (IZR (Z.of_nat (length buffer)) / 3) 2 3 1 (-1)]
             else []).
Proof.
  intro w. apply (sampleOrbital_logs_only_shortfall 3 1 (-1) 2 1 w); lia.
Defined.

(** ** getMagneticQuantumNumbers and sampleSubshell *)

Lemma for_range_collect_values (count : nat) : forall k : Z,
  for_range k count (fun m mValues => mValues ++ [m]) []
  = map (fun i => (k + Z.of_nat i)%Z) (seq 0 count).
Proof.
  induction count as [|c IH]; intros k; [reflexivity|].
  cbn [for_range]. rewrite for_range_collect, IH. cbn [app seq map].
  f_equal; [f_equal; lia|].
  rewrite <- seq_shift, map_map. apply map_ext. intros i. lia.
Qed.

(** X17.  [getMagneticQuantumNumbers(l)] lists the 2l + 1 values
    -l, ..., l in increasing order, each once; for negative l the list
    is empty. *)
Theorem getMagneticQuantumNumbers_values (l : Z) :
  length (getMagneticQuantumNumbers l) = Z.to_nat (2 * l + 1)
  /\ (forall i, (i < Z.to_nat (2 * l + 1))%nat ->
        nth i (getMagneticQuantumNumbers l) 0%Z = (Z.of_nat i - l)%Z)
  /\ (forall m, In m (getMagneticQuantumNumbers l) <-> (- l <= m <= l)%Z).
Proof.
  unfold getMagneticQuantumNumbers, for_upto. rewrite for_range_collect_values.
  replace (Z.to_nat (l - - l + 1)) with (Z.to_nat (2 * l + 1)) by (f_equal; lia).
  set (f := fun i : nat => (- l + Z.of_nat i)%Z).
  split; [now rewrite length_map, length_seq|]. split.
  - intros i Hi.
    rewrite (nth_indep _ 0%Z (f O)) by now rewrite length_map, length_seq.
    rewrite map_nth, seq_nth by exact Hi. unfold f. lia.
  - intros m. rewrite in_map_iff. split.
    + intros (i & <- & Hi). apply in_seq in Hi. unfold f. lia.
    + intros Hm. exists (Z.to_nat (m + l)). split; [unfold f; lia|]. apply in_seq. lia.
Qed.

(** The buffer [sampleOrbital] returns holds whole points, at most
    [numPoints] of them. *)
Lemma sampleOrbital_returns_points (n l m numPoints : Z) (Zeff : R) (w : world) :
  (0 <= numPoints)%Z ->
  exists (buffer : list R) (w' : world),
    sampleOrbital n l m numPoints Zeff w = (Returned buffer, w')
    /\ exists a : Z, (0 <= a <= numPoints)%Z /\ Z.of_nat (length buffer) = (3 * a)%Z.
Proof.
  intros Hp.
  destruct (sampleOrbital_trace n l m numPoints Zeff w Hp)
    as (k & _ & _ & Hok & _ & Hrun).
  cbv zeta in Hok, Hrun.
  eexists. eexists. split; [exact Hrun|].
  destruct Hok as (Hi & Hmod & Hlen & _).
  rewrite length_firstn, Hlen, Nat.min_l, Z2Nat.id by lia.
  match type of Hmod with (?p mod 3 = 0)%Z => exists (p / 3)%Z;
    pose proof (Z.div_mod p 3) as Hq end.
  lia.
Qed.



(** X19.  A [pointsPerElectron] of -1 or less makes [sampleSubshell]
    throw: the first orbital asks [sampleOrbital] for a buffer of negative
    length, and the RangeError leaves the subshell unsampled, with no
    draw consumed and nothing logged. *)
Theorem sampleSubshell_negative_points
        (n l totalElectrons : Z) (pointsPerElectron Zeff : R) (w : world) :
  (0 <= l)%Z -> totalElectrons <> 0%Z -> pointsPerElectron <= -1 ->
  sampleSubshell n l totalElectrons pointsPerElectron Zeff w = (RangeError, w).
Proof.
  intros Hl Ht Hp. unfold sampleSubshell.
  assert (Hcount : exists c, Z.to_nat (l - - l + 1) = S c).
  { exists (Z.to_nat (2 * l)). lia. }
  destruct Hcount as [c ->]. cbn [for_rangeM]. unfold bind at 1.
  rewrite electronsInThisOrbital_one by assumption.
  change (1 >? 0)%Z with true. cbv iota zeta. unfold bind.
  assert (Hc : (Math_ceil (pointsPerElectron * IZR 1) < 0)%Z).
  { assert (H : (Math_ceil (pointsPerElectron * IZR 1) <= Math_ceil (IZR (-1)))%Z)
      by (apply Zceil_le; lra).
    rewrite Math_ceil_IZR in H. lia. }
  rewrite sampleOrbital_negative by exact Hc. reflexivity.
Qed.

Lemma sampleSubshell_negative_points_witness :
  let w := mkWorld (fun _ => 1 / 2) 0 [] [] in
  sampleSubshell 2 1 6 (-2) 1 w = (RangeError, w).
Proof.
  intro w. apply (sampleSubshell_negative_points 2 1 6 (-2) 1 w); [lia | lia | lra].
Defined.

(** ** The radii of the sampler *)

(** X20.  For a genuine subshell (0 <= l < n) and a positive charge the
    most probable radius is positive and lies in the inner quarter of the
    sampling sphere: 0 < mostProbableRadius <= maxRadialExtent / 4. *)
Theorem mostProbableRadius_within_extent (n l : Z) (Zeff : R) :
  (0 <= l < n)%Z -> 0 < Zeff ->
  0 < mostProbableRadius n l Zeff <= maxRadialExtent n l Zeff / 4.
Proof.
  intros [Hl Hn] Hz. unfold mostProbableRadius, maxRadialExtent, BOHR_RADIUS.
  assert (Hl0 : 0 <= IZR l) by now apply IZR_le.
  assert (Hln : IZR l + 1 <= IZR n).
  { rewrite <- plus_IZR. apply IZR_le. lia. }
  assert (Hi : 0 < / Zeff) by now apply Rinv_0_lt_compat.
  assert (Hnum : 0 < IZR n * IZR n - IZR l * (IZR l + 1) / 2) by nra.
  assert (Hle : IZR n * IZR n - IZR l * (IZR l + 1) / 2 <= IZR n * IZR n) by nra.
  unfold Rdiv. split; [nra|].
  replace (4 * IZR n * IZR n * / Zeff * 1 * / 4) with (IZR n * IZR n * / Zeff)
    by (field; lra).
  nra.
Qed.

Lemma mostProbableRadius_within_extent_witness :
  0 < mostProbableRadius 3 2 1 <= maxRadialExtent 3 2 1 / 4.
Proof.
  apply (mostProbableRadius_within_extent 3 2 1); [lia | lra].
Defined.

(** ** The orbitals of a configuration, sampled one by one *)

Lemma orbital_key_eqb_eq (a b : orbital_key) : orbital_key_eqb a b = true <-> a = b.
Proof.
  destruct a as [[n1 l1] m1], b as [[n2 l2] m2]. unfold orbital_key_eqb.
  rewrite !andb_true_iff, !Z.eqb_eq. split.
  - intros [[-> ->] ->]. reflexivity.
  - intros E. injection E as -> -> ->. now split.
Qed.

(** A key the [Map] does not hold goes last. *)
Lemma results_set_fresh (results : list (orbital_key * list R)) (k : orbital_key)
      (v : list R) :
  ~ In k (map fst results) -> results_set results k v = results ++ [(k, v)].
Proof.
  induction results as [|[k' v'] t IH]; intros Hk; [reflexivity|].
  cbn [results_set app]. cbn [map fst In] in Hk.
  destruct (orbital_key_eqb k' k) eqn:E.
  - apply orbital_key_eqb_eq in E. exfalso. apply Hk. now left.
  - rewrite IH; [reflexivity|]. intros H. apply Hk. now right.
Qed.

(** The orbitals one subshell is given have pairwise distinct keys. *)
Lemma fill_orbitals_distinct (n l : Z) (count : nat) :
  forall (k : Z) (config : list Orbital.t) (remaining : Z),
  exists entries : list Orbital.t,
    for_range_while k count
      (fun '(config, remaining) => (remaining >? 0)%Z)
      (fun m '(config, remaining) =>
         let electronsInOrbital := Z.min 2 remaining in
         (config ++ [Orbital.mk n l m electronsInOrbital],
          (remaining - electronsInOrbital)%Z))
      (config, remaining)
    = (config ++ entries, (remaining - orbital_electrons entries)%Z)
    /\ Forall (fun o => Orbital.n o = n /\ Orbital.l o = l /\ (k <= Orbital.m o)%Z) entries
    /\ NoDup (map key_of entries).
Proof.
  set (cond := fun '((config, remaining) : list Orbital.t * Z) => (remaining >? 0)%Z).
  set (body := fun (m : Z) '((config, remaining) : list Orbital.t * Z) =>
                 let electronsInOrbital := Z.min 2 remaining in
                 (config ++ [Orbital.mk n l m electronsInOrbital],
                  (remaining - electronsInOrbital)%Z)).
  induction count as [|c IH]; intros k config remaining.
  - exists []. cbn [for_range_while]. rewrite app_nil_r.
    split; [f_equal; cbn; lia|]. split; constructor.
  - cbn [for_range_while].
    change (cond (config, remaining)) with (remaining >? 0)%Z.
    change (body k (config, remaining))
      with (config ++ [Orbital.mk n l k (Z.min 2 remaining)],
            (remaining - Z.min 2 remaining)%Z).
    destruct (remaining >? 0)%Z eqn:Hpos.
    + destruct (IH (k + 1)%Z (config ++ [Orbital.mk n l k (Z.min 2 remaining)])
                  (remaining - Z.min 2 remaining)%Z)
        as (entries & Hrun & Hall & Hnd).
      exists (Orbital.mk n l k (Z.min 2 remaining) :: entries).
      rewrite Hrun, <- app_assoc. cbn [app]. rewrite orbital_electrons_cons.
      cbn [Orbital.electrons].
      split; [f_equal; lia|]. split.
      * constructor.
        -- cbn [Orbital.n Orbital.l Orbital.m]. split; [reflexivity|].
           split; [reflexivity | lia].
        -- eapply Forall_impl; [|exact Hall]. cbn. intros o (Hn & Hl & Hm).
           split; [exact Hn|]. split; [exact Hl | lia].
      * cbn [map]. constructor; [|exact Hnd].
        intros Hin. apply in_map_iff in Hin as (o & Hkey & Ho).
        rewrite Forall_forall in Hall. destruct (Hall o Ho) as (_ & _ & Hm).
        unfold key_of in Hkey. cbn [Orbital.n Orbital.l Orbital.m] in Hkey.
        injection Hkey as _ _ Hk. lia.
    + exists []. rewrite app_nil_r.
      split; [f_equal; cbn; lia|]. split; constructor.
Qed.

(** For a filling order that names no subshell twice, the orbitals of
    the configuration have pairwise distinct keys. *)
Lemma fill_subshells_distinct (order : list (Z * Z)) :
  NoDup order ->
  forall (config : list Orbital.t) (remaining : Z),
  exists entries : list Orbital.t,
    for_of_break order
      (fun '(config, remaining) => (remaining <=? 0)%Z)
      (fun '(n, l) st =>
         for_range_while (- l)%Z (Z.to_nat (l - (- l) + 1))
           (fun '(config, remaining) => (remaining >? 0)%Z)
           (fun m '(config, remaining) =>
              let electronsInOrbital := Z.min 2 remaining in
              (config ++ [Orbital.mk n l m electronsInOrbital],
               (remaining - electronsInOrbital)%Z))
           st)
      (config, remaining)
    = (config ++ entries, (remaining - orbital_electrons entries)%Z)
    /\ Forall (fun o => In (Orbital.n o, Orbital.l o) order) entries
    /\ NoDup (map key_of entries).
Proof.
  intros Hord. induction Hord as [|[n l] order Hfresh Hord IH]; intros config remaining.
  - exists []. cbn [for_of_break]. rewrite app_nil_r.
    split; [f_equal; cbn; lia|]. split; constructor.
  - cbn [for_of_break].
    destruct (remaining <=? 0)%Z eqn:Hstop.
    + exists []. rewrite app_nil_r.
      split; [f_equal; cbn; lia|]. split; constructor.
    + destruct (fill_orbitals_distinct n l (Z.to_nat (l - - l + 1)) (- l)%Z config remaining)
        as (e1 & Hrun1 & Hall1 & Hnd1).
      cbv beta iota zeta. cbv zeta in Hrun1, IH. rewrite Hrun1.
      destruct (IH (config ++ e1) (remaining - orbital_electrons e1)%Z)
        as (e2 & Hrun2 & Hall2 & Hnd2).
      exists (e1 ++ e2). rewrite Hrun2, <- app_assoc, orbital_electrons_app.
      split; [f_equal; lia|]. split.
      * apply Forall_app. split.
        -- eapply Forall_impl; [|exact Hall1]. cbn. intros o (Hn & Hl & _).
           rewrite Hn, Hl. now left.
        -- eapply Forall_impl; [|exact Hall2]. cbn. intros o Hin. now right.
      * rewrite map_app. apply NoDup_app; [exact Hnd1 | exact Hnd2 |].
        intros key H1 H2.
        apply in_map_iff in H1 as (o1 & Hk1 & Ho1).
        apply in_map_iff in H2 as (o2 & Hk2 & Ho2).
        rewrite Forall_forall in Hall1, Hall2.
        destruct (Hall1 o1 Ho1) as (Hn & Hl & _). pose proof (Hall2 o2 Ho2) as Hin.
        rewrite <- Hk2 in Hk1. unfold key_of in Hk1. injection Hk1 as En El _.
        apply Hfresh. rewrite <- Hn, <- Hl, En, El. exact Hin.
Qed.

Lemma AUFBAU_ORDER_distinct : NoDup AUFBAU_ORDER.
Proof.
  unfold AUFBAU_ORDER.
  repeat (constructor;
          [cbn [In]; intros H;
           repeat (destruct H as [H|H]; [discriminate H|]); exact H|]).
  constructor.
Qed.

Lemma configuration_keys_distinct (electronCount : Z) :
  NoDup (map key_of (generateElectronConfiguration electronCount)).
Proof.
  unfold generateElectronConfiguration.
  destruct (fill_subshells_distinct AUFBAU_ORDER AUFBAU_ORDER_distinct [] electronCount)
    as (entries & Hrun & _ & Hnd).
  cbv zeta in Hrun |- *. rewrite Hrun. cbn [fst app]. exact Hnd.
Qed.

Lemma configuration_electrons_positive (electronCount : Z) :
  Forall (fun o => (1 <= Orbital.electrons o <= 2)%Z)
    (generateElectronConfiguration electronCount).
Proof.
  unfold generateElectronConfiguration.
  destruct (fill_subshells AUFBAU_ORDER AUFBAU_ORDER_subshells [] electronCount)
    as (entries & Hrun & _ & Hall & _).
  cbv zeta in Hrun |- *. rewrite Hrun. cbn [fst app].
  eapply Forall_impl; [|exact Hall]. cbn. intros o (_ & He & _). exact He.
Qed.

(** X21.  [generateElectronConfiguration] lists no orbital twice: the
    keys (n, l, m) of its entries are pairwise distinct, so the electrons
    of an orbital are all in one entry. *)
Theorem generateElectronConfiguration_orbitals_once (electronCount : Z) :
  NoDup (map key_of (generateElectronConfiguration electronCount))
  /\ forall o o', In o (generateElectronConfiguration electronCount) ->
                  In o' (generateElectronConfiguration electronCount) ->
                  key_of o = key_of o' -> o = o'.
Proof.
  pose proof (configuration_keys_distinct electronCount) as Hnd.
  split; [exact Hnd|].
  induction (generateElectronConfiguration electronCount) as [|a config IH];
    intros o o' Ho Ho' Hkey; [destruct Ho|].
  cbn [map] in Hnd. apply NoDup_cons_iff in Hnd as [Hfresh Hnd].
  destruct Ho as [<-|Ho], Ho' as [<-|Ho'].
  - reflexivity.
  - exfalso. apply Hfresh. rewrite Hkey. now apply in_map.
  - exfalso. apply Hfresh. rewrite <- Hkey. now apply in_map.
  - now apply IH.
Qed.

(** The loop of [sampleMultipleOrbitals] over orbitals with distinct
    keys, none of them in the [Map] yet. *)
Lemma sampleMultipleOrbitals_loop (pointsPerElectron : Z) (Zeff : R) :
  (0 <= pointsPerElectron)%Z ->
  forall (orbitals : list Orbital.t) (results : list (orbital_key * list R)) (w : world),
    Forall (fun o => (0 <= Orbital.electrons o)%Z) orbitals ->
    NoDup (map fst results ++ map key_of orbitals) ->
    exists (entries : list (orbital_key * list R)) (w' : world),
      for_ofM orbitals
        (fun orbital results =>
           let n := Orbital.n orbital in
           let l := Orbital.l orbital in
           let m := Orbital.m orbital in
           let electrons := Orbital.electrons orbital in
           let key := (n, l, m) in
           let numPoints := (pointsPerElectron * electrons)%Z in
           o <- sampleOrbital n l m numPoints Zeff ;;
           match o with
           | Returned pts => ret (Returned (results_set results key pts))
           | RangeError => ret RangeError
           end)
        results w
      = (Returned (results ++ entries), w')
      /\ Forall2 (fun o e =>
                    fst e = key_of o
                    /\ holds_points (pointsPerElectron * Orbital.electrons o) (snd e))
           orbitals entries.
Proof.
  intros Hp.
  match goal with
  | |- forall orbitals results w, _ -> _ ->
       exists entries w', for_ofM orbitals ?b results w = _ /\ _ => set (body := b)
  end.
  induction orbitals as [|o orbitals IH]; intros results w He Hnd.
  - exists [], w. cbn [for_ofM]. unfold ret. rewrite app_nil_r.
    split; [reflexivity | constructor].
  - apply Forall_cons_iff in He as [He0 He].
    cbn [for_ofM]. unfold bind at 1.
    assert (Hnum : (0 <= pointsPerElectron * Orbital.electrons o)%Z) by nia.
    destruct (sampleOrbital_returns_points (Orbital.n o) (Orbital.l o) (Orbital.m o)
                _ Zeff w Hnum) as (pts & w1 & Hrun & Hpts).
    assert (Hfresh : ~ In (key_of o) (map fst results)).
    { intros Hin. cbn [map] in Hnd. apply NoDup_remove_2 in Hnd.
      apply Hnd, in_or_app. now left. }
    assert (Hbody : body o results w = (Returned (results ++ [(key_of o, pts)]), w1)).
    { unfold body. cbv zeta. unfold bind. rewrite Hrun. unfold ret.
      fold (key_of o). now rewrite results_set_fresh. }
    rewrite Hbody.
    destruct (IH (results ++ [(key_of o, pts)]) w1 He) as (entries & w' & Hloop & Hall).
    { rewrite map_app. cbn [map fst]. rewrite <- app_assoc. exact Hnd. }
    exists ((key_of o, pts) :: entries), w'.
    rewrite Hloop, <- app_assoc. split; [reflexivity|].
    constructor; [|exact Hall]. split; [reflexivity | exact Hpts].
Qed.

(** X22.  Sampling the orbitals of a configuration with
    [pointsPerElectron >= 0] never throws, and the [Map] that
    [sampleMultipleOrbitals] returns has exactly one entry per orbital of
    the configuration, in the order of the configuration: entry and
    orbital have the same key (n, l, m), and the entry holds whole points,
    at most [pointsPerElectron * electrons] of them. *)
Theorem sampleMultipleOrbitals_of_configuration
        (electronCount pointsPerElectron : Z) (Zeff : R) (w : world) :
  (0 <= pointsPerElectron)%Z ->
  exists (results : list (orbital_key * list R)) (w' : world),
    sampleMultipleOrbitals (generateElectronConfiguration electronCount)
      pointsPerElectron Zeff w = (Returned results, w')
    /\ Forall2 (fun o e =>
                  fst e = key_of o
                  /\ holds_points (pointsPerElectron * Orbital.electrons o) (snd e))
         (generateElectronConfiguration electronCount) results.
Proof.
  intros Hp. unfold sampleMultipleOrbitals.
  destruct (sampleMultipleOrbitals_loop pointsPerElectron Zeff Hp
              (generateElectronConfiguration electronCount) [] w)
    as (entries & w' & Hrun & Hall).
  - eapply Forall_impl; [|apply configuration_electrons_positive]. cbn. intros o Ho. lia.
  - cbn [map app]. apply configuration_keys_distinct.
  - exists entries, w'. split; [exact Hrun | exact Hall].
Qed.

Lemma sampleMultipleOrbitals_of_configuration_witness :
  let w := mkWorld (fun _ => 1 / 2) 0 [] [] in
  exists (results : list (orbital_key * list R)) (w' : world),
    sampleMultipleOrbitals (generateElectronConfiguration 3) 4 1 w = (Returned results, w')
    /\ Forall2 (fun o e =>
                  fst e = key_of o
                  /\ holds_points (4 * Orbital.electrons o) (snd e))
         (generateElectronConfiguration 3) results.
Proof.
  intro w. apply (sampleMultipleOrbitals_of_configuration 3 4 1 w). lia.
Defined.

(** X23.  With a negative [pointsPerElectron], [sampleMultipleOrbitals]
    throws as soon as it meets an orbital that holds an electron: the
    call ends in a RangeError and returns no buffer, not even those of the
    orbitals before it. *)
Theorem sampleMultipleOrbitals_negative_points
        (orbitals : list Orbital.t) (pointsPerElectron : Z) (Zeff : R) (w : world) :
  (pointsPerElectron < 0)%Z ->
  Forall (fun o => (0 <= Orbital.electrons o)%Z) orbitals ->
  Exists (fun o => (0 < Orbital.electrons o)%Z) orbitals ->
  exists w' : world,
    sampleMultipleOrbitals orbitals pointsPerElectron Zeff w = (RangeError, w').
Proof.
  intros Hp Hall Hex. unfold sampleMultipleOrbitals.
  generalize (@nil (orbital_key * list R)) as results. revert w.
  match goal with
  | |- forall w results, exists w', for_ofM orbitals ?b results w = _ => set (body := b)
  end.
  induction orbitals as [|o orbitals IH]; intros w results.
  - apply Exists_nil in Hex. destruct Hex.
  - apply Forall_cons_iff in Hall as [He Hall].
    cbn [for_ofM]. unfold bind at 1.
    destruct (Z.eq_dec (Orbital.electrons o) 0) as [E0|Hne].
    + assert (Hnum : (0 <= pointsPerElectron * Orbital.electrons o)%Z)
        by (rewrite E0; lia).
      destruct (sampleOrbital_returns_points (Orbital.n o) (Orbital.l o) (Orbital.m o)
                  _ Zeff w Hnum) as (pts & w1 & Hrun & _).
      assert (Hbody : body o results w
                      = (Returned (results_set results (key_of o) pts), w1)).
      { unfold body. cbv zeta. unfold bind. rewrite Hrun. reflexivity. }
      rewrite Hbody. apply IH; [exact Hall|].
      apply Exists_cons in Hex as [Hpos|Hex]; [lia | exact Hex].
    + exists w.
      assert (Hbody : body o results w = (RangeError, w)).
      { unfold body. cbv zeta. unfold bind.
        rewrite sampleOrbital_negative by nia. reflexivity. }
      now rewrite Hbody.
Qed.

Lemma sampleMultipleOrbitals_negative_points_witness :
  let w := mkWorld (fun _ => 1 / 2) 0 [] [] in
  exists w' : world,
    sampleMultipleOrbitals [Orbital.mk 1 0 0 0; Orbital.mk 2 0 0 1] (-1) 1 w
    = (RangeError, w').
Proof.
  intro w.
  apply (sampleMultipleOrbitals_negative_points [Orbital.mk 1 0 0 0; Orbital.mk 2 0 0 1]
           (-1) 1 w).
  - lia.
  - repeat constructor; cbn; lia.
  - apply Exists_cons_tl, Exists_cons_hd. cbn. lia.
Defined.

(** ** Symmetries of the density *)

(** X24.  The ground state: for a charge Z >= 0 the 1s density is
    Z^3 e^(-2 Z r) / PI at every point, and evaluating it logs
    nothing. *)
Theorem ground_state_density (r theta phi Zeff : R) (w : world) :
  0 <= Zeff ->
  probabilityDensity 1 0 0 r theta phi Zeff w
  = (Zeff ^ 3 * exp (- 2 * Zeff * r) / PI, w).
Proof.
  intros Hz. rewrite probabilityDensity_run.
  rewrite (density_warnings_valid 1 0 0) by lia. rewrite logged_nil. f_equal.
  unfold density_value. rewrite radial_value_unfold, angular_value_s.
  change (radial_invalid 1 0) with false. cbv iota zeta.
  unfold radialNormalization, laguerrePolynomial, Math_pow_int, BOHR_RADIUS.
  cbv zeta.
  change (1 - 0 - 1)%Z with 0%Z. change (1 + 0)%Z with 1%Z.
  change (0 =? 0)%Z with true. cbv iota.
  rewrite factorial_0, factorial_1. unfold powerRZ.
  change (Pos.to_nat 3) with 3%nat.
  set (a := (2 * Zeff / (1 * 1)) ^ 3 * 1 / (2 * 1 * 1 ^ 3)).
  assert (Ha : a = 4 * Zeff ^ 3) by (unfold a; field).
  assert (Hnn : 0 <= a).
  { rewrite Ha. assert (0 <= Zeff ^ 3) by (apply pow_le; exact Hz). lra. }
  assert (Hp : 0 <= 1 / (4 * PI)).
  { apply Rlt_le, Rdiv_lt_0_compat; [lra|]. pose proof PI_RGT_0. lra. }
  replace (sqrt a * 1 * exp (- (2 * Zeff * r / (1 * 1)) / 2) * 1
           * (sqrt a * 1 * exp (- (2 * Zeff * r / (1 * 1)) / 2) * 1)
           * sqrt (1 / (4 * PI)) * sqrt (1 / (4 * PI)))
    with ((sqrt a * sqrt a)
          * (exp (- (2 * Zeff * r / (1 * 1)) / 2) * exp (- (2 * Zeff * r / (1 * 1)) / 2))
          * (sqrt (1 / (4 * PI)) * sqrt (1 / (4 * PI)))) by ring.
  rewrite !sqrt_sqrt by assumption. rewrite <- exp_plus, Ha.
  replace (- (2 * Zeff * r / (1 * 1)) / 2 + - (2 * Zeff * r / (1 * 1)) / 2)
    with (- 2 * Zeff * r) by field.
  field. apply PI_neq0.
Qed.

Lemma ground_state_density_witness :
  let w := mkWorld (fun _ => 1 / 2) 0 [] [] in
  probabilityDensity 1 0 0 1 0 0 2 w = (2 ^ 3 * exp (- 2 * 2 * 1) / PI, w).
Proof.
  intro w. apply (ground_state_density 1 0 0 2 w). lra.
Defined.

(** X25.  Orbitals with m = 0 are symmetric about the z axis: their
    density does not depend on the azimuth; s orbitals (l = 0) are
    symmetric about the nucleus: their density depends on r alone. *)
Theorem density_axial_symmetry (n l : Z) (r theta phi theta' phi' Zeff : R) (w : world) :
  probabilityDensity n l 0 r theta phi Zeff w
  = probabilityDensity n l 0 r theta phi' Zeff w
  /\ probabilityDensity n 0 0 r theta phi Zeff w
     = probabilityDensity n 0 0 r theta' phi' Zeff w.
Proof.
  rewrite !probabilityDensity_run. unfold density_value. split.
  - rewrite !(angular_value_unfold l 0).
    change (0 >? 0)%Z with false. change (0 <? 0)%Z with false. reflexivity.
  - now rewrite !angular_value_s.
Qed.

(** Reflecting [x] changes the sign of every other pair of the loop of
    [legendrePolynomial]. *)
Lemma legendre_loop_reflect (M : Z) (x : R) (count : nat) :
  forall (k : Z) (P0 P1 c s : R),
    let body := fun (x : R) (ll : Z) '((Pmm, Pmm1, _) : R * R * R) =>
                  let Plm :=
                    (x * (2 * IZR ll - 1) * Pmm1 - (IZR ll + IZR M - 1) * Pmm)
                    / (IZR ll - IZR M) in
                  (Pmm1, Plm, Plm) in
    let res := for_range k count (body x) (P0, P1, c) in
    for_range k count (body (- x)) (s * P0, - s * P1, - s * c)
    = (s * (-1) ^ count * fst (fst res),
       - (s * (-1) ^ count) * snd (fst res),
       - (s * (-1) ^ count) * snd res).
Proof.
  intros k P0 P1 c s body. revert k P0 P1 c s.
  induction count as [|j IH]; intros k P0 P1 c s res.
  - unfold res. cbn [for_range fst snd pow]. now rewrite Rmult_1_r.
  - unfold res. cbn [for_range].
    set (Plm := (x * (2 * IZR k - 1) * P1 - (IZR k + IZR M - 1) * P0)
                / (IZR k - IZR M)).
    change (body x k (P0, P1, c)) with (P1, Plm, Plm).
    assert (Hstep : body (- x) k (s * P0, - s * P1, - s * c)
                    = (- s * P1, - - s * Plm, - - s * Plm)).
    { cbv beta iota zeta delta [body]. unfold Plm, Rdiv. f_equal; [f_equal|]; ring. }
    rewrite Hstep, IH. cbn [pow].
    f_equal; [f_equal|]; ring.
Qed.

Lemma legendre_seed_reflect (m : Z) (x : R) : legendre_seed m (- x) = legendre_seed m x.
Proof.
  unfold legendre_seed. now replace (- x * - x) with (x * x) by ring.
Qed.

(** P_l^m(-x) = (-1)^(l - |m|) P_l^m(x). *)
Lemma legendrePolynomial_reflect (l m : Z) (x : R) :
  legendrePolynomial l m (- x)
  = (-1) ^ Z.to_nat (l - Z.abs m) * legendrePolynomial l m x.
Proof.
  rewrite !legendrePolynomial_unfold, legendre_seed_reflect.
  destruct (Z.abs m >? l)%Z eqn:E0; [ring|].
  rewrite Z.gtb_ltb in E0. apply Z.ltb_ge in E0.
  destruct (l =? Z.abs m)%Z eqn:E1.
  - apply Z.eqb_eq in E1. replace (l - Z.abs m)%Z with 0%Z by lia.
    change (Z.to_nat 0) with O. cbn [pow]. ring.
  - destruct (l =? Z.abs m + 1)%Z eqn:E2.
    + apply Z.eqb_eq in E2. replace (l - Z.abs m)%Z with 1%Z by lia.
      change (Z.to_nat 1) with 1%nat. cbn [pow]. ring.
    + apply Z.eqb_neq in E1, E2. unfold for_upto.
      pose proof (legendre_loop_reflect (Z.abs m) x (Z.to_nat (l - (Z.abs m + 2) + 1))
                    (Z.abs m + 2)%Z (legendre_seed m x)
                    (x * (2 * IZR (Z.abs m) + 1) * legendre_seed m x) 0 1) as H.
      cbv zeta in H.
      replace (1 * legendre_seed m x) with (legendre_seed m x) in H by ring.
      replace (- (1) * (x * (2 * IZR (Z.abs m) + 1) * legendre_seed m x))
        with (- x * (2 * IZR (Z.abs m) + 1) * legendre_seed m x) in H by ring.
      replace (- (1) * 0) with 0 in H by ring.
      rewrite H. clear H.
      destruct (for_range _ _ _ _) as [[p q] c]. cbn [fst snd].
      replace (Z.to_nat (l - Z.abs m)) with (S (Z.to_nat (l - (Z.abs m + 2) + 1))) by lia.
      cbn [pow]. ring.
Qed.

Lemma cos_PI_minus (theta : R) : cos (PI - theta) = - cos theta.
Proof.
  replace (PI - theta) with (- theta + PI) by ring. now rewrite neg_cos, cos_neg.
Qed.

Lemma angular_value_reflect (l m : Z) (theta phi : R) :
  angular_value l m (PI - theta) phi
  = (-1) ^ Z.to_nat (l - Z.abs m) * angular_value l m theta phi.
Proof.
  rewrite !angular_value_unfold. destruct (angular_invalid l m); [ring|]. cbv zeta.
  rewrite cos_PI_minus, legendrePolynomial_reflect.
  replace (Z.abs (Z.abs m)) with (Z.abs m) by lia.
  destruct (m >? 0)%Z; [ring|]. destruct (m <? 0)%Z; ring.
Qed.

(** X26.  Reflection in the xy plane, theta -> PI - theta: the Legendre
    function satisfies P_l^m(-x) = (-1)^(l - |m|) P_l^m(x), the spherical
    harmonic changes by the same sign, and the density is unchanged. *)
Theorem density_mirror_symmetry (n l m : Z) (x r theta phi Zeff : R) (w : world) :
  legendrePolynomial l m (- x)
  = (-1) ^ Z.to_nat (l - Z.abs m) * legendrePolynomial l m x
  /\ fst (sphericalHarmonic l m (PI - theta) phi w)
     = (-1) ^ Z.to_nat (l - Z.abs m) * fst (sphericalHarmonic l m theta phi w)
  /\ probabilityDensity n l m r (PI - theta) phi Zeff w
     = probabilityDensity n l m r theta phi Zeff w.
Proof.
  split; [apply legendrePolynomial_reflect|]. split.
  - rewrite !sphericalHarmonic_run. cbn [fst]. apply angular_value_reflect.
  - rewrite !probabilityDensity_run. f_equal. unfold density_value.
    rewrite angular_value_reflect.
    set (s := (-1) ^ Z.to_nat (l - Z.abs m)).
    assert (Hs : s * s = 1).
    { unfold s. rewrite <- Rpow_mult_distr.
      replace (-1 * -1) with 1 by ring. apply pow1. }
    replace (radial_value n l r Zeff * radial_value n l r Zeff
             * (s * angular_value l m theta phi) * (s * angular_value l m theta phi))
      with ((s * s) * (radial_value n l r Zeff * radial_value n l r Zeff
                       * angular_value l m theta phi * angular_value l m theta phi))
      by ring.
    rewrite Hs. ring.
Qed.

(** ** The radial probability of the ground state *)

Lemma radial_value_ground (r Zeff : R) :
  radial_value 1 0 r Zeff = sqrt (4 * Zeff ^ 3) * exp (- (Zeff * r)).
Proof.
  rewrite radial_value_unfold. change (radial_invalid 1 0) with false. cbv iota zeta.
  unfold radialNormalization, laguerrePolynomial, Math_pow_int, BOHR_RADIUS. cbv zeta.
  change (1 - 0 - 1)%Z with 0%Z. change (1 + 0)%Z with 1%Z.
  change (0 =? 0)%Z with true. cbv iota.
  rewrite factorial_0, factorial_1. unfold powerRZ. change (Pos.to_nat 3) with 3%nat.
  replace ((2 * Zeff / (1 * 1)) ^ 3 * 1 / (2 * 1 * 1 ^ 3)) with (4 * Zeff ^ 3) by field.
  replace (- (2 * Zeff * r / (1 * 1)) / 2) with (- (Zeff * r)) by field.
  ring.
Qed.

Lemma radialProbabilityDensity_run (n l : Z) (r Zeff : R) (w : world) :
  radialProbabilityDensity n l r Zeff w
  = (radial_value n l r Zeff * radial_value n l r Zeff * r * r,
     logged w (if radial_invalid n l then [InvalidRadial n l] else [])).
Proof.
  unfold radialProbabilityDensity, bind. now rewrite radialWaveFunction_run.
Qed.

(** t e^(-t) is largest at t = 1. *)
Lemma decay_peak (t : R) : t * exp (- t) <= exp (- 1).
Proof.
  pose proof (exp_ineq1_le (t - 1)) as H.
  pose proof (exp_pos (- t)) as Hp.
  replace (exp (- 1)) with (exp (t - 1) * exp (- t)).
  - apply Rmult_le_compat_r; lra.
  - rewrite <- exp_plus. f_equal. ring.
Qed.

(** X27.  For the ground state the radial probability density is
    4 Z^3 r^2 e^(-2 Z r), and among the radii r >= 0 it is largest at
    [mostProbableRadius(1, 0, Z)] = 1 / Z, for every charge Z > 0. *)
Theorem ground_state_radial_peak (r Zeff : R) (w : world) :
  0 < Zeff -> 0 <= r ->
  mostProbableRadius 1 0 Zeff = 1 / Zeff
  /\ fst (radialProbabilityDensity 1 0 r Zeff w)
     = 4 * Zeff ^ 3 * (r * r) * exp (- 2 * Zeff * r)
  /\ fst (radialProbabilityDensity 1 0 r Zeff w)
     <= fst (radialProbabilityDensity 1 0 (mostProbableRadius 1 0 Zeff) Zeff w).
Proof.
  intros Hz Hr.
  assert (Hpeak : mostProbableRadius 1 0 Zeff = 1 / Zeff).
  { unfold mostProbableRadius, BOHR_RADIUS. field. lra. }
  assert (Hcube : 0 <= 4 * Zeff ^ 3).
  { assert (0 <= Zeff ^ 3) by (apply pow_le; lra). lra. }
  split; [exact Hpeak|].
  rewrite !radialProbabilityDensity_run. cbn [fst]. rewrite !radial_value_ground, Hpeak.
  set (a := sqrt (4 * Zeff ^ 3)).
  assert (Ha : a * a = 4 * Zeff ^ 3) by (apply sqrt_sqrt; exact Hcube).
  split.
  - replace (a * exp (- (Zeff * r)) * (a * exp (- (Zeff * r))) * r * r)
      with (a * a * (r * r) * (exp (- (Zeff * r)) * exp (- (Zeff * r)))) by ring.
    rewrite Ha, <- exp_plus. f_equal. f_equal. ring.
  - set (u := r * exp (- (Zeff * r))).
    set (v := 1 / Zeff * exp (- (Zeff * (1 / Zeff)))).
    assert (Hu : 0 <= u).
    { unfold u. apply Rmult_le_pos; [exact Hr | apply Rlt_le, exp_pos]. }
    assert (Huv : u <= v).
    { unfold u, v. replace (Zeff * (1 / Zeff)) with 1 by (field; lra).
      pose proof (decay_peak (Zeff * r)) as Hd.
      assert (Hi : 0 < 1 / Zeff) by (apply Rdiv_lt_0_compat; lra).
      replace (r * exp (- (Zeff * r)))
        with (1 / Zeff * (Zeff * r * exp (- (Zeff * r)))) by (field; lra).
      apply Rmult_le_compat_l; [lra | exact Hd]. }
    replace (a * exp (- (Zeff * r)) * (a * exp (- (Zeff * r))) * r * r)
      with (a * a * (u * u)) by (unfold u; ring).
    replace (a * exp (- (Zeff * (1 / Zeff))) * (a * exp (- (Zeff * (1 / Zeff))))
             * (1 / Zeff) * (1 / Zeff))
      with (a * a * (v * v)) by (unfold v; ring).
    rewrite Ha. apply Rmult_le_compat_l; [exact Hcube | nra].
Qed.

Lemma ground_state_radial_peak_witness :
  let w := mkWorld (fun _ => 1 / 2) 0 [] [] in
  mostProbableRadius 1 0 2 = 1 / 2
  /\ fst (radialProbabilityDensity 1 0 3 2 w) = 4 * 2 ^ 3 * (3 * 3) * exp (- 2 * 2 * 3)
  /\ fst (radialProbabilityDensity 1 0 3 2 w)
     <= fst (radialProbabilityDensity 1 0 (mostProbableRadius 1 0 2) 2 w).
Proof.
  intro w. apply (ground_state_radial_peak 3 2 w); lra.
Defined.
